(** * A shallow embedding of the kiosk feedback application (src/App.js)

    The application is one React component together with two module-level
    helpers.  Every source function is embedded as a function over an
    explicit state: the browser's [localStorage] is a finite map, React
    state cells and refs are record fields, and each event handler is a
    state transformer that reads the values captured by its closure and
    applies the updates it issues.  Calls that may throw return a
    completion.  The asynchronous parts (image loading, promises, timers)
    are event-driven transition systems: one function per callback, and a
    run is the fold of the step function over a list of events.

    Numbers that are JavaScript doubles in the source (the result of
    [Math.random()], animation timestamps, touch coordinates) are
    rationals here and arithmetic on them is exact.  Timer delays are whole
    milliseconds.  Console output and [e.preventDefault()] change nothing
    the properties speak about and are left out. *)

From Stdlib Require Import ZArith QArith Qround Qminmax Lia Lqa String Ascii List Sorted.
From stdpp Require Import base gmap strings list pretty.

Local Open Scope string_scope.

#[local] Set Warnings "-register-all".

(** ** JavaScript conventions shared by all components *)

Module Js.

(** A string is truthy exactly when it is not empty. *)
Definition truthy (s : string) : bool := negb (String.eqb s "").

(** A possibly [undefined] string ([None]) is falsy when undefined. *)
Definition truthy_opt (o : option string) : bool :=
  match o with
  | Some s => truthy s
  | None => false
  end.

(** String coercion of a possibly [undefined] string. *)
Definition to_str (o : option string) : string := default "undefined" o.

(** [arr[i]] for an integral index: [undefined] out of range. *)
Definition index {A} (arr : list A) (i : Z) : option A :=
  if (i <? 0)%Z then None else arr !! Z.to_nat i.

(** [x < y] on numbers, as a boolean. *)
Definition ltb (x y : Q) : bool := negb (Qle_bool y x).

End Js.

(** ** Configuration resolver: [getWebSocketUrl] *)

Module Config.

(** The fields of [window.location] the resolver reads. *)
Record Location := {
  hostname : string;
  port : string;
  protocol : string
}.

(** [getWebSocketUrl] (App.js, lines 7-20); [env] is
    [process.env.REACT_APP_WS_URL] and [location] is [window.location]. *)
Definition getWebSocketUrl (env : option string) (location : Location) : string :=
  if Js.truthy_opt env then Js.to_str env
  else if String.eqb (hostname location) "localhost"
          || String.eqb (hostname location) "127.0.0.1"
  then "ws://localhost:3001"
  else
    let protocol := if String.eqb (protocol location) "https:" then "wss:" else "ws:" in
    let host := hostname location
                ++ (if Js.truthy (port location) then ":" ++ port location else "") in
    protocol ++ "//" ++ host.

(** *** Notions used to state the resolver's properties *)

(** The configuration value is absent when the variable is undefined or
    holds the empty string. *)
Definition absent (env : option string) : Prop := env = None \/ env = Some "".

(** The page of the worked example: secure transport, no port. *)
Definition example_location : Location :=
  {| hostname := "app.example.com"; port := ""; protocol := "https:" |}.

End Config.

(** ** Colour rotation: [COLORS] and [getNextColor] *)

Module Color.

Definition COLORS : list string :=
  ["blue"; "red"; "green"; "yellow"; "purple"; "orange"].

(** The single [localStorage] entry the application uses. *)
Definition lastFeedbackColor : string := "lastFeedbackColor".

(** [COLORS.filter(color => color !== lastColor)]; [lastColor] is [None]
    when [getItem] returned [null]. *)
Definition availableColors (lastColor : option string) : list string :=
  filter (λ color, Some color ≠ lastColor) COLORS.

Definition colorPool (lastColor : option string) : list string :=
  if (0 <? Z.of_nat (length (availableColors lastColor)))%Z
  then availableColors lastColor
  else COLORS.

(** [Math.floor(random * pool.length)], with [random] the value returned
    by [Math.random()]. *)
Definition randomIndex (random : Q) (pool : list string) : Z :=
  Qfloor (random * inject_Z (Z.of_nat (length pool))).

(** [getNextColor] (App.js, lines 25-45).  The parameter [currentColor] is
    accepted and, as in the source, never read.  The result is [None] when indexing the pool gives [undefined];
    [setItem] then stores the string coercion of [undefined]. *)
Definition getNextColor (currentColor : option string) (random : Q)
    (localStorage : gmap string string) : option string * gmap string string :=
  let lastColor := localStorage !! lastFeedbackColor in
  let colorPool := colorPool lastColor in
  let nextColor := Js.index colorPool (randomIndex random colorPool) in
  (nextColor, <[lastFeedbackColor := Js.to_str nextColor]> localStorage).

(** Consecutive calls: each one reads the storage left by the previous
    one.  A call is its argument and the random number it draws; the
    trace records what each call returned and the storage it left. *)
Fixpoint rotations (calls : list (option string * Q))
    (localStorage : gmap string string)
    : list (option string * gmap string string) :=
  match calls with
  | [] => []
  | (currentColor, random) :: rest =>
      let out := getNextColor currentColor random localStorage in
      out :: rotations rest (snd out)
  end.

(** What [Math.random()] may return. *)
Definition unit_interval (random : Q) : Prop := (0 <= random)%Q /\ (random < 1)%Q.

End Color.

(** ** JSON serialisation: the fragment of [JSON.stringify] the client uses *)

Module Json.

(** Values the application serialises: strings, plain objects, and
    [undefined] (which a member may hold). *)
Inductive value :=
| Undefined
| Str (s : string)
| Obj (members : list (string * value)).

Definition dquote : ascii := ascii_of_N 34.
Definition backslash : ascii := ascii_of_N 92.

Definition hexDigit (n : N) : ascii :=
  if (n <? 10)%N then ascii_of_N (48 + n) else ascii_of_N (87 + n).

(** One character of a quoted JSON string.  Strings are sequences of
    bytes (the UTF-8 form of the JavaScript string), so bytes from 128 up
    pass through unchanged. *)
Definition escapeChar (c : ascii) : string :=
  let n := N_of_ascii c in
  if (n =? 34)%N then String backslash (String dquote "")
  else if (n =? 92)%N then String backslash (String backslash "")
  else if (n =? 8)%N then String backslash "b"
  else if (n =? 9)%N then String backslash "t"
  else if (n =? 10)%N then String backslash "n"
  else if (n =? 12)%N then String backslash "f"
  else if (n =? 13)%N then String backslash "r"
  else if (n <? 32)%N
  then String backslash
         ("u00" ++ String (hexDigit (n / 16)) (String (hexDigit (n mod 16)) ""))
  else String c "".

Fixpoint escape (s : string) : string :=
  match s with
  | EmptyString => ""
  | String c rest => escapeChar c ++ escape rest
  end.

Definition quote (s : string) : string :=
  String dquote (escape s) ++ String dquote "".

Fixpoint join (sep : string) (parts : list string) : string :=
  match parts with
  | [] => ""
  | [p] => p
  | p :: rest => p ++ sep ++ join sep rest
  end.

(** [JSON.stringify(v)]: [None] is [undefined]; members whose value is
    [undefined] are left out of an object. *)
Fixpoint stringify (v : value) : option string :=
  match v with
  | Undefined => None
  | Str s => Some (quote s)
  | Obj members =>
      let parts :=
        (fix go (ms : list (string * value)) : list string :=
           match ms with
           | [] => []
           | (k, x) :: rest =>
               match stringify x with
               | Some text => (quote k ++ ":" ++ text) :: go rest
               | None => go rest
               end
           end) members in
      Some ("{" ++ join "," parts ++ "}")
  end.

(** A possibly [undefined] string as a value. *)
Definition of_opt (o : option string) : value :=
  match o with
  | Some s => Str s
  | None => Undefined
  end.

End Json.

(** ** The WebSocket object, as far as the client touches it *)

Module Ws.

Inductive ReadyState := CONNECTING | OPEN | CLOSING | CLOSED.

(** [transmitted] is the sequence of text frames handed to the network. *)
Record WebSocket := {
  url : string;
  readyState : ReadyState;
  transmitted : list string
}.

Definition isOpen (ws : WebSocket) : bool :=
  match readyState ws with
  | OPEN => true
  | _ => false
  end.

(** The outcome of a call that may throw. *)
Inductive completion (A : Type) :=
| Normal (a : A)
| Throw (exception : string).
Arguments Normal {A} a.
Arguments Throw {A} exception.

(** [ws.send(data)] as the platform defines it: an exception while the
    socket is still connecting, transmission while open, and silent
    discarding once closing or closed. *)
Definition send (data : string) (ws : WebSocket) : completion WebSocket :=
  match readyState ws with
  | CONNECTING => Throw "InvalidStateError"
  | OPEN =>
      Normal {| url := url ws; readyState := OPEN;
                transmitted := transmitted ws ++ [data] |}
  | CLOSING | CLOSED => Normal ws
  end.

End Ws.

(** ** Image preloader: [preloadImages] and the callbacks it installs *)

Module Preload.

(** The promise created for one frame: nothing has fired yet, [onload]
    has run and the promise returned by [img.decode()] is outstanding, or
    [resolve] has been called. *)
Inductive Slot := Pending | Decoding | Resolved.

#[export] Instance Slot_eq_dec : EqDecision Slot.
Proof. solve_decision. Defined.

(** What can happen after [preloadImages] returned.  Frames are counted
    from 0 here: index [i] is the image with path [(i+1).png]. *)
Inductive Event :=
| OnLoad (i : nat)
| OnError (i : nat)
| DecodeSettled (i : nat) (fulfilled : bool)
| Elapse (ms : N).

Record Loader := {
  imagesPreloaded : bool;
  imagePromises : list Slot;
  cachedImages : list string;
  (** the callback given to [Promise.all(...).then] has run *)
  allSettled : bool;
  (** milliseconds left on the [setTimeout(..., 100)] once scheduled *)
  graceTimer : option N;
  imageCache : list string
}.

Definition FRAME_COUNT : nat := 100.
Definition GRACE_DELAY : N := 100.

Definition src (currentColor : option string) (i : nat) : string :=
  "/images/" ++ Js.to_str currentColor ++ "/" ++ pretty i ++ ".png".

(** The synchronous part of [preloadImages] (App.js, lines 67-104): the
    flag is lowered, and the loop creates the images for [i = 1 .. 100]
    with their promises. *)
Definition preloadImages (currentColor : option string) : Loader :=
  {| imagesPreloaded := false;
     imagePromises := (λ _, Pending) <$> seq 1 FRAME_COUNT;
     cachedImages := src currentColor <$> seq 1 FRAME_COUNT;
     allSettled := false;
     graceTimer := None;
     imageCache := [] |}.

Definition all_resolved (slots : list Slot) : bool :=
  forallb (λ s, bool_decide (s = Resolved)) slots.

(** [resolve()] of promise [i]; when this settles the last promise the
    [then] callback of [Promise.all] runs: it stores the cache and starts
    the grace timer. *)
Definition resolve (i : nat) (st : Loader) : Loader :=
  let slots := <[i := Resolved]> (imagePromises st) in
  if all_resolved slots && negb (allSettled st)
  then {| imagesPreloaded := imagesPreloaded st;
          imagePromises := slots;
          cachedImages := cachedImages st;
          allSettled := true;
          graceTimer := Some GRACE_DELAY;
          imageCache := cachedImages st |}
  else {| imagesPreloaded := imagesPreloaded st;
          imagePromises := slots;
          cachedImages := cachedImages st;
          allSettled := allSettled st;
          graceTimer := graceTimer st;
          imageCache := imageCache st |}.

(** [img.onload]: with [img.decode] available the promise stays open until
    the decode promise settles; an already resolved promise stays so. *)
Definition onload (decodeSupported : bool) (i : nat) (st : Loader) : Loader :=
  if decodeSupported
  then {| imagesPreloaded := imagesPreloaded st;
          imagePromises :=
            match imagePromises st !! i with
            | Some Pending => <[i := Decoding]> (imagePromises st)
            | _ => imagePromises st
            end;
          cachedImages := cachedImages st;
          allSettled := allSettled st;
          graceTimer := graceTimer st;
          imageCache := imageCache st |}
  else resolve i st.

(** The timer callback: [setImagesPreloaded(true)]. *)
Definition elapse (ms : N) (st : Loader) : Loader :=
  match graceTimer st with
  | Some remaining =>
      if (remaining <=? ms)%N
      then {| imagesPreloaded := true;
              imagePromises := imagePromises st;
              cachedImages := cachedImages st;
              allSettled := allSettled st;
              graceTimer := None;
              imageCache := imageCache st |}
      else {| imagesPreloaded := imagesPreloaded st;
              imagePromises := imagePromises st;
              cachedImages := cachedImages st;
              allSettled := allSettled st;
              graceTimer := Some (remaining - ms)%N;
              imageCache := imageCache st |}
  | None => st
  end.

(** [decodeSupported] says whether images have a [decode] method.  Both
    [.then(resolve)] and [.catch(resolve)] end in [resolve]; a decode
    promise settles only if [onload] asked for one. *)
Definition step (decodeSupported : bool) (e : Event) (st : Loader) : Loader :=
  match e with
  | OnLoad i => onload decodeSupported i st
  | OnError i => resolve i st
  | DecodeSettled i _ =>
      match imagePromises st !! i with
      | Some Decoding => resolve i st
      | _ => st
      end
  | Elapse ms => elapse ms st
  end.

Definition run (decodeSupported : bool) (events : list Event) (st : Loader) : Loader :=
  foldl (λ acc e, step decodeSupported e acc) st events.

(** Milliseconds that pass during a sequence of events. *)
Fixpoint elapsed (events : list Event) : N :=
  match events with
  | [] => 0
  | Elapse ms :: rest => ms + elapsed rest
  | _ :: rest => elapsed rest
  end.

(** The three ways the load of one frame can end. *)
Inductive Outcome := Success | LoadFailure | DecodeFailure.

(** The events by which frame [i] reaches its outcome.  Without a
    [decode] method there is no decode step that could fail. *)
Definition outcome_events (decodeSupported : bool) (i : nat) (o : Outcome)
    : list Event :=
  match o with
  | LoadFailure => [OnError i]
  | Success =>
      if decodeSupported then [OnLoad i; DecodeSettled i true] else [OnLoad i]
  | DecodeFailure =>
      if decodeSupported then [OnLoad i; DecodeSettled i false] else [OnLoad i]
  end.

(** The frames reach their outcomes in the order [order] gives. *)
Definition deliver (decodeSupported : bool) (outcomes : list Outcome)
    (order : list nat) : list Event :=
  i ← order;
  match outcomes !! i with
  | Some o => outcome_events decodeSupported i o
  | None => []
  end.

(** *** Notions used to state the preloader's properties *)

(** All promises are resolved. *)
Definition settled (st : Loader) : Prop :=
  all_resolved (imagePromises st) = true.

(** What holds of every state the preloader can be in. *)
Record Inv (st : Loader) : Prop := {
  inv_settled : allSettled st = true <-> settled st;
  inv_timer :
    match graceTimer st with
    | Some remaining =>
        allSettled st = true /\ imagesPreloaded st = false
        /\ (0 < remaining <= GRACE_DELAY)%N
    | None => imagesPreloaded st = allSettled st
    end
}.

(** Every frame reaches its outcome during [events]: the events of its
    outcome occur there in their order, possibly with events of other
    frames and the passing of time in between. *)
Definition delivered (decodeSupported : bool) (outcomes : list Outcome)
    (events : list Event) : Prop :=
  forall i o, outcomes !! i = Some o ->
    outcome_events decodeSupported i o `sublist_of` events.

(** The promise of frame [i] exists and [onload] or [onerror] has fired. *)
Definition started (st : Loader) (i : nat) : Prop :=
  exists slot, imagePromises st !! i = Some slot /\ slot <> Pending.

(** 99 frames fail to load and the last one fails to decode. *)
Definition mostly_failing : list Outcome :=
  replicate 99 LoadFailure ++ [DecodeFailure].

End Preload.

(** ** The component: React state, refs, and the event handlers *)

Module App.

Inductive Stage := form | folding | floating | sent.

#[export] Instance Stage_eq_dec : EqDecision Stage.
Proof. solve_decision. Defined.

Record FormData := {
  name : string;
  email : string;
  message : string
}.

(** The inline style of the element behind [backgroundRef]. *)
Record Style := {
  willChange : string;
  backgroundImage : string
}.

(** A pending [setTimeout] of [handleSwipeUp]: the delay in milliseconds
    and the [currentColor] its callback closed over. *)
Record Scheduled := {
  delay : N;
  closureColor : option string
}.

(** [frameRequested] holds while a callback registered with
    [requestAnimationFrame] is outstanding.  [currentColor] is [None] when
    the state cell holds [undefined]. *)
Record State := {
  formData : FormData;
  stage : Stage;
  currentImage : Z;
  currentColor : option string;
  touchStart : option Q;
  imagesPreloaded : bool;
  wsRef : option Ws.WebSocket;
  frameRequested : bool;
  startTimeRef : option Q;
  backgroundRef : option Style;
  currentFrameRef : Z;
  localStorage : gmap string string;
  timeouts : list Scheduled
}.

Definition set_formData (v : FormData) (st : State) : State :=
  {| formData := v; stage := stage st; currentImage := currentImage st;
     currentColor := currentColor st; touchStart := touchStart st;
     imagesPreloaded := imagesPreloaded st; wsRef := wsRef st;
     frameRequested := frameRequested st; startTimeRef := startTimeRef st;
     backgroundRef := backgroundRef st; currentFrameRef := currentFrameRef st;
     localStorage := localStorage st; timeouts := timeouts st |}.

Definition set_stage (v : Stage) (st : State) : State :=
  {| formData := formData st; stage := v; currentImage := currentImage st;
     currentColor := currentColor st; touchStart := touchStart st;
     imagesPreloaded := imagesPreloaded st; wsRef := wsRef st;
     frameRequested := frameRequested st; startTimeRef := startTimeRef st;
     backgroundRef := backgroundRef st; currentFrameRef := currentFrameRef st;
     localStorage := localStorage st; timeouts := timeouts st |}.

Definition set_currentImage (v : Z) (st : State) : State :=
  {| formData := formData st; stage := stage st; currentImage := v;
     currentColor := currentColor st; touchStart := touchStart st;
     imagesPreloaded := imagesPreloaded st; wsRef := wsRef st;
     frameRequested := frameRequested st; startTimeRef := startTimeRef st;
     backgroundRef := backgroundRef st; currentFrameRef := currentFrameRef st;
     localStorage := localStorage st; timeouts := timeouts st |}.

Definition set_currentColor (v : option string) (st : State) : State :=
  {| formData := formData st; stage := stage st; currentImage := currentImage st;
     currentColor := v; touchStart := touchStart st;
     imagesPreloaded := imagesPreloaded st; wsRef := wsRef st;
     frameRequested := frameRequested st; startTimeRef := startTimeRef st;
     backgroundRef := backgroundRef st; currentFrameRef := currentFrameRef st;
     localStorage := localStorage st; timeouts := timeouts st |}.

Definition set_touchStart (v : option Q) (st : State) : State :=
  {| formData := formData st; stage := stage st; currentImage := currentImage st;
     currentColor := currentColor st; touchStart := v;
     imagesPreloaded := imagesPreloaded st; wsRef := wsRef st;
     frameRequested := frameRequested st; startTimeRef := startTimeRef st;
     backgroundRef := backgroundRef st; currentFrameRef := currentFrameRef st;
     localStorage := localStorage st; timeouts := timeouts st |}.

Definition set_wsRef (v : option Ws.WebSocket) (st : State) : State :=
  {| formData := formData st; stage := stage st; currentImage := currentImage st;
     currentColor := currentColor st; touchStart := touchStart st;
     imagesPreloaded := imagesPreloaded st; wsRef := v;
     frameRequested := frameRequested st; startTimeRef := startTimeRef st;
     backgroundRef := backgroundRef st; currentFrameRef := currentFrameRef st;
     localStorage := localStorage st; timeouts := timeouts st |}.

Definition set_frameRequested (v : bool) (st : State) : State :=
  {| formData := formData st; stage := stage st; currentImage := currentImage st;
     currentColor := currentColor st; touchStart := touchStart st;
     imagesPreloaded := imagesPreloaded st; wsRef := wsRef st; frameRequested := v;
     startTimeRef := startTimeRef st; backgroundRef := backgroundRef st;
     currentFrameRef := currentFrameRef st; localStorage := localStorage st;
     timeouts := timeouts st |}.

Definition set_startTimeRef (v : option Q) (st : State) : State :=
  {| formData := formData st; stage := stage st; currentImage := currentImage st;
     currentColor := currentColor st; touchStart := touchStart st;
     imagesPreloaded := imagesPreloaded st; wsRef := wsRef st;
     frameRequested := frameRequested st; startTimeRef := v;
     backgroundRef := backgroundRef st; currentFrameRef := currentFrameRef st;
     localStorage := localStorage st; timeouts := timeouts st |}.

Definition set_backgroundRef (v : option Style) (st : State) : State :=
  {| formData := formData st; stage := stage st; currentImage := currentImage st;
     currentColor := currentColor st; touchStart := touchStart st;
     imagesPreloaded := imagesPreloaded st; wsRef := wsRef st;
     frameRequested := frameRequested st; startTimeRef := startTimeRef st;
     backgroundRef := v; currentFrameRef := currentFrameRef st;
     localStorage := localStorage st; timeouts := timeouts st |}.

Definition set_currentFrameRef (v : Z) (st : State) : State :=
  {| formData := formData st; stage := stage st; currentImage := currentImage st;
     currentColor := currentColor st; touchStart := touchStart st;
     imagesPreloaded := imagesPreloaded st; wsRef := wsRef st;
     frameRequested := frameRequested st; startTimeRef := startTimeRef st;
     backgroundRef := backgroundRef st; currentFrameRef := v;
     localStorage := localStorage st; timeouts := timeouts st |}.

Definition set_localStorage (v : gmap string string) (st : State) : State :=
  {| formData := formData st; stage := stage st; currentImage := currentImage st;
     currentColor := currentColor st; touchStart := touchStart st;
     imagesPreloaded := imagesPreloaded st; wsRef := wsRef st;
     frameRequested := frameRequested st; startTimeRef := startTimeRef st;
     backgroundRef := backgroundRef st; currentFrameRef := currentFrameRef st;
     localStorage := v; timeouts := timeouts st |}.

Definition set_timeouts (v : list Scheduled) (st : State) : State :=
  {| formData := formData st; stage := stage st; currentImage := currentImage st;
     currentColor := currentColor st; touchStart := touchStart st;
     imagesPreloaded := imagesPreloaded st; wsRef := wsRef st;
     frameRequested := frameRequested st; startTimeRef := startTimeRef st;
     backgroundRef := backgroundRef st; currentFrameRef := currentFrameRef st;
     localStorage := localStorage st; timeouts := v |}.

(** *** Animation engine *)

Definition ANIMATION_DURATION : Q := 5000.
Definition TOTAL_FRAMES : Q := 99.

Definition progress (elapsed : Q) : Q := Qmin (elapsed / ANIMATION_DURATION)%Q 1%Q.

Definition frameNumber (elapsed : Q) : Z :=
  (Qfloor (progress elapsed * TOTAL_FRAMES)%Q + 1)%Z.

Definition frameUrl (color : option string) (frame : Z) : string :=
  "url('/images/" ++ Js.to_str color ++ "/" ++ pretty frame ++ ".png')".

(** [startTimeRef.current] after [if (!startTimeRef.current) ...]: both
    [null] and [0] are falsy. *)
Definition startTime (timestamp : Q) (st : State) : Q :=
  match startTimeRef st with
  | Some s => if Qeq_bool s 0 then timestamp else s
  | None => timestamp
  end.

Definition clearWillChange (st : State) : State :=
  match backgroundRef st with
  | Some style =>
      set_backgroundRef
        (Some {| willChange := "auto"; backgroundImage := backgroundImage style |}) st
  | None => st
  end.

(** One invocation of the frame callback [animate] (App.js, lines 155-188).
    The callback being run is no longer outstanding; it is requested again
    while [progress < 1]. *)
Definition animate (timestamp : Q) (st : State) : State :=
  let start := startTime timestamp st in
  let st1 := set_startTimeRef (Some start) st in
  let elapsed := (timestamp - start)%Q in
  let frameNumber := frameNumber elapsed in
  let st2 :=
    match backgroundRef st1 with
    | Some style =>
        if negb (frameNumber =? currentFrameRef st1)%Z
        then
          set_backgroundRef
            (Some {| willChange :=
                       if (frameNumber =? 1)%Z then "background-image"
                       else willChange style;
                     backgroundImage := frameUrl (currentColor st1) frameNumber |})
            (set_currentFrameRef frameNumber st1)
        else st1
    | None => st1
    end in
  if Js.ltb (progress elapsed) 1%Q
  then set_frameRequested true st2
  else
    set_stage floating
      (set_currentImage 100 (clearWillChange (set_frameRequested false st2))).

(** The effect that starts a run when the stage becomes [folding] (App.js,
    lines 143-201, without the callback). *)
Definition animationEffect (st : State) : State :=
  if bool_decide (stage st = folding) && bool_decide (is_Some (backgroundRef st))
     && imagesPreloaded st
  then set_frameRequested true (set_currentFrameRef 1 (set_startTimeRef None st))
  else st.

(** The frame shown after each callback of a run. *)
Fixpoint frames (timestamps : list Q) (st : State) : list Z :=
  match timestamps with
  | [] => []
  | t :: rest => currentFrameRef (animate t st) :: frames rest (animate t st)
  end.

(** *** Form submission: [handleSubmit] (App.js, lines 203-213) *)

Definition handleSubmit (st : State) : State :=
  if Js.truthy (name (formData st)) && Js.truthy (email (formData st))
     && Js.truthy (message (formData st))
  then
    if negb (imagesPreloaded st) then st
    else set_currentImage 1 (set_stage folding st)
  else st.

(** *** Swipe commit: [handleSwipeUp] (App.js, lines 233-257) *)

Definition feedbackMessage (fd : FormData) (color : option string) : Json.value :=
  Json.Obj
    [("type", Json.Str "new_feedback");
     ("feedback",
      Json.Obj
        [("name", Json.Str (name fd));
         ("email", Json.Str (email fd));
         ("message", Json.Str (message fd));
         ("color", Json.of_opt color)])].

Definition RESET_DELAY : N := 2000.

Definition handleSwipeUp (st : State) : Ws.completion State :=
  let sending :=
    match wsRef st with
    | Some ws =>
        if Ws.isOpen ws
        then
          match Ws.send (Js.to_str (Json.stringify
                           (feedbackMessage (formData st) (currentColor st)))) ws with
          | Ws.Normal ws' => Ws.Normal (set_wsRef (Some ws') st)
          | Ws.Throw e => Ws.Throw e
          end
        else Ws.Normal st
    | None => Ws.Normal st
    end in
  match sending with
  | Ws.Normal st' =>
      Ws.Normal
        (set_timeouts
           (timeouts st' ++ [{| delay := RESET_DELAY; closureColor := currentColor st |}])
           (set_stage sent st'))
  | Ws.Throw e => Ws.Throw e
  end.

(** The callback of the reset timer; [random] is what [Math.random()]
    returns inside [getNextColor]. *)
Definition resetCallback (t : Scheduled) (random : Q) (st : State) : State :=
  let next := Color.getNextColor (closureColor t) random (localStorage st) in
  set_touchStart None
    (set_localStorage (snd next)
       (set_currentColor (fst next)
          (set_currentImage 0
             (set_stage form
                (set_formData {| name := ""; email := ""; message := "" |} st))))).

(** *** Gesture detector: [handleTouchStart] and [handleTouchMove] (App.js,
    lines 215-231); [clientY] is [e.touches[0].clientY] *)

Definition handleTouchStart (clientY : Q) (st : State) : State :=
  if bool_decide (stage st = floating)
  then set_touchStart (Some clientY) st
  else st.

Definition SWIPE_THRESHOLD : Q := 100.

Definition handleTouchMove (clientY : Q) (st : State) : Ws.completion State :=
  match touchStart st with
  | Some start =>
      if bool_decide (stage st = floating)
      then
        let touchEnd := clientY in
        let diff := (start - touchEnd)%Q in
        if Js.ltb SWIPE_THRESHOLD diff then handleSwipeUp st else Ws.Normal st
      else Ws.Normal st
  | None => Ws.Normal st
  end.

(** *** Notions and sample states used to state the controller's properties *)

(** All three fields filled in and the preloader has signalled ready. *)
Definition acceptable (st : State) : Prop :=
  name (formData st) <> "" /\ email (formData st) <> ""
  /\ message (formData st) <> "" /\ imagesPreloaded st = true.

#[export] Instance acceptable_dec (st : State) : Decision (acceptable st).
Proof. unfold acceptable. apply _. Defined.

(** A state of the component with the given form data, readiness flag,
    socket, stage and theme, and nothing else going on. *)
Definition idle (fd : FormData) (ready : bool) (ws : option Ws.WebSocket)
    (st : Stage) (color : option string) : State :=
  {| formData := fd; stage := st; currentImage := 0; currentColor := color;
     touchStart := None; imagesPreloaded := ready; wsRef := ws;
     frameRequested := false; startTimeRef := None;
     backgroundRef := Some {| willChange := "auto"; backgroundImage := "" |};
     currentFrameRef := 1;
     localStorage := {[ Color.lastFeedbackColor := Js.to_str color ]};
     timeouts := [] |}.

(** The form data of the worked example, and a variant without email. *)
Definition ada : FormData :=
  {| name := "Ada"; email := "ada@example.com"; message := "Great demo" |}.

Definition no_email : FormData :=
  {| name := "Ada"; email := ""; message := "Great demo" |}.

(** There is a socket and it is open. *)
Definition connectionOpen (st : State) : Prop :=
  exists ws, wsRef st = Some ws /\ Ws.readyState ws = Ws.OPEN.

(** The timer the commit schedules: 2000 ms, closing over the theme. *)
Definition resetTimeout (st : State) : Scheduled :=
  {| delay := 2000; closureColor := currentColor st |}.

(** The state after the commit apart from the socket. *)
Definition committed (st : State) : State :=
  set_timeouts (timeouts st ++ [resetTimeout st]) (set_stage sent st).

(** The object of the wire protocol, written out member by member. *)
Definition new_feedback (n e m c : string) : Json.value :=
  Json.Obj
    [("type", Json.Str "new_feedback");
     ("feedback",
      Json.Obj [("name", Json.Str n); ("email", Json.Str e);
                ("message", Json.Str m); ("color", Json.Str c)])].

(** An open and a closed socket with nothing transmitted yet. *)
Definition collector : Ws.WebSocket :=
  {| Ws.url := "ws://localhost:3001"; Ws.readyState := Ws.OPEN;
     Ws.transmitted := [] |}.

(** A member [key:value] with both sides quoted and nothing escaped. *)
Definition member (key text : string) : string :=
  String Json.dquote key ++ String Json.dquote ":"
  ++ String Json.dquote text ++ String Json.dquote "".

(** The text frame of the worked example. *)
Definition ada_frame : string :=
  "{" ++ member "type" "new_feedback" ++ ","
  ++ String Json.dquote "feedback" ++ String Json.dquote ":"
  ++ "{" ++ member "name" "Ada" ++ "," ++ member "email" "ada@example.com" ++ ","
  ++ member "message" "Great demo" ++ "," ++ member "color" "green" ++ "}}".

Definition closed_collector : Ws.WebSocket :=
  {| Ws.url := "ws://localhost:3001"; Ws.readyState := Ws.CLOSED;
     Ws.transmitted := [] |}.

(** The sample state in stage [s] with a touch reference recorded. *)
Definition touching (s : Stage) (start : Q) : State :=
  set_touchStart (Some start) (idle ada true (Some collector) s (Some "green")).

(** The sample state right after a valid submit, with the run started. *)
Definition playing : State :=
  animationEffect (handleSubmit (idle ada true None form (Some "green"))).

End App.

(** ** What the component renders, and the inline handlers of the form
    (App.js, lines 259-339) *)

Module Render.

Import App.

(** [getBackgroundImage] (App.js, lines 259-266).  The last branch is
    kept as in the source although the four stages leave nothing for it. *)
Definition getBackgroundImage (st : State) : string :=
  if bool_decide (stage st = form)
  then "url('/images/" ++ Js.to_str (currentColor st) ++ "/1.png')"
  else if bool_decide (stage st = folding) || bool_decide (stage st = floating)
          || bool_decide (stage st = sent)
  then "url('/images/" ++ Js.to_str (currentColor st) ++ "/"
       ++ pretty (currentImage st) ++ ".png')"
  else "none".

(** The [className] of the background element (line 276). *)
Definition backgroundClassName (st : State) : string :=
  "background " ++ (if bool_decide (stage st = floating) then "floating" else "")
  ++ " " ++ (if bool_decide (stage st = sent) then "swipe-up" else "").

(** The form container (lines 282-324): rendered in stage [form] only; the
    result is its [className]. *)
Definition formContainer (st : State) : option string :=
  if bool_decide (stage st = form)
  then Some ("form-container "
             ++ (if bool_decide (stage st = folding) then "fade-out" else ""))
  else None.

(** The submit button (lines 319-321). *)
Definition submitDisabled (st : State) : bool := negb (imagesPreloaded st).

Definition submitLabel (st : State) : string :=
  if imagesPreloaded st then "Send Feedback" else "Loading Images...".

(** The two overlays (lines 326-337). *)
Definition swipeInstructionShown (st : State) : bool :=
  bool_decide (stage st = floating).

Definition thankYouShown (st : State) : bool := bool_decide (stage st = sent).

(** The three inputs of the form. *)
Inductive Field := Name | Email | Message.

(** Their [onChange] handlers (lines 291, 302, 312):
    [setFormData({ ...formData, field: e.target.value })]. *)
Definition handleChange (field : Field) (value : string) (st : State) : State :=
  set_formData
    match field with
    | Name => {| name := value; email := email (formData st);
                 message := message (formData st) |}
    | Email => {| name := name (formData st); email := value;
                  message := message (formData st) |}
    | Message => {| name := name (formData st); email := email (formData st);
                    message := value |}
    end st.

(** *** Notions used to state the properties of the form *)

#[export] Instance Field_eq_dec : EqDecision Field.
Proof. solve_decision. Defined.

Definition field_value (field : Field) (fd : FormData) : string :=
  match field with
  | Name => name fd
  | Email => email fd
  | Message => message fd
  end.

(** A sequence of edits, each the field and the value its input then holds. *)
Definition typing (edits : list (Field * string)) (st : State) : State :=
  foldl (fun acc edit => handleChange (fst edit) (snd edit) acc) st edits.

(** The value a field holds after the edits: the last one typed into it, or
    the initial one if it was not edited. *)
Fixpoint typed (field : Field) (edits : list (Field * string)) (initial : string)
    : string :=
  match edits with
  | [] => initial
  | (f, value) :: rest =>
      typed field rest (if decide (f = field) then value else initial)
  end.

End Render.

(** ** The WebSocket connector effect (App.js, lines 114-141) *)

Module Connector.

Import App.

Definition registerMessage : Json.value :=
  Json.Obj [("type", Json.Str "register"); ("clientType", Json.Str "tablet")].

(** [new WebSocket(url)]. *)
Definition newWebSocket (url : string) : Ws.WebSocket :=
  {| Ws.url := url; Ws.readyState := Ws.CONNECTING; Ws.transmitted := [] |}.

(** [ws.close()] as the platform defines it: the closing handshake starts
    unless the socket is closing or closed already. *)
Definition close (ws : Ws.WebSocket) : Ws.WebSocket :=
  match Ws.readyState ws with
  | Ws.CONNECTING | Ws.OPEN =>
      {| Ws.url := Ws.url ws; Ws.readyState := Ws.CLOSING;
         Ws.transmitted := Ws.transmitted ws |}
  | Ws.CLOSING | Ws.CLOSED => ws
  end.

(** [ws.onopen] (lines 118-124). *)
Definition onopen (ws : Ws.WebSocket) : Ws.completion Ws.WebSocket :=
  Ws.send (Js.to_str (Json.stringify registerMessage)) ws.

(** The body of the effect: the socket is created and kept in [wsRef]. *)
Definition connectEffect (url : string) (st : State) : State :=
  set_wsRef (Some (newWebSocket url)) st.

(** The cleanup of the effect (lines 136-140); its [ws] is the socket the
    body stored. *)
Definition disconnect (st : State) : State :=
  match wsRef st with
  | Some ws => if Ws.isOpen ws then set_wsRef (Some (close ws)) st else st
  | None => st
  end.

(** The platform reporting that the connection is established: a socket
    that was connecting becomes open and [onopen] runs. *)
Definition opened (ws : Ws.WebSocket) : Ws.completion Ws.WebSocket :=
  match Ws.readyState ws with
  | Ws.CONNECTING =>
      onopen {| Ws.url := Ws.url ws; Ws.readyState := Ws.OPEN;
                Ws.transmitted := Ws.transmitted ws |}
  | _ => Ws.Normal ws
  end.

(** The platform reporting that the connection is gone; [onclose] and
    [onerror] only log. *)
Definition closed (ws : Ws.WebSocket) : Ws.WebSocket :=
  {| Ws.url := Ws.url ws; Ws.readyState := Ws.CLOSED;
     Ws.transmitted := Ws.transmitted ws |}.

(** *** Notions used to state the connector's properties *)

(** The text of the registration frame. *)
Definition registerFrame : string := Js.to_str (Json.stringify registerMessage).

(** The text of the feedback frame for a form and a theme. *)
Definition feedbackFrame (fd : FormData) (color : option string) : string :=
  Js.to_str (Json.stringify (feedbackMessage fd color)).

(** Commits of the given forms one after the other, each from a state in
    stage [floating] showing that form; the result is the last state. *)
Fixpoint commits (forms : list FormData) (st : State) : Ws.completion State :=
  match forms with
  | [] => Ws.Normal st
  | fd :: rest =>
      match handleSwipeUp (set_stage floating (set_formData fd st)) with
      | Ws.Normal st' => commits rest st'
      | Ws.Throw e => Ws.Throw e
      end
  end.

End Connector.

(** ** A run of the animation: the callbacks in the order the platform
    makes them *)

Module Run.

Import App.

(** The callbacks with the given timestamps, each made only if the one
    before it asked for another frame (line 179). *)
Fixpoint callbacks (timestamps : list Q) (st : State) : State :=
  match timestamps with
  | [] => st
  | t :: rest => if frameRequested st then callbacks rest (animate t st) else st
  end.

(** The [will-change] style of the background element. *)
Definition hint (st : State) : option string := willChange <$> backgroundRef st.

End Run.

(** ** The image cache of the preloader *)

Module Cache.

(** The 100 paths the preloader requests for a theme. *)
Definition framePaths (color : option string) : list string :=
  Preload.src color <$> seq 1 Preload.FRAME_COUNT.

(** The cache is empty until the then-callback ran and holds the images
    created by [preloadImages] from then on. *)
Definition cache_kept (l : Preload.Loader) : Prop :=
  Preload.imageCache l
  = if Preload.allSettled l then Preload.cachedImages l else [].

(** A preload with nothing outstanding. *)
Definition quiescent (l : Preload.Loader) : Prop :=
  Preload.imagesPreloaded l = true /\ Preload.allSettled l = true
  /\ Preload.graceTimer l = None /\ Preload.settled l.

(** Callbacks that can still arrive for a preload and bring it to its
    end: an error for every image nothing has fired for, the settling of
    every outstanding decode, and the grace delay. *)
Definition closing (slots : list Preload.Slot) (order : list nat)
    : list Preload.Event :=
  i ← order;
  match slots !! i with
  | Some Preload.Pending => [Preload.OnError i]
  | Some Preload.Decoding => [Preload.DecodeSettled i true]
  | _ => []
  end.

Definition outstanding (l : Preload.Loader) : list Preload.Event :=
  (closing (Preload.imagePromises l) (seq 0 (length (Preload.imagePromises l)))
   ++ [Preload.Elapse Preload.GRACE_DELAY])%list.

End Cache.

(** ** The running component: handlers, effects and callbacks composed

    The component when every event is handled after the render of the
    previous one: after each event the component re-renders and the effects
    whose dependencies changed run, so that the next handler reads the
    committed state.  Timing is left open: the reset timer may fire at any
    moment after it was scheduled, images may load, fail and decode in any
    order, and animation callbacks may carry any timestamp.  Nothing but the
    component writes [localStorage].  What the component does when a render
    is deferred, and the callbacks of the preloads of earlier themes, are
    added in [Deferred] below. *)

Module Kiosk.

Import App.

Definition set_imagesPreloaded (v : bool) (st : State) : State :=
  {| formData := formData st; stage := stage st; currentImage := currentImage st;
     currentColor := currentColor st; touchStart := touchStart st;
     imagesPreloaded := v; wsRef := wsRef st;
     frameRequested := frameRequested st; startTimeRef := startTimeRef st;
     backgroundRef := backgroundRef st; currentFrameRef := currentFrameRef st;
     localStorage := localStorage st; timeouts := timeouts st |}.

(** The condition under which the animation effect starts a run and
    returns a cleanup (App.js, line 144). *)
Definition animationActive (st : State) : bool :=
  bool_decide (stage st = folding) && bool_decide (is_Some (backgroundRef st))
  && imagesPreloaded st.

(** The cleanup of the animation effect (lines 192-199):
    [cancelAnimationFrame] and the hint is taken back. *)
Definition animationCleanup (st : State) : State :=
  clearWillChange (set_frameRequested false st).

(** The dependencies [stage, currentColor, imagesPreloaded] (line 201). *)
Definition animationDepsChanged (rendered next : State) : bool :=
  negb (bool_decide (stage rendered = stage next)
        && bool_decide (currentColor rendered = currentColor next)
        && Bool.eqb (imagesPreloaded rendered) (imagesPreloaded next)).

(** After a render: when a dependency changed, the cleanup of the previous
    run of the effect (if it returned one) and then the effect again. *)
Definition flushAnimation (rendered next : State) : State :=
  if animationDepsChanged rendered next
  then animationEffect
         (if animationActive rendered then animationCleanup next else next)
  else next.

(** The component with the preload in progress for its theme. *)
Record System := {
  app : State;
  loader : Preload.Loader
}.

Definition with_app (st : State) (s : System) : System :=
  {| app := st; loader := loader s |}.

Inductive Input :=
| Change (field : Render.Field) (value : string)
| Submit
| Frame (timestamp : Q)
| TouchStart (clientY : Q)
| TouchMove (clientY : Q)
| Timer (random : Q)
| Image (e : Preload.Event)
| SocketOpen
| SocketClose.

(** The first render and the effects after it (lines 48-63, 65-141):
    [random] is drawn by the initial [getNextColor()]. *)
Definition mount (url : string) (random : Q) (localStorage : gmap string string)
    : System :=
  let next := Color.getNextColor None random localStorage in
  let st :=
    {| formData := {| name := ""; email := ""; message := "" |};
       stage := form;
       currentImage := 0;
       currentColor := fst next;
       touchStart := None;
       imagesPreloaded := false;
       wsRef := None;
       frameRequested := false;
       startTimeRef := None;
       backgroundRef :=
         Some {| willChange := ""; backgroundImage := frameUrl (fst next) 1 |};
       currentFrameRef := 1;
       localStorage := snd next;
       timeouts := [] |} in
  {| app := Connector.connectEffect url st;
     loader := Preload.preloadImages (fst next) |}.

(** The preload effect after a render in which [currentColor] changed
    (lines 65-112): the flag goes down and the images of the new theme are
    requested; the animation effect sees the change of the flag. *)
Definition restartPreload (rendered : State) (s : System) : System :=
  if bool_decide (currentColor (app s) = currentColor rendered) then s
  else
    {| app := flushAnimation (app s) (set_imagesPreloaded false (app s));
       loader := Preload.preloadImages (currentColor (app s)) |}.

(** The form exists only in stage [form]; an animation callback runs only
    if one was requested; the timer callback runs only for a pending timer;
    the timer callback of the preloader is the only one that raises the
    flag. *)
Definition dispatch (decodeSupported : bool) (e : Input) (s : System) : System :=
  let st := app s in
  match e with
  | Change field value =>
      if bool_decide (stage st = form)
      then with_app (Render.handleChange field value st) s
      else s
  | Submit =>
      if bool_decide (stage st = form)
      then with_app (flushAnimation st (handleSubmit st)) s
      else s
  | Frame timestamp =>
      if frameRequested st
      then with_app (flushAnimation st (animate timestamp st)) s
      else s
  | TouchStart clientY => with_app (handleTouchStart clientY st) s
  | TouchMove clientY =>
      match handleTouchMove clientY st with
      | Ws.Normal st' => with_app (flushAnimation st st') s
      | Ws.Throw _ => s
      end
  | Timer random =>
      match timeouts st with
      | t :: rest =>
          let st' := resetCallback t random (set_timeouts rest st) in
          restartPreload st (with_app (flushAnimation st st') s)
      | [] => s
      end
  | Image ev =>
      let l := Preload.step decodeSupported ev (loader s) in
      let st' :=
        if negb (Preload.imagesPreloaded (loader s)) && Preload.imagesPreloaded l
        then set_imagesPreloaded true st
        else st in
      {| app := flushAnimation st st'; loader := l |}
  | SocketOpen =>
      match wsRef st with
      | Some ws =>
          match Connector.opened ws with
          | Ws.Normal ws' => with_app (set_wsRef (Some ws') st) s
          | Ws.Throw _ => s
          end
      | None => s
      end
  | SocketClose =>
      match wsRef st with
      | Some ws => with_app (set_wsRef (Some (Connector.closed ws)) st) s
      | None => s
      end
  end.

Definition dispatchAll (decodeSupported : bool) (events : list Input)
    (s : System) : System :=
  foldl (fun acc e => dispatch decodeSupported e acc) s events.

(** *** Notions used to state the system's properties *)

(** The random numbers are what [Math.random()] can return. *)
Definition valid (e : Input) : Prop :=
  match e with
  | Timer random => Color.unit_interval random
  | _ => True
  end.

(** The stage after the given one in the cycle. *)
Definition next_stage (g : Stage) : Stage :=
  match g with
  | form => folding
  | folding => floating
  | floating => sent
  | sent => form
  end.

(** The one event that can leave a stage. *)
Definition leaves (g : Stage) (e : Input) : Prop :=
  match g, e with
  | form, Submit => True
  | folding, Frame _ => True
  | floating, TouchMove _ => True
  | sent, Timer _ => True
  | _, _ => False
  end.

(** The states the component reaches from its first render. *)
Definition reached (decodeSupported : bool) (url : string) (random : Q)
    (localStorage : gmap string string) (events : list Input) : System :=
  dispatchAll decodeSupported events (mount url random localStorage).

(** What holds of every state the running component can be in. *)
Record Consistent (s : System) : Prop := {
  sys_flag : imagesPreloaded (app s) = Preload.imagesPreloaded (loader s);
  sys_loader : Preload.Inv (loader s);
  sys_cache : Cache.cache_kept (loader s);
  sys_paths : Preload.cachedImages (loader s) = Cache.framePaths (currentColor (app s));
  sys_ready : stage (app s) <> form -> imagesPreloaded (app s) = true;
  sys_frame : frameRequested (app s) = true -> stage (app s) = folding;
  sys_timer :
    match timeouts (app s) with
    | [] => stage (app s) <> sent
    | [t] => stage (app s) = sent
    | _ => False
    end;
  sys_color :
    exists c, currentColor (app s) = Some c
              /\ localStorage (app s) !! Color.lastFeedbackColor = Some c
              /\ c ∈ Color.COLORS;
  sys_background : is_Some (backgroundRef (app s));
  sys_socket :
    exists ws, wsRef (app s) = Some ws
      /\ (Ws.readyState ws = Ws.CONNECTING -> Ws.transmitted ws = [])
      /\ (Ws.transmitted ws = []
          \/ exists rest, Ws.transmitted ws = Connector.registerFrame :: rest)
      /\ (Ws.readyState ws = Ws.OPEN -> Ws.transmitted ws <> [])
}.

(** A form with its three fields filled in. *)
Definition filled (fd : FormData) : Prop :=
  name fd <> "" /\ email fd <> "" /\ message fd <> "".

(** A feedback frame of a filled-in form and one of the six themes. *)
Definition complete_feedback (frame : string) : Prop :=
  exists fd c,
    frame = Connector.feedbackFrame fd (Some c) /\ filled fd /\ c ∈ Color.COLORS.

(** What a socket may have transmitted: nothing, or the registration frame
    and then complete feedback frames only. *)
Definition traffic (transmitted : list string) : Prop :=
  transmitted = []
  \/ exists rest,
       transmitted = Connector.registerFrame :: rest
       /\ Forall complete_feedback rest.

(** Sample events: every image of the theme loads and decodes and the
    grace delay passes; the socket opens; a visitor fills in the form,
    submits, watches the animation and swipes up. *)
Definition loading : list Input :=
  Image <$> (Preload.deliver true (replicate 100 Preload.Success) (seq 0 100)
             ++ [Preload.Elapse 100])%list.

Definition visit : list Input :=
  (loading
   ++ [SocketOpen; Change Render.Name "Ada"; Change Render.Email "ada@example.com";
       Change Render.Message "Great demo"; Submit; Frame 1000; Frame 6000;
       TouchStart 500; TouchMove 399])%list.

End Kiosk.

(** ** The component with deferred renders and superseded preloads

    Two things the component can do lie outside [Kiosk].

    React renders the updates of a touchmove handler later, so that a second
    touchmove can be handled by the same handler.  That handler still reads
    the [stage], [touchStart], [formData] and [currentColor] of its render
    (lines 221-245), although [setStage('sent')] is queued already; the
    socket and the timers are reached through a ref and the platform and are
    read as they are.

    The cleanup of the preload effect (lines 109-111) empties the cache but
    cancels neither the promises nor the timer of the preload it leaves
    behind: when these resolve or fire they still run lines 96 and 100, and
    write [imageCache.current] and call [setImagesPreloaded(true)].  Such a
    preload belongs to an earlier theme. *)

Module Deferred.

Import App.

(** [sys]: the component as in [Kiosk], its state cells holding the queued
    updates; [superseded]: the preloads of earlier themes, latest first;
    [closure]: after a touchmove, the state the render of its handler had
    captured, for as long as that handler stays attached. *)
Record World := {
  sys : Kiosk.System;
  superseded : list Preload.Loader;
  closure : option State
}.

(** [Prompt e]: the pending render is done, then [e] is handled as in
    [Kiosk].  [StaleTouchMove]: a touchmove delivered before the re-render
    that follows the previous touchmove.  [Late k e]: a callback of the
    superseded preload number [k]. *)
Inductive Event :=
| Prompt (e : Kiosk.Input)
| StaleTouchMove (clientY : Q)
| Late (k : nat) (e : Preload.Event).

(** What a handler of the render [closure] reads: the state cells as the
    render captured them, the refs, the storage and the timers as they
    are. *)
Definition seen (closure latest : State) : State :=
  {| formData := formData closure; stage := stage closure;
     currentImage := currentImage closure; currentColor := currentColor closure;
     touchStart := touchStart closure; imagesPreloaded := imagesPreloaded closure;
     wsRef := wsRef latest; frameRequested := frameRequested latest;
     startTimeRef := startTimeRef latest; backgroundRef := backgroundRef latest;
     currentFrameRef := currentFrameRef latest;
     localStorage := localStorage latest; timeouts := timeouts latest |}.

(** What that handler leaves behind.  The one update a touchmove handler
    queues is [setStage('sent')] (line 247): it replaces the queued value of
    [stage], and the other cells keep theirs; what the handler did to the
    socket and the timers is done. *)
Definition queued (closure latest result : State) : State :=
  {| formData := formData latest;
     stage := if bool_decide (stage result = stage closure)
              then stage latest else stage result;
     currentImage := currentImage latest; currentColor := currentColor latest;
     touchStart := touchStart latest; imagesPreloaded := imagesPreloaded latest;
     wsRef := wsRef result; frameRequested := frameRequested result;
     startTimeRef := startTimeRef result; backgroundRef := backgroundRef result;
     currentFrameRef := currentFrameRef result;
     localStorage := localStorage result; timeouts := timeouts result |}.

Definition staleTouchMove (clientY : Q) (closure latest : State) : State :=
  match handleTouchMove clientY (seen closure latest) with
  | Ws.Normal result => queued closure latest result
  | Ws.Throw _ => latest
  end.

(** [imageCache.current = cachedImages] (line 96) run by a superseded
    preload: the ref is the one of the component, kept with the current
    preload. *)
Definition write_cache (images : list string) (l : Preload.Loader)
    : Preload.Loader :=
  {| Preload.imagesPreloaded := Preload.imagesPreloaded l;
     Preload.imagePromises := Preload.imagePromises l;
     Preload.cachedImages := Preload.cachedImages l;
     Preload.allSettled := Preload.allSettled l;
     Preload.graceTimer := Preload.graceTimer l;
     Preload.imageCache := images |}.

(** A callback of a superseded preload: its own promises and timer move as
    in [Preload]; when its then-callback runs the cache of the component is
    overwritten with its images, and when its timer fires the flag of the
    component is raised and the animation effect sees the change. *)
Definition late (decodeSupported : bool) (k : nat) (e : Preload.Event)
    (w : World) : World :=
  match superseded w !! k with
  | Some l =>
      let l' := Preload.step decodeSupported e l in
      let st := Kiosk.app (sys w) in
      {| sys :=
           {| Kiosk.app :=
                if negb (Preload.imagesPreloaded l) && Preload.imagesPreloaded l'
                then Kiosk.flushAnimation st (Kiosk.set_imagesPreloaded true st)
                else st;
              Kiosk.loader :=
                if negb (Preload.allSettled l) && Preload.allSettled l'
                then write_cache (Preload.cachedImages l') (Kiosk.loader (sys w))
                else Kiosk.loader (sys w) |};
         superseded := <[k := l']> (superseded w);
         closure := closure w |}
  | None => w
  end.

(** The preload effect leaves the preload of the previous theme behind
    whenever [currentColor] changed.  The effects of the render that follows
    a touchmove change nothing ([stage] goes from [floating] to [sent], and
    no animation runs in either), so that they are run with the event.  A
    stale touchmove needs a touchmove before it whose render is still to
    come; without one there is no such event. *)
Definition step (decodeSupported : bool) (e : Event) (w : World) : World :=
  match e with
  | Prompt e0 =>
      let s' := Kiosk.dispatch decodeSupported e0 (sys w) in
      {| sys := s';
         superseded :=
           if bool_decide (currentColor (Kiosk.app s')
                           = currentColor (Kiosk.app (sys w)))
           then superseded w
           else Kiosk.loader (sys w) :: superseded w;
         closure :=
           match e0 with
           | Kiosk.TouchMove _ => Some (Kiosk.app (sys w))
           | _ => None
           end |}
  | StaleTouchMove clientY =>
      match closure w with
      | Some c =>
          {| sys := Kiosk.with_app
                      (staleTouchMove clientY c (Kiosk.app (sys w))) (sys w);
             superseded := superseded w;
             closure := Some c |}
      | None => w
      end
  | Late k e0 => late decodeSupported k e0 w
  end.

Definition run (decodeSupported : bool) (events : list Event) (w : World) : World :=
  foldl (fun acc e => step decodeSupported e acc) w events.

Definition mount (url : string) (random : Q) (localStorage : gmap string string)
    : World :=
  {| sys := Kiosk.mount url random localStorage; superseded := []; closure := None |}.

Definition reached (decodeSupported : bool) (url : string) (random : Q)
    (localStorage : gmap string string) (events : list Event) : World :=
  run decodeSupported events (mount url random localStorage).

(** *** Notions used to state the properties *)

Definition valid (e : Event) : Prop :=
  match e with
  | Prompt e0 => Kiosk.valid e0
  | _ => True
  end.

(** No touchmove is handled by the handler of an earlier render. *)
Definition stale (e : Event) : Prop :=
  match e with
  | StaleTouchMove _ => True
  | _ => False
  end.

Definition prompt (events : list Event) : Prop :=
  Forall (fun e => ~ stale e) events.

(** The events [Kiosk] handles. *)
Definition handled (events : list Event) : list Kiosk.Input :=
  omap (fun e => match e with Prompt e0 => Some e0 | _ => None end) events.

(** Sample events: a visit up to the swipe prompt with the finger down at
    500; the same followed by two touchmoves above the threshold, the second
    one handled before the re-render; and by the two reset timers. *)
Definition prompted : list Event :=
  Prompt <$> (Kiosk.loading
              ++ [Kiosk.SocketOpen; Kiosk.Change Render.Name "Ada";
                  Kiosk.Change Render.Email "ada@example.com";
                  Kiosk.Change Render.Message "Great demo"; Kiosk.Submit;
                  Kiosk.Frame 1000; Kiosk.Frame 6000; Kiosk.TouchStart 500])%list.

Definition swipedTwice : list Event :=
  (prompted ++ [Prompt (Kiosk.TouchMove 399); StaleTouchMove 380])%list.

Definition resetTwice : list Event :=
  (swipedTwice ++ [Prompt (Kiosk.Timer (1 # 3)); Prompt (Kiosk.Timer (1 # 3))])%list.

End Deferred.

(** * Properties *)

Module JsFacts.

Lemma truthy_true s : Js.truthy s = true <-> s <> "".
Proof.
  unfold Js.truthy. rewrite negb_true_iff.
  split.
  - intros H ->. discriminate.
  - intros H. apply String.eqb_neq. exact H.
Qed.

Lemma ltb_lt x y : Js.ltb x y = true <-> (x < y)%Q.
Proof.
  unfold Js.ltb. rewrite negb_true_iff.
  split.
  - intros H. apply Qnot_le_lt. intros Hle.
    apply Qle_bool_iff in Hle. congruence.
  - intros H. destruct (Qle_bool y x) eqn:E; [|reflexivity].
    apply Qle_bool_iff in E. exfalso. exact (Qlt_not_le _ _ H E).
Qed.

Lemma ltb_ge x y : Js.ltb x y = false <-> (y <= x)%Q.
Proof.
  unfold Js.ltb. rewrite negb_false_iff. apply Qle_bool_iff.
Qed.

Lemma index_Some {A} (arr : list A) (i : Z) :
  (0 <= i < Z.of_nat (length arr))%Z -> exists x, Js.index arr i = Some x /\ x ∈ arr.
Proof.
  intros [Hlo Hhi]. unfold Js.index.
  destruct (Z.ltb_spec i 0) as [Hneg|_]; [lia|].
  destruct (lookup_lt_is_Some_2 arr (Z.to_nat i)) as [x Hx]; [lia|].
  exists x. split; [exact Hx|]. apply list_elem_of_lookup. eauto.
Qed.

End JsFacts.

Module ColorFacts.

Import Color.

Lemma availableColors_nonempty lastColor : availableColors lastColor <> [].
Proof.
  unfold availableColors, COLORS.
  destruct (decide (Some "blue" = lastColor)) as [<-|Hne].
  - vm_compute. discriminate.
  - rewrite filter_cons_True by exact Hne. discriminate.
Qed.

Lemma colorPool_available lastColor : colorPool lastColor = availableColors lastColor.
Proof.
  unfold colorPool.
  pose proof (availableColors_nonempty lastColor) as Hne.
  destruct (availableColors lastColor) as [|c l]; [congruence|].
  reflexivity.
Qed.

Lemma randomIndex_bounds random pool :
  unit_interval random -> pool <> [] ->
  (0 <= randomIndex random pool < Z.of_nat (length pool))%Z.
Proof.
  intros [Hlo Hhi] Hne. unfold randomIndex.
  set (n := Z.of_nat (length pool)).
  assert (Hn : (0 < n)%Z) by (subst n; destruct pool; [congruence|simpl; lia]).
  assert (HnQ : (inject_Z 0 < inject_Z n)%Q) by (rewrite Zlt_Qlt in Hn; exact Hn).
  change (inject_Z 0) with 0%Q in HnQ.
  split.
  - change 0%Z with (Qfloor 0). apply Qfloor_resp_le. nra.
  - assert (Hlt : (random * inject_Z n < inject_Z n)%Q) by nra.
    pose proof (Qfloor_le (random * inject_Z n)) as Hfl.
    rewrite Zlt_Qlt. lra.
Qed.

Lemma getNextColor_spec currentColor random (ls : gmap string string) :
  unit_interval random ->
  exists c, getNextColor currentColor random ls = (Some c, <[lastFeedbackColor := c]> ls)
            /\ c ∈ COLORS /\ Some c <> ls !! lastFeedbackColor.
Proof.
  intros Hr. unfold getNextColor.
  set (last := ls !! lastFeedbackColor).
  destruct (JsFacts.index_Some (colorPool last) (randomIndex random (colorPool last)))
    as (c & Hc & Hin).
  { apply randomIndex_bounds; [exact Hr|].
    rewrite colorPool_available. apply availableColors_nonempty. }
  exists c. rewrite Hc. split; [reflexivity|].
  rewrite colorPool_available in Hin. unfold availableColors in Hin.
  apply list_elem_of_filter in Hin. destruct Hin as [Hne Hin]. split; assumption.
Qed.

End ColorFacts.

(** ** Configuration resolver *)

Module ConfigSpec.

Import Config.

Lemma absent_falsy env : absent env -> Js.truthy_opt env = false.
Proof. intros [->| ->]; reflexivity. Qed.

(** C6. A supplied (non-empty) configuration value is returned verbatim
    whatever the host; without one, the hosts [localhost] and [127.0.0.1]
    resolve to [ws://localhost:3001]; any other host resolves to [wss://]
    (page protocol [https:]) or [ws://] followed by the host name and,
    only when the port is non-empty, a colon and the port. *)
Theorem getWebSocketUrl_precedence (env : option string) (location : Location) :
  (forall url, env = Some url -> url <> "" -> getWebSocketUrl env location = url)
  /\ (absent env ->
      hostname location = "localhost" \/ hostname location = "127.0.0.1" ->
      getWebSocketUrl env location = "ws://localhost:3001")
  /\ (absent env ->
      hostname location <> "localhost" -> hostname location <> "127.0.0.1" ->
      getWebSocketUrl env location =
        (if decide (protocol location = "https:") then "wss://" else "ws://")
        ++ hostname location
        ++ (if decide (port location = "") then "" else ":" ++ port location)).
Proof.
  split; [|split].
  - intros url -> Hne. unfold getWebSocketUrl. simpl.
    apply JsFacts.truthy_true in Hne. rewrite Hne. reflexivity.
  - intros Habs Hhost. unfold getWebSocketUrl.
    rewrite (absent_falsy _ Habs).
    destruct Hhost as [-> | ->]; reflexivity.
  - intros Habs Hl Hi. unfold getWebSocketUrl.
    rewrite (absent_falsy _ Habs).
    apply String.eqb_neq in Hl, Hi. rewrite Hl, Hi. simpl.
    destruct (decide (protocol location = "https:")) as [Hp|Hp].
    + apply String.eqb_eq in Hp. rewrite Hp.
      destruct (decide (port location = "")) as [Hq|Hq].
      * rewrite Hq. reflexivity.
      * apply JsFacts.truthy_true in Hq. rewrite Hq. reflexivity.
    + apply String.eqb_neq in Hp. rewrite Hp.
      destruct (decide (port location = "")) as [Hq|Hq].
      * rewrite Hq. reflexivity.
      * apply JsFacts.truthy_true in Hq. rewrite Hq. reflexivity.
Qed.

Lemma getWebSocketUrl_precedence_witness :
  getWebSocketUrl (Some "wss://collector.example.org/feed")
    {| hostname := "localhost"; port := "3000"; protocol := "http:" |}
  = "wss://collector.example.org/feed"
  /\ getWebSocketUrl None
       {| hostname := "localhost"; port := "3000"; protocol := "http:" |}
     = "ws://localhost:3001"
  /\ getWebSocketUrl None example_location = "wss://app.example.com".
Proof.
  split; [|split].
  - apply (proj1 (getWebSocketUrl_precedence _ _) _ eq_refl). discriminate.
  - apply (proj1 (proj2 (getWebSocketUrl_precedence _ _))).
    + left; reflexivity.
    + left; reflexivity.
  - apply (proj2 (proj2 (getWebSocketUrl_precedence None example_location))).
    + left; reflexivity.
    + discriminate.
    + discriminate.
Defined.

End ConfigSpec.

(** ** Colour rotation *)

Module ColorSpec.

Import Color ColorFacts.

(** C10. Whatever [localStorage] holds under the key (nothing, a theme,
    any other string), the candidate pool is the non-empty filtered list,
    the random index lies inside it, and the call returns one of the six
    themes. *)
Theorem getNextColor_total (currentColor : option string) (random : Q)
    (localStorage : gmap string string) :
  unit_interval random ->
  let lastColor := localStorage !! lastFeedbackColor in
  availableColors lastColor <> []
  /\ colorPool lastColor = availableColors lastColor
  /\ (0 <= randomIndex random (colorPool lastColor)
      < Z.of_nat (length (colorPool lastColor)))%Z
  /\ exists c, fst (getNextColor currentColor random localStorage) = Some c
               /\ c ∈ COLORS.
Proof.
  intros Hr lastColor.
  split; [apply availableColors_nonempty|].
  split; [apply colorPool_available|].
  split.
  - apply randomIndex_bounds; [exact Hr|].
    rewrite colorPool_available. apply availableColors_nonempty.
  - destruct (getNextColor_spec currentColor random localStorage Hr)
      as (c & Heq & Hin & _).
    exists c. rewrite Heq. split; [reflexivity|exact Hin].
Qed.

Lemma getNextColor_total_witness :
  exists c, fst (getNextColor None (1 # 2) {[ lastFeedbackColor := "teal" ]}) = Some c
            /\ c ∈ COLORS.
Proof.
  refine (proj2 (proj2 (proj2
    (getNextColor_total None (1 # 2) {[ lastFeedbackColor := "teal" ]} _)))).
  split; [discriminate|reflexivity].
Defined.

(** C2. Along any run of consecutive calls, each call leaves under the key
    exactly the theme it returned, and no call returns the theme returned
    by the call just before it. *)
Theorem rotations_no_repeat (calls : list (option string * Q))
    (localStorage : gmap string string) :
  Forall (fun call => unit_interval (snd call)) calls ->
  let trace := rotations calls localStorage in
  (forall i out, trace !! i = Some out ->
     exists c, fst out = Some c /\ snd out !! lastFeedbackColor = Some c)
  /\ (forall i a b, trace.*1 !! i = Some a -> trace.*1 !! S i = Some b -> a <> b).
Proof.
  intros Hcalls. simpl.
  revert localStorage.
  induction Hcalls as [|[arg r] rest Hr Hrest IH]; intros ls.
  - split; intros; simpl in *; discriminate.
  - simpl in Hr. cbn [rotations].
    destruct (getNextColor_spec arg r ls Hr) as (c & Heq & _ & _).
    rewrite Heq. cbn [snd].
    destruct (IH (<[lastFeedbackColor := c]> ls)) as [IHa IHb].
    split.
    + intros [|i] out Hout.
      * injection Hout as <-. exists c. split; [reflexivity|].
        cbn [snd]. apply lookup_insert_eq.
      * exact (IHa i out Hout).
    + intros [|i] a b Ha Hb.
      * cbn in Ha. injection Ha as <-.
        destruct rest as [|[arg' r'] rest']; [discriminate|].
        cbn [rotations] in Hb.
        apply Forall_inv in Hrest.
        destruct (getNextColor_spec arg' r' (<[lastFeedbackColor := c]> ls) Hrest)
          as (c' & Heq' & _ & Hne).
        rewrite Heq' in Hb. cbn in Hb. injection Hb as <-.
        rewrite lookup_insert_eq in Hne. congruence.
      * exact (IHb i a b Ha Hb).
Qed.

Lemma rotations_no_repeat_witness :
  let trace :=
    rotations [(None, 0%Q); (Some "blue", 0%Q); (Some "red", (9 # 10)%Q)] ∅ in
  trace.*1 = [Some "blue"; Some "red"; Some "orange"]
  /\ forall i a b, trace.*1 !! i = Some a -> trace.*1 !! S i = Some b -> a <> b.
Proof.
  split; [reflexivity|].
  refine (proj2 (rotations_no_repeat
    [(None, 0%Q); (Some "blue", 0%Q); (Some "red", (9 # 10)%Q)] ∅ _)).
  repeat constructor; discriminate.
Defined.

(** C3 (what the code does instead). With ["red"] left in storage and
    ["blue"] passed as the previous theme, the pool is the list without
    ["red"], and a draw of [0] returns ["blue"] again; the argument never
    changes the result; and a reset whose closure holds ["blue"] while the
    storage says ["red"] shows ["blue"] twice in a row. *)
Theorem getNextColor_ignores_argument :
  let stale : gmap string string := {[ lastFeedbackColor := "red" ]} in
  colorPool (stale !! lastFeedbackColor)
  = ["blue"; "green"; "yellow"; "purple"; "orange"]
  /\ fst (getNextColor (Some "blue") 0 stale) = Some "blue"
  /\ (forall previous random localStorage,
        getNextColor previous random localStorage
        = getNextColor None random localStorage)
  /\ App.currentColor
       (App.resetCallback
          {| App.delay := 2000; App.closureColor := Some "blue" |} 0
          (App.set_localStorage stale
             (App.idle App.ada true None App.sent (Some "blue"))))
     = Some "blue".
Proof.
  split; [reflexivity|].
  split; [reflexivity|].
  split; reflexivity.
Qed.

End ColorSpec.

(** ** The controller *)

Module AppSpec.

Import App.

Lemma handleSubmit_accept st :
  acceptable st -> handleSubmit st = set_currentImage 1 (set_stage folding st).
Proof.
  intros (Hn & He & Hm & Hp). unfold handleSubmit.
  apply JsFacts.truthy_true in Hn, He, Hm.
  rewrite Hn, He, Hm, Hp. reflexivity.
Qed.

Lemma handleSubmit_refuse st : ~ acceptable st -> handleSubmit st = st.
Proof.
  intros Hno. unfold handleSubmit.
  destruct (Js.truthy (name (formData st))) eqn:Hn; [|reflexivity].
  destruct (Js.truthy (email (formData st))) eqn:He; [|reflexivity].
  destruct (Js.truthy (message (formData st))) eqn:Hm; [|reflexivity].
  destruct (imagesPreloaded st) eqn:Hp; [|reflexivity].
  exfalso. apply Hno. unfold acceptable.
  apply JsFacts.truthy_true in Hn, He, Hm. auto.
Qed.

(** C1. From stage [form], a submit moves to [folding] (showing frame 1)
    exactly when the three fields are non-empty and the images are ready;
    otherwise the state is returned unchanged. *)
Theorem handleSubmit_gating (st : State) :
  stage st = form ->
  (acceptable st -> handleSubmit st = set_currentImage 1 (set_stage folding st))
  /\ (~ acceptable st -> handleSubmit st = st)
  /\ (stage (handleSubmit st) = folding /\ currentImage (handleSubmit st) = 1%Z
      <-> acceptable st)
  /\ (~ acceptable st -> stage (handleSubmit st) = form).
Proof.
  intros Hform.
  split; [apply handleSubmit_accept|].
  split; [apply handleSubmit_refuse|].
  split.
  - split.
    + intros [Hst _]. destruct (decide (acceptable st)) as [Hok|Hno]; [exact Hok|].
      rewrite (handleSubmit_refuse _ Hno) in Hst. congruence.
    + intros Hok. rewrite (handleSubmit_accept _ Hok). split; reflexivity.
  - intros Hno. rewrite (handleSubmit_refuse _ Hno). exact Hform.
Qed.

Lemma handleSubmit_gating_witness :
  stage (handleSubmit (idle ada true None form (Some "green"))) = folding
  /\ stage (handleSubmit (idle ada false None form (Some "green"))) = form
  /\ stage (handleSubmit (idle no_email true None form (Some "green"))) = form.
Proof.
  split; [|split].
  - apply (proj1 (proj2 (proj2
      (handleSubmit_gating (idle ada true None form (Some "green")) eq_refl)))).
    repeat split; discriminate.
  - apply (proj2 (proj2 (proj2
      (handleSubmit_gating (idle ada false None form (Some "green")) eq_refl)))).
    intros (_ & _ & _ & H). discriminate H.
  - apply (proj2 (proj2 (proj2
      (handleSubmit_gating (idle no_email true None form (Some "green")) eq_refl)))).
    intros (_ & H & _). apply H. reflexivity.
Defined.

(** *** Swipe commit *)

Lemma handleSwipeUp_open st ws :
  wsRef st = Some ws -> Ws.readyState ws = Ws.OPEN ->
  handleSwipeUp st =
    Ws.Normal
      (committed
         (set_wsRef
            (Some {| Ws.url := Ws.url ws; Ws.readyState := Ws.OPEN;
                     Ws.transmitted :=
                       Ws.transmitted ws
                       ++ [Js.to_str (Json.stringify
                             (feedbackMessage (formData st) (currentColor st)))] |})
            st)).
Proof.
  intros Hws Hopen. unfold handleSwipeUp, Ws.isOpen, Ws.send.
  rewrite Hws, Hopen. reflexivity.
Qed.

Lemma handleSwipeUp_not_open st :
  ~ connectionOpen st -> handleSwipeUp st = Ws.Normal (committed st).
Proof.
  intros Hno. unfold handleSwipeUp, Ws.isOpen.
  destruct (wsRef st) as [ws|] eqn:Hws; [|reflexivity].
  destruct (Ws.readyState ws) eqn:Hrs; try reflexivity.
  exfalso. apply Hno. exists ws. split; [exact Hws|exact Hrs].
Qed.

(** C5. With the connection open, the commit transmits exactly one text
    frame: the serialisation of the object whose [type] is
    ["new_feedback"] and whose [feedback] lists the name, email and
    message of the form and the current theme, in that order. *)
Theorem handleSwipeUp_payload (st : State) (ws : Ws.WebSocket) (color : string) :
  wsRef st = Some ws -> Ws.readyState ws = Ws.OPEN ->
  currentColor st = Some color ->
  exists st' ws' text,
    handleSwipeUp st = Ws.Normal st'
    /\ wsRef st' = Some ws'
    /\ Json.stringify
         (new_feedback (name (formData st)) (email (formData st))
            (message (formData st)) color) = Some text
    /\ Ws.transmitted ws' = (Ws.transmitted ws ++ [text])%list
    /\ formData st' = formData st /\ currentColor st' = currentColor st.
Proof.
  intros Hws Hopen Hcolor.
  rewrite (handleSwipeUp_open st ws Hws Hopen).
  do 3 eexists. split; [reflexivity|].
  split; [reflexivity|].
  split; [reflexivity|].
  split; [|split; reflexivity].
  cbn [Ws.transmitted]. rewrite Hcolor. reflexivity.
Qed.

Lemma handleSwipeUp_payload_witness :
  exists st' ws',
    handleSwipeUp (idle ada true (Some collector) floating (Some "green"))
    = Ws.Normal st'
    /\ wsRef st' = Some ws'
    /\ Ws.transmitted ws' = [ada_frame].
Proof.
  destruct (handleSwipeUp_payload
              (idle ada true (Some collector) floating (Some "green"))
              collector "green" eq_refl eq_refl eq_refl)
    as (st' & ws' & text & Hrun & Hws & Htext & Hsent & _).
  exists st', ws'. split; [exact Hrun|]. split; [exact Hws|].
  rewrite Hsent. vm_compute in Htext. injection Htext as <-. reflexivity.
Defined.

(** C7. The commit never throws, always reaches [sent] and always
    schedules just the reset timer, whose callback leaves the socket
    alone; when the connection is not open the socket is untouched and
    the resulting state is the one an open connection gives apart from
    the transmitted frame. *)
Theorem handleSwipeUp_dropped_send (st : State) :
  ~ connectionOpen st ->
  handleSwipeUp st = Ws.Normal (committed st)
  /\ wsRef (committed st) = wsRef st
  /\ stage (committed st) = sent
  /\ timeouts (committed st) = (timeouts st ++ [resetTimeout st])%list
  /\ (forall t random,
        wsRef (resetCallback t random (committed st)) = wsRef st)
  /\ (forall ws, Ws.readyState ws = Ws.OPEN ->
        exists ws',
          handleSwipeUp (set_wsRef (Some ws) st)
          = Ws.Normal (set_wsRef (Some ws') (committed st))).
Proof.
  intros Hno.
  split; [apply handleSwipeUp_not_open; exact Hno|].
  split; [reflexivity|]. split; [reflexivity|]. split; [reflexivity|].
  split; [reflexivity|].
  intros ws Hopen.
  rewrite (handleSwipeUp_open (set_wsRef (Some ws) st) ws eq_refl Hopen).
  eexists. reflexivity.
Qed.

Lemma handleSwipeUp_dropped_send_witness :
  let st := idle ada true (Some closed_collector) floating (Some "green") in
  handleSwipeUp st = Ws.Normal (committed st)
  /\ wsRef (committed st) = Some closed_collector
  /\ stage (committed st) = sent.
Proof.
  intros st.
  assert (Hno : ~ connectionOpen st).
  { intros (ws & [= <-] & H). discriminate H. }
  destruct (handleSwipeUp_dropped_send st Hno) as (Hrun & Hws & Hst & _).
  split; [exact Hrun|]. split; [exact Hws|exact Hst].
Defined.

Lemma handleSwipeUp_sent st :
  exists st', handleSwipeUp st = Ws.Normal st' /\ stage st' = sent.
Proof.
  unfold handleSwipeUp, Ws.isOpen, Ws.send.
  destruct (wsRef st) as [ws|]; [|eexists; split; reflexivity].
  destruct (Ws.readyState ws); eexists; split; reflexivity.
Qed.

(** *** Gesture detector *)

Lemma handleTouchMove_below st start clientY :
  stage st = floating -> touchStart st = Some start ->
  (start - clientY <= 100)%Q -> handleTouchMove clientY st = Ws.Normal st.
Proof.
  intros Hst Hts Hdiff. unfold handleTouchMove. rewrite Hts, Hst.
  rewrite bool_decide_eq_true_2 by reflexivity.
  apply JsFacts.ltb_ge in Hdiff. unfold SWIPE_THRESHOLD.
  rewrite Hdiff. reflexivity.
Qed.

Lemma handleTouchMove_above st start clientY :
  stage st = floating -> touchStart st = Some start ->
  (100 < start - clientY)%Q -> handleTouchMove clientY st = handleSwipeUp st.
Proof.
  intros Hst Hts Hdiff. unfold handleTouchMove. rewrite Hts, Hst.
  rewrite bool_decide_eq_true_2 by reflexivity.
  apply JsFacts.ltb_lt in Hdiff. unfold SWIPE_THRESHOLD.
  rewrite Hdiff. reflexivity.
Qed.

(** C8. In stage [floating] with a recorded reference, a move whose
    delta (reference minus current) is exactly 100 leaves the state as it
    is, a delta of 101 (any delta above 100) runs the commit, which ends
    in [sent]; in any other stage touch-start and touch-move leave the
    state as it is. *)
Theorem swipe_threshold (st : State) (clientY : Q) :
  (forall start, stage st = floating -> touchStart st = Some start ->
     ((start - clientY == 100)%Q -> handleTouchMove clientY st = Ws.Normal st)
     /\ ((start - clientY == 101)%Q ->
         handleTouchMove clientY st = handleSwipeUp st)
     /\ ((start - clientY <= 100)%Q -> handleTouchMove clientY st = Ws.Normal st)
     /\ ((100 < start - clientY)%Q ->
         handleTouchMove clientY st = handleSwipeUp st))
  /\ (exists st', handleSwipeUp st = Ws.Normal st' /\ stage st' = sent)
  /\ (stage st <> floating ->
      handleTouchStart clientY st = st
      /\ handleTouchMove clientY st = Ws.Normal st).
Proof.
  split; [|split].
  - intros start Hst Hts. repeat split; intros Hdiff.
    + apply (handleTouchMove_below st start); [assumption..|]. lra.
    + apply (handleTouchMove_above st start); [assumption..|]. lra.
    + apply (handleTouchMove_below st start); assumption.
    + apply (handleTouchMove_above st start); assumption.
  - apply handleSwipeUp_sent.
  - intros Hst. unfold handleTouchStart, handleTouchMove.
    rewrite bool_decide_eq_false_2 by exact Hst.
    split; [reflexivity|]. destruct (touchStart st); reflexivity.
Qed.

Lemma swipe_threshold_witness :
  handleTouchMove 400 (touching floating 500) = Ws.Normal (touching floating 500)
  /\ handleTouchMove 399 (touching floating 500)
     = handleSwipeUp (touching floating 500)
  /\ handleTouchMove 0 (touching form 500) = Ws.Normal (touching form 500)
  /\ handleTouchStart 500 (idle ada true None folding (Some "green"))
     = idle ada true None folding (Some "green").
Proof.
  split; [|split; [|split]].
  - destruct (proj1 (swipe_threshold (touching floating 500) 400)
                500%Q eq_refl eq_refl) as (Hexact & _).
    apply Hexact. reflexivity.
  - destruct (proj1 (swipe_threshold (touching floating 500) 399)
                500%Q eq_refl eq_refl) as (_ & Hover & _).
    apply Hover. reflexivity.
  - apply (proj2 (proj2 (swipe_threshold (touching form 500) 0))). discriminate.
  - apply (proj2 (proj2
      (swipe_threshold (idle ada true None folding (Some "green")) 500))).
    discriminate.
Defined.

(** *** Animation engine *)

Lemma progress_mono e1 e2 : (e1 <= e2)%Q -> (progress e1 <= progress e2)%Q.
Proof.
  intros H. unfold progress, ANIMATION_DURATION.
  apply Q.min_le_compat_r. unfold Qdiv.
  apply Qmult_le_compat_r; [exact H|discriminate].
Qed.

Lemma frameNumber_mono e1 e2 :
  (e1 <= e2)%Q -> (frameNumber e1 <= frameNumber e2)%Z.
Proof.
  intros H. unfold frameNumber, TOTAL_FRAMES.
  apply Z.add_le_mono_r, Qfloor_resp_le.
  pose proof (progress_mono e1 e2 H). lra.
Qed.

Lemma frameNumber_start : frameNumber 0 = 1%Z.
Proof. reflexivity. Qed.

Lemma frameNumber_end e : (5000 <= e)%Q -> frameNumber e = 100%Z.
Proof.
  intros H. unfold frameNumber, TOTAL_FRAMES.
  assert (Hp : (progress e == 1)%Q).
  { unfold progress, ANIMATION_DURATION. apply Q.min_r.
    apply Qle_shift_div_l; [reflexivity|lra]. }
  rewrite Hp. reflexivity.
Qed.

Lemma animate_startTimeRef t st :
  startTimeRef (animate t st) = Some (startTime t st).
Proof.
  unfold animate, clearWillChange. cbn.
  repeat match goal with
         | |- context [match ?x with _ => _ end] => destruct x; cbn
         end; reflexivity.
Qed.

Lemma animate_backgroundRef t st :
  is_Some (backgroundRef st) -> is_Some (backgroundRef (animate t st)).
Proof.
  intros [style Hs]. unfold animate, clearWillChange.
  cbn. rewrite Hs.
  repeat match goal with
         | |- context [if ?x then _ else _] => destruct x
         end; cbn; rewrite ?Hs; eauto.
Qed.

Lemma animate_currentFrameRef t st :
  is_Some (backgroundRef st) ->
  currentFrameRef (animate t st) = frameNumber (t - startTime t st).
Proof.
  intros [style Hs]. unfold animate, clearWillChange.
  cbn. rewrite Hs.
  destruct (Z.eqb_spec (frameNumber (t - startTime t st)) (currentFrameRef st))
    as [Heq|Hne]; cbn.
  - destruct (Js.ltb _ _); cbn; rewrite ?Hs; cbn; symmetry; exact Heq.
  - destruct (Js.ltb _ _); reflexivity.
Qed.

(** Between two callbacks of a run the elapsed time does not decrease,
    also when the first timestamp is the falsy [0] and the start is taken
    again. *)
Lemma animate_elapsed_mono t1 t2 st :
  (t1 < t2)%Q ->
  (t1 - startTime t1 st <= t2 - startTime t2 (animate t1 st))%Q.
Proof.
  intros Hlt. unfold startTime at 2. rewrite animate_startTimeRef.
  destruct (Qeq_bool (startTime t1 st) 0) eqn:Hz.
  - apply Qeq_bool_eq in Hz.
    assert (Hs : (startTime t1 st == t1)%Q).
    { revert Hz. unfold startTime.
      destruct (startTimeRef st) as [s|]; [|reflexivity].
      destruct (Qeq_bool s 0) eqn:Hs0; [reflexivity|].
      intros Hz. apply Qeq_bool_neq in Hs0. contradiction. }
    lra.
  - lra.
Qed.

Lemma animate_frames_step t1 t2 st :
  is_Some (backgroundRef st) -> (t1 < t2)%Q ->
  (currentFrameRef (animate t1 st)
   <= currentFrameRef (animate t2 (animate t1 st)))%Z.
Proof.
  intros Hbg Hlt.
  rewrite (animate_currentFrameRef t2) by (apply animate_backgroundRef; exact Hbg).
  rewrite (animate_currentFrameRef t1) by exact Hbg.
  apply frameNumber_mono, animate_elapsed_mono, Hlt.
Qed.

Lemma frames_sorted timestamps : forall st,
  is_Some (backgroundRef st) -> Sorted Qlt timestamps ->
  Sorted Z.le (frames timestamps st).
Proof.
  induction timestamps as [|t1 rest IH]; intros st Hbg Hs; [constructor|].
  apply Sorted_inv in Hs. destruct Hs as [Hrest Hhd].
  cbn [frames]. constructor.
  - apply IH; [apply animate_backgroundRef; exact Hbg|exact Hrest].
  - destruct rest as [|t2 rest']; [constructor|].
    cbn [frames]. constructor.
    apply animate_frames_step; [exact Hbg|].
    apply HdRel_inv in Hhd. exact Hhd.
Qed.

Lemma StronglySorted_lookup_le (l : list Z) :
  StronglySorted Z.le l ->
  forall i j a b, (i < j)%nat -> l !! i = Some a -> l !! j = Some b -> (a <= b)%Z.
Proof.
  induction 1 as [|x l Hl IH Hall]; intros i j a b Hij Ha Hb; [discriminate|].
  destruct j as [|j]; [lia|]. cbn in Hb.
  destruct i as [|i].
  - cbn in Ha. injection Ha as <-.
    rewrite List.Forall_forall in Hall. apply Hall.
    apply list_elem_of_In, list_elem_of_lookup. eauto.
  - cbn in Ha. apply (IH i j); [lia|assumption..].
Qed.

(** C4. After a callback the frame shown is
    [floor(min(elapsed / 5000, 1) * 99) + 1] for the elapsed time the
    callback computed; this is 1 at elapsed 0 and 100 from 5000 ms on; and
    along the callbacks of a run with increasing timestamps a later
    callback never shows a lower frame than an earlier one. *)
Theorem animate_frame (st : State) (timestamps : list Q) :
  is_Some (backgroundRef st) ->
  (forall t,
     exists start,
       startTimeRef (animate t st) = Some start
       /\ currentFrameRef (animate t st)
          = (Qfloor (Qmin ((t - start) / 5000) 1 * 99) + 1)%Z)
  /\ frameNumber 0 = 1%Z
  /\ (forall elapsed, (5000 <= elapsed)%Q -> frameNumber elapsed = 100%Z)
  /\ (forall e1 e2, (e1 <= e2)%Q -> (frameNumber e1 <= frameNumber e2)%Z)
  /\ (Sorted Qlt timestamps ->
      forall i j f1 f2, (i < j)%nat ->
        frames timestamps st !! i = Some f1 ->
        frames timestamps st !! j = Some f2 -> (f1 <= f2)%Z).
Proof.
  intros Hbg.
  split.
  { intros t. exists (startTime t st). split; [apply animate_startTimeRef|].
    rewrite (animate_currentFrameRef t st Hbg). reflexivity. }
  split; [exact frameNumber_start|].
  split; [exact frameNumber_end|].
  split; [exact frameNumber_mono|].
  intros Hs. apply StronglySorted_lookup_le.
  apply Sorted_StronglySorted; [intros x y z; apply Z.le_trans|].
  apply frames_sorted; assumption.
Qed.

Lemma animate_frame_witness :
  frames [1000; 1016; 3500; 6000; 6016]%Q playing = [1; 1; 50; 100; 100]%Z
  /\ forall i j f1 f2, (i < j)%nat ->
       frames [1000; 1016; 3500; 6000; 6016]%Q playing !! i = Some f1 ->
       frames [1000; 1016; 3500; 6000; 6016]%Q playing !! j = Some f2 ->
       (f1 <= f2)%Z.
Proof.
  split; [reflexivity|].
  refine (proj2 (proj2 (proj2 (proj2
    (animate_frame playing [1000; 1016; 3500; 6000; 6016]%Q _)))) _).
  - eexists. reflexivity.
  - repeat constructor.
Defined.

End AppSpec.

(** ** Image preloader *)

Module PreloadSpec.

Import Preload.

Lemma all_resolved_Forall slots :
  all_resolved slots = true <-> Forall (fun s => s = Resolved) slots.
Proof.
  unfold all_resolved. rewrite forallb_forall, List.Forall_forall.
  split; intros H s Hin.
  - specialize (H s Hin). apply bool_decide_eq_true in H. exact H.
  - apply bool_decide_eq_true. apply H, Hin.
Qed.

Lemma all_resolved_insert slots i :
  all_resolved slots = true -> all_resolved (<[i := Resolved]> slots) = true.
Proof.
  rewrite !all_resolved_Forall. intros H.
  apply Forall_insert; [exact H|reflexivity].
Qed.

Lemma all_resolved_lookup slots i s :
  all_resolved slots = true -> slots !! i = Some s -> s = Resolved.
Proof.
  rewrite all_resolved_Forall. intros H Hi.
  exact (proj1 (Forall_lookup _ _) H i s Hi).
Qed.

Lemma Inv_preloadImages color : Inv (preloadImages color).
Proof.
  split; [|reflexivity].
  unfold settled. cbn. split; discriminate.
Qed.

Ltac project :=
  cbn [imagesPreloaded imagePromises cachedImages allSettled graceTimer imageCache].

Lemma resolve_Inv i st : Inv st -> Inv (resolve i st).
Proof.
  intros [HA HT]. unfold resolve, settled in *.
  destruct (all_resolved (<[i:=Resolved]> (imagePromises st))) eqn:Hall;
    destruct (allSettled st) eqn:Hs; cbn [andb negb].
  - split; unfold settled; project; rewrite ?Hs, ?Hall; [tauto|exact HT].
  - split; unfold settled; project; rewrite ?Hs, ?Hall; [tauto|].
    destruct (graceTimer st) as [r|]; [destruct HT; discriminate|].
    split; [reflexivity|split; [exact HT|unfold GRACE_DELAY; lia]].
  - exfalso.
    pose proof (all_resolved_insert _ i (proj1 HA eq_refl)). congruence.
  - split; unfold settled; project; rewrite ?Hs, ?Hall; [tauto|exact HT].
Qed.

Lemma onload_Inv dec i st : Inv st -> Inv (onload dec i st).
Proof.
  intros HI. unfold onload. destruct dec; [|apply resolve_Inv; exact HI].
  destruct HI as [HA HT].
  destruct (imagePromises st !! i) as [[| |]|] eqn:Hi;
    try (split; [exact HA|exact HT]).
  split; project; [|exact HT]. unfold settled in *. project.
  split.
  - intros Hs. apply HA in Hs.
    pose proof (all_resolved_lookup _ _ _ Hs Hi). discriminate.
  - intros Hall. exfalso.
    assert (Hlt : (i < length (imagePromises st))%nat)
      by (eapply lookup_lt_Some; exact Hi).
    pose proof (all_resolved_lookup _ i Decoding Hall
                  (list_lookup_insert_eq _ _ _ Hlt)). discriminate.
Qed.

Lemma elapse_Inv ms st : Inv st -> Inv (elapse ms st).
Proof.
  intros [HA HT]. unfold elapse.
  destruct (graceTimer st) as [r|] eqn:Ht; [|split; [exact HA|rewrite Ht; exact HT]].
  destruct HT as (Hs & Hp & Hr).
  destruct (N.leb_spec r ms).
  - split; project; [exact HA|]. symmetry. exact Hs.
  - split; project; [exact HA|]. repeat split; try assumption; lia.
Qed.

Lemma step_Inv dec e st : Inv st -> Inv (step dec e st).
Proof.
  intros HI. destruct e as [i|i|i ok|ms]; cbn [step].
  - apply onload_Inv, HI.
  - apply resolve_Inv, HI.
  - destruct (imagePromises st !! i) as [[| |]|]; try exact HI.
    apply resolve_Inv, HI.
  - apply elapse_Inv, HI.
Qed.

Lemma run_cons dec e events st :
  run dec (e :: events) st = run dec events (step dec e st).
Proof. reflexivity. Qed.

Lemma run_app dec pre post st :
  run dec (pre ++ post) st = run dec post (run dec pre st).
Proof. unfold run. apply foldl_app. Qed.

Lemma run_Inv dec events : forall st, Inv st -> Inv (run dec events st).
Proof.
  induction events as [|e events IH]; intros st HI; [exact HI|].
  rewrite run_cons. apply IH, step_Inv, HI.
Qed.

(** Ready implies settled. *)
Lemma Inv_ready_settled st : Inv st -> imagesPreloaded st = true -> settled st.
Proof.
  intros [HA HT] Hp. apply HA.
  destruct (graceTimer st) as [r|]; [destruct HT as (_ & Hf & _)|]; congruence.
Qed.

Lemma elapsed_app pre post : elapsed (pre ++ post) = (elapsed pre + elapsed post)%N.
Proof.
  induction pre as [|e pre IH]; [reflexivity|].
  destruct e; cbn [app elapsed]; rewrite IH; lia.
Qed.

(** Promises only ever become resolved, and the list keeps its length. *)
Lemma resolve_slots i st :
  imagePromises (resolve i st) = <[i := Resolved]> (imagePromises st).
Proof. unfold resolve. destruct (_ && _); reflexivity. Qed.

Lemma step_length dec e st :
  length (imagePromises (step dec e st)) = length (imagePromises st).
Proof.
  destruct e as [i|i|i ok|ms]; cbn [step].
  - unfold onload. destruct dec; [|rewrite resolve_slots; apply length_insert].
    project. destruct (imagePromises st !! i) as [[| |]|]; try reflexivity.
    apply length_insert.
  - rewrite resolve_slots. apply length_insert.
  - destruct (imagePromises st !! i) as [[| |]|]; try reflexivity.
    rewrite resolve_slots. apply length_insert.
  - unfold elapse. destruct (graceTimer st); [|reflexivity].
    destruct (_ <=? _)%N; reflexivity.
Qed.

Lemma step_resolved dec e st j :
  imagePromises st !! j = Some Resolved ->
  imagePromises (step dec e st) !! j = Some Resolved.
Proof.
  intros Hj.
  assert (Hins : forall i, <[i := Resolved]> (imagePromises st) !! j = Some Resolved).
  { intros i. destruct (decide (i = j)) as [->|Hne].
    - apply list_lookup_insert_eq. eapply lookup_lt_Some. exact Hj.
    - rewrite list_lookup_insert_ne by exact Hne. exact Hj. }
  destruct e as [i|i|i ok|ms]; cbn [step].
  - unfold onload. destruct dec; [|rewrite resolve_slots; apply Hins].
    project. destruct (imagePromises st !! i) as [[| |]|] eqn:Hi; try exact Hj.
    rewrite list_lookup_insert_ne; [exact Hj|]. intros ->. congruence.
  - rewrite resolve_slots. apply Hins.
  - destruct (imagePromises st !! i) as [[| |]|]; try exact Hj.
    rewrite resolve_slots. apply Hins.
  - unfold elapse. destruct (graceTimer st); [|exact Hj].
    destruct (_ <=? _)%N; exact Hj.
Qed.

Lemma run_length dec events : forall st,
  length (imagePromises (run dec events st)) = length (imagePromises st).
Proof.
  induction events as [|e events IH]; intros st; [reflexivity|].
  rewrite run_cons, IH. apply step_length.
Qed.

Lemma run_resolved dec events j : forall st,
  imagePromises st !! j = Some Resolved ->
  imagePromises (run dec events st) !! j = Some Resolved.
Proof.
  induction events as [|e events IH]; intros st Hj; [exact Hj|].
  rewrite run_cons. apply IH, step_resolved, Hj.
Qed.

(** Once something has fired for a frame, its promise is never pending
    again. *)
Lemma step_started dec e st j : started st j -> started (step dec e st) j.
Proof.
  intros (slot & Hj & Hslot).
  assert (Hins : forall i, started (resolve i st) j).
  { intros i. unfold started. rewrite resolve_slots.
    destruct (decide (i = j)) as [->|Hne].
    - exists Resolved. split; [|discriminate].
      apply list_lookup_insert_eq. eapply lookup_lt_Some. exact Hj.
    - exists slot. rewrite list_lookup_insert_ne by exact Hne. split; assumption. }
  assert (Hsame : started st j) by (exists slot; split; assumption).
  destruct e as [i|i|i ok|ms]; cbn [step].
  - unfold onload. destruct dec; [|apply Hins].
    destruct (imagePromises st !! i) as [[| |]|] eqn:Hi; try exact Hsame.
    exists slot. project. split; [|exact Hslot].
    rewrite list_lookup_insert_ne; [exact Hj|]. intros ->. congruence.
  - apply Hins.
  - destruct (imagePromises st !! i) as [[| |]|]; try exact Hsame. apply Hins.
  - unfold elapse. destruct (graceTimer st); [|exact Hsame].
    destruct (_ <=? _)%N; exact Hsame.
Qed.

Lemma run_started dec events j : forall st,
  started st j -> started (run dec events st) j.
Proof.
  induction events as [|e events IH]; intros st Hj; [exact Hj|].
  rewrite run_cons. apply IH, step_started, Hj.
Qed.

Lemma resolve_resolved i st :
  (i < length (imagePromises st))%nat ->
  imagePromises (resolve i st) !! i = Some Resolved.
Proof.
  intros Hlt. rewrite resolve_slots. apply list_lookup_insert_eq. exact Hlt.
Qed.

Lemma onload_started i st :
  (i < length (imagePromises st))%nat -> started (onload true i st) i.
Proof.
  intros Hlt. unfold started, onload. project.
  destruct (lookup_lt_is_Some_2 _ _ Hlt) as [slot Hi]. rewrite Hi.
  destruct slot.
  - exists Decoding. split; [|discriminate].
    apply list_lookup_insert_eq. exact Hlt.
  - exists Decoding. split; [exact Hi|discriminate].
  - exists Resolved. split; [exact Hi|discriminate].
Qed.

Lemma decode_resolved dec i ok st :
  started st i ->
  imagePromises (step dec (DecodeSettled i ok) st) !! i = Some Resolved.
Proof.
  intros (slot & Hi & Hslot). cbn [step]. rewrite Hi.
  destruct slot; [congruence| |exact Hi].
  apply resolve_resolved. eapply lookup_lt_Some. exact Hi.
Qed.

(** Whatever its outcome and whatever happens in between, a frame whose
    outcome events occur has its promise resolved at the end. *)
Lemma outcome_resolves dec i o events st :
  (i < length (imagePromises st))%nat ->
  outcome_events dec i o `sublist_of` events ->
  imagePromises (run dec events st) !! i = Some Resolved.
Proof.
  intros Hlt Hsub.
  assert (Hone : forall e,
    (forall st', (i < length (imagePromises st'))%nat ->
                 imagePromises (step dec e st') !! i = Some Resolved) ->
    [e] `sublist_of` events ->
    imagePromises (run dec events st) !! i = Some Resolved).
  { intros e He Hin. apply sublist_cons_l in Hin.
    destruct Hin as (k1 & k2 & -> & _).
    rewrite run_app, run_cons. apply run_resolved, He.
    rewrite run_length. exact Hlt. }
  assert (Herr : [OnError i] `sublist_of` events ->
                 imagePromises (run dec events st) !! i = Some Resolved).
  { apply Hone. intros st' Hlt'. apply resolve_resolved, Hlt'. }
  assert (Hplain : dec = false -> [OnLoad i] `sublist_of` events ->
                   imagePromises (run dec events st) !! i = Some Resolved).
  { intros ->. apply Hone. intros st' Hlt'. apply resolve_resolved, Hlt'. }
  assert (Hdecode : forall ok, dec = true ->
    [OnLoad i; DecodeSettled i ok] `sublist_of` events ->
    imagePromises (run dec events st) !! i = Some Resolved).
  { intros ok -> Hin. apply sublist_cons_l in Hin.
    destruct Hin as (k1 & k2 & -> & Hin). apply sublist_cons_l in Hin.
    destruct Hin as (k3 & k4 & -> & _).
    rewrite run_app, run_cons, run_app, run_cons.
    apply run_resolved, decode_resolved, run_started. cbn [step].
    apply onload_started. rewrite run_length. exact Hlt. }
  destruct o, dec; cbn [outcome_events] in Hsub; eauto.
Qed.

Lemma delivered_settles dec color outcomes events :
  length outcomes = FRAME_COUNT -> delivered dec outcomes events ->
  settled (run dec events (preloadImages color)).
Proof.
  intros Hlen Hall. unfold settled. apply all_resolved_Forall.
  apply Forall_lookup. intros i slot Hi.
  assert (Hi' : (i < FRAME_COUNT)%nat).
  { apply lookup_lt_Some in Hi. rewrite run_length in Hi.
    cbn [preloadImages imagePromises] in Hi.
    rewrite length_fmap, length_seq in Hi. exact Hi. }
  destruct (lookup_lt_is_Some_2 outcomes i) as [o Ho]; [lia|].
  rewrite (outcome_resolves dec i o) in Hi.
  - congruence.
  - cbn [preloadImages imagePromises]. rewrite length_fmap, length_seq. exact Hi'.
  - apply Hall, Ho.
Qed.

Lemma deliver_cons dec outcomes i order :
  deliver dec outcomes (i :: order)
  = ((match outcomes !! i with
      | Some o => outcome_events dec i o
      | None => []
      end) ++ deliver dec outcomes order)%list.
Proof. reflexivity. Qed.

(** Delivering frame by frame, in any order that mentions every frame,
    is one way for all frames to reach their outcomes. *)
Lemma deliver_delivered dec outcomes order :
  (forall i, (i < length outcomes)%nat -> i ∈ order) ->
  delivered dec outcomes (deliver dec outcomes order).
Proof.
  intros Hall i o Ho.
  assert (Hin : i ∈ order) by (apply Hall; eapply lookup_lt_Some; exact Ho).
  clear Hall. induction order as [|j order IH]; [inversion Hin|].
  rewrite deliver_cons.
  destruct (decide (i = j)) as [<-|Hne].
  - rewrite Ho. apply sublist_inserts_r. reflexivity.
  - apply sublist_inserts_l, IH.
    apply elem_of_cons in Hin. destruct Hin; [contradiction|assumption].
Qed.

(** Only the then-callback starts the timer and only time runs it down. *)
Lemma step_timer_kept dec e st remaining :
  Inv st -> graceTimer st = Some remaining ->
  (forall ms, e <> Elapse ms) ->
  graceTimer (step dec e st) = Some remaining.
Proof.
  intros [HA HT] Ht He. rewrite Ht in HT. destruct HT as (Hs & _).
  assert (Hres : forall i, graceTimer (resolve i st) = Some remaining).
  { intros i. unfold resolve. rewrite Hs, andb_false_r. exact Ht. }
  destruct e as [i|i|i ok|ms]; cbn [step].
  - unfold onload. destruct dec; [exact Ht|apply Hres].
  - apply Hres.
  - destruct (imagePromises st !! i) as [[| |]|]; try exact Ht. apply Hres.
  - destruct (He ms eq_refl).
Qed.

Lemma step_timer_fired dec e st :
  allSettled st = true -> graceTimer st = None ->
  graceTimer (step dec e st) = None.
Proof.
  intros Hs Ht.
  assert (Hres : forall i, graceTimer (resolve i st) = None).
  { intros i. unfold resolve. rewrite Hs, andb_false_r. exact Ht. }
  destruct e as [i|i|i ok|ms]; cbn [step].
  - unfold onload. destruct dec; [exact Ht|apply Hres].
  - apply Hres.
  - destruct (imagePromises st !! i) as [[| |]|]; try exact Ht. apply Hres.
  - unfold elapse. rewrite Ht. exact Ht.
Qed.

Lemma step_just_settled dec e st :
  Inv st -> allSettled st = false -> allSettled (step dec e st) = true ->
  graceTimer (step dec e st) = Some GRACE_DELAY.
Proof.
  intros [HA HT] Hs.
  assert (Hres : forall i, allSettled (resolve i st) = true ->
                           graceTimer (resolve i st) = Some GRACE_DELAY).
  { intros i. unfold resolve. rewrite Hs, andb_true_r.
    destruct (all_resolved _); project; [reflexivity|congruence]. }
  destruct e as [i|i|i ok|ms]; cbn [step].
  - unfold onload. destruct dec; [project; congruence|apply Hres].
  - apply Hres.
  - destruct (imagePromises st !! i) as [[| |]|]; try congruence. apply Hres.
  - unfold elapse. destruct (graceTimer st); [|congruence].
    destruct (_ <=? _)%N; project; congruence.
Qed.

(** With the timer running, ready is reached exactly when the time left
    on it has passed. *)
Lemma timer_ready_elapsed dec events : forall st remaining,
  Inv st -> graceTimer st = Some remaining ->
  imagesPreloaded (run dec events st) = true -> (remaining <= elapsed events)%N.
Proof.
  induction events as [|e events IH]; intros st r HI Ht Hready.
  - destruct HI as [_ HT]. rewrite Ht in HT. cbn in Hready.
    destruct HT as (_ & Hp & _). congruence.
  - rewrite run_cons in Hready.
    destruct e as [i|i|i ok|ms]; cbn [elapsed].
    1-3: refine (IH _ r (step_Inv _ _ _ HI) _ Hready);
         apply step_timer_kept; [exact HI|exact Ht|intros ?; discriminate].
    cbn [step] in Hready. unfold elapse in Hready.
    destruct (N.leb_spec r ms) as [Hle|Hgt]; [lia|].
    pose proof (elapse_Inv ms st HI) as HI'. unfold elapse in HI'.
    rewrite Ht in Hready, HI'.
    destruct (N.leb_spec r ms) as [Hle|_]; [lia|].
    specialize (IH _ (r - ms)%N HI' eq_refl Hready). lia.
Qed.

Lemma elapsed_timer_ready dec events : forall st,
  Inv st -> allSettled st = true ->
  match graceTimer st with
  | Some remaining => (remaining <= elapsed events)%N
  | None => True
  end ->
  imagesPreloaded (run dec events st) = true.
Proof.
  induction events as [|e events IH]; intros st HI Hs Hrem.
  - destruct HI as [_ HT]. cbn.
    destruct (graceTimer st) as [r|]; [|congruence].
    cbn in Hrem. destruct HT as (_ & _ & Hr). lia.
  - rewrite run_cons.
    assert (Hs' : allSettled (step dec e st) = true).
    { apply (step_Inv dec e) in HI as HI'. apply HI'.
      destruct HI as [HA _]. apply HA in Hs. unfold settled in *.
      apply all_resolved_Forall, Forall_lookup. intros j s Hj.
      assert (Hlt : (j < length (imagePromises st))%nat).
      { apply lookup_lt_Some in Hj. rewrite step_length in Hj. exact Hj. }
      destruct (lookup_lt_is_Some_2 _ _ Hlt) as [s0 Hs0].
      pose proof (all_resolved_lookup _ _ _ Hs Hs0) as ->.
      rewrite (step_resolved dec e st j Hs0) in Hj. congruence. }
    apply IH; [apply step_Inv, HI|exact Hs'|].
    destruct (graceTimer st) as [r|] eqn:Ht.
    + destruct e as [i|i|i ok|ms];
        try (rewrite (step_timer_kept dec _ st r HI Ht) by (intros ?; discriminate);
             exact Hrem).
      cbn [step]. unfold elapse. rewrite Ht.
      destruct (N.leb_spec r ms); project; [exact I|].
      cbn [elapsed] in Hrem. lia.
    + rewrite (step_timer_fired dec e st Hs Ht). exact I.
Qed.

Lemma ready_split dec events : forall st,
  Inv st -> allSettled st = false ->
  imagesPreloaded (run dec events st) = true ->
  exists pre post,
    events = (pre ++ post)%list /\ settled (run dec pre st)
    /\ (GRACE_DELAY <= elapsed post)%N.
Proof.
  induction events as [|e events IH]; intros st HI Hs Hready.
  - destruct HI as [_ HT]. cbn in Hready.
    destruct (graceTimer st) as [r|]; [destruct HT|]; congruence.
  - rewrite run_cons in Hready.
    destruct (allSettled (step dec e st)) eqn:Hs'.
    + exists [e], events. split; [reflexivity|]. split.
      * apply (step_Inv dec e st HI). exact Hs'.
      * apply (timer_ready_elapsed dec events (step dec e st));
          [apply step_Inv, HI|apply step_just_settled; assumption|exact Hready].
    + destruct (IH _ (step_Inv dec e st HI) Hs' Hready)
        as (pre & post & -> & Hpre & Hpost).
      exists (e :: pre), post. split; [reflexivity|]. split; assumption.
Qed.

Lemma split_ready dec color pre post :
  settled (run dec pre (preloadImages color)) ->
  (GRACE_DELAY <= elapsed post)%N ->
  imagesPreloaded (run dec (pre ++ post) (preloadImages color)) = true.
Proof.
  intros Hpre Hpost. rewrite run_app.
  pose proof (run_Inv dec pre _ (Inv_preloadImages color)) as HI.
  apply elapsed_timer_ready; [exact HI|apply HI; exact Hpre|].
  destruct HI as [_ HT].
  destruct (graceTimer _) as [r|]; [|exact I].
  destruct HT as (_ & _ & Hr). lia.
Qed.

(** How one event can change the promise of frame [i]. *)
Lemma step_slot dec e st i slot :
  imagePromises (step dec e st) !! i = Some slot ->
  imagePromises st !! i = Some slot
  \/ (slot = Resolved
      /\ (e = OnError i \/ (e = OnLoad i /\ dec = false)
          \/ exists ok, e = DecodeSettled i ok
                        /\ imagePromises st !! i = Some Decoding))
  \/ (slot = Decoding /\ e = OnLoad i /\ dec = true).
Proof.
  assert (Hres : forall j,
            imagePromises (resolve j st) !! i = Some slot ->
            imagePromises st !! i = Some slot \/ (slot = Resolved /\ j = i)).
  { intros j. rewrite resolve_slots.
    destruct (decide (j = i)) as [->|Hne].
    - intros H. right. split; [|reflexivity].
      assert (Hlt : (i < length (imagePromises st))%nat).
      { apply lookup_lt_Some in H. rewrite length_insert in H. exact H. }
      rewrite list_lookup_insert_eq in H by exact Hlt. congruence.
    - rewrite list_lookup_insert_ne by exact Hne. auto. }
  destruct e as [j|j|j ok|ms]; cbn [step].
  - unfold onload. destruct dec.
    + project. destruct (imagePromises st !! j) as [[| |]|] eqn:Hj; auto.
      destruct (decide (j = i)) as [->|Hne].
      * intros H. right. right.
        rewrite list_lookup_insert_eq in H by (eapply lookup_lt_Some; exact Hj).
        split; [congruence|]. split; reflexivity.
      * rewrite list_lookup_insert_ne by exact Hne. auto.
    + intros H. destruct (Hres j H) as [H'|[-> ->]]; [auto|].
      right. left. split; [reflexivity|]. right. left. split; reflexivity.
  - intros H. destruct (Hres j H) as [H'|[-> ->]]; [auto|].
    right. left. split; [reflexivity|]. left. reflexivity.
  - destruct (imagePromises st !! j) as [[| |]|] eqn:Hj; auto.
    intros H. destruct (Hres j H) as [H'|[-> ->]]; [auto|].
    right. left. split; [reflexivity|]. right. right. exists ok. split; [reflexivity|exact Hj].
  - unfold elapse. destruct (graceTimer st) as [r|]; [|auto].
    destruct (r <=? ms)%N; project; auto.
Qed.

(** A promise is resolved only through the events of an outcome of its
    frame, and a decode is outstanding only after [onload]. *)
Lemma resolved_delivered dec color i events :
  let st := run dec events (preloadImages color) in
  (imagePromises st !! i = Some Decoding ->
     dec = true /\ [OnLoad i] `sublist_of` events)
  /\ (imagePromises st !! i = Some Resolved ->
      exists o, outcome_events dec i o `sublist_of` events).
Proof.
  induction events as [|e events IH] using rev_ind.
  - cbn [run foldl preloadImages imagePromises]. rewrite list_lookup_fmap.
    destruct (seq 1 FRAME_COUNT !! i); cbn; split; discriminate.
  - cbn zeta in *. rewrite run_app. cbn [run foldl].
    change (foldl (fun acc e0 => step dec e0 acc) (preloadImages color) events)
      with (run dec events (preloadImages color)).
    set (st := run dec events (preloadImages color)) in *.
    destruct IH as [IHd IHr]. split.
    + intros H. apply step_slot in H.
      destruct H as [H|[[H _]|(_ & -> & ->)]]; [|discriminate H|].
      * destruct (IHd H) as [Hdec Hsub]. split; [exact Hdec|].
        apply sublist_inserts_r, Hsub.
      * split; [reflexivity|]. apply sublist_inserts_l. reflexivity.
    + intros H. apply step_slot in H.
      destruct H as [H|[(_ & Hcase)|(H & _)]]; [| |discriminate H].
      * destruct (IHr H) as [o Hsub]. exists o. apply sublist_inserts_r, Hsub.
      * destruct Hcase as [->|[[-> ->]|(ok & -> & Hd)]].
        -- exists LoadFailure. cbn. apply sublist_inserts_l. reflexivity.
        -- exists Success. cbn. apply sublist_inserts_l. reflexivity.
        -- destruct (IHd Hd) as [-> Hsub].
           exists (if ok then Success else DecodeFailure).
           assert (Hboth : [OnLoad i; DecodeSettled i ok]
                             `sublist_of` (events ++ [DecodeSettled i ok])%list).
           { change [OnLoad i; DecodeSettled i ok]
               with ([OnLoad i] ++ [DecodeSettled i ok])%list.
             apply sublist_app; [exact Hsub|reflexivity]. }
           destruct ok; exact Hboth.
Qed.

Lemma settled_frames dec color events :
  let st := run dec events (preloadImages color) in
  length (imagePromises st) = 100%nat
  /\ (settled st <->
      forall i, (i < 100)%nat -> imagePromises st !! i = Some Resolved).
Proof.
  intros st.
  assert (Hlen : length (imagePromises st) = 100%nat).
  { unfold st. rewrite run_length. cbn [preloadImages imagePromises].
    rewrite length_fmap, length_seq. reflexivity. }
  split; [exact Hlen|].
  unfold settled. rewrite all_resolved_Forall, Forall_lookup. split.
  - intros H i Hi.
    destruct (lookup_lt_is_Some_2 (imagePromises st) i) as [slot Hslot]; [lia|].
    rewrite Hslot. f_equal. eapply H. exact Hslot.
  - intros H i slot Hslot.
    assert (Hi : (i < 100)%nat) by (rewrite <- Hlen; eapply lookup_lt_Some; exact Hslot).
    rewrite (H i Hi) in Hslot. congruence.
Qed.

(** C9. Whatever the outcome of each of the 100 frames (loaded, failed
    to load, failed to decode) and however the events interleave, once every
    frame has reached its outcome every promise is resolved; the flag, down
    from the start, is then still down while less than 100 ms have passed
    and up once 100 ms have passed after that; and over any sequence of
    events the flag is up only with all promises resolved, and exactly when
    the sequence splits into a part after which all promises are resolved
    and a part lasting at least 100 ms.  The promises are those of the 100
    frames: there are always exactly 100 of them, all are resolved exactly
    when each of the frames 1 to 100 is, and the flag is up exactly when the
    sequence splits into a part during which every one of the 100 frames
    reached an outcome (its load failed, or it loaded and, where images can
    be decoded, its decode settled) and a part lasting at least 100 ms: the
    flag is never up before all 100 outcomes. *)
Theorem preload_settles (decodeSupported : bool) (color : option string)
    (outcomes : list Outcome) (events later trace : list Event) :
  length outcomes = FRAME_COUNT ->
  delivered decodeSupported outcomes events ->
  let start := preloadImages color in
  imagesPreloaded start = false
  /\ settled (run decodeSupported events start)
  /\ ((elapsed events < 100)%N ->
      imagesPreloaded (run decodeSupported events start) = false)
  /\ ((100 <= elapsed later)%N ->
      imagesPreloaded (run decodeSupported (events ++ later) start) = true)
  /\ (imagesPreloaded (run decodeSupported trace start) = true ->
      settled (run decodeSupported trace start))
  /\ (imagesPreloaded (run decodeSupported trace start) = true
      <-> exists pre post,
            trace = (pre ++ post)%list
            /\ settled (run decodeSupported pre start)
            /\ (100 <= elapsed post)%N)
  /\ length (imagePromises (run decodeSupported trace start)) = 100%nat
  /\ (settled (run decodeSupported trace start)
      <-> forall i, (i < 100)%nat ->
            imagePromises (run decodeSupported trace start) !! i = Some Resolved)
  /\ (imagesPreloaded (run decodeSupported trace start) = true
      <-> exists pre post,
            trace = (pre ++ post)%list
            /\ (forall i, (i < 100)%nat ->
                  exists o, outcome_events decodeSupported i o `sublist_of` pre)
            /\ (100 <= elapsed post)%N).
Proof.
  intros Hlen Hall start.
  pose proof (delivered_settles decodeSupported color outcomes events Hlen Hall)
    as Hsettled.
  assert (Hsplit : imagesPreloaded (run decodeSupported trace start) = true
                   <-> exists pre post,
                         trace = (pre ++ post)%list
                         /\ settled (run decodeSupported pre start)
                         /\ (100 <= elapsed post)%N).
  { split.
    - apply ready_split; [apply Inv_preloadImages|reflexivity].
    - intros (pre & post & -> & Hpre & Hpost). apply split_ready; assumption. }
  split; [reflexivity|].
  split; [exact Hsettled|].
  split; [|split; [|split; [|split; [exact Hsplit|]]]].
  - intros Hshort.
    destruct (imagesPreloaded (run decodeSupported events start)) eqn:Hready;
      [exfalso|reflexivity].
    destruct (ready_split decodeSupported _ start (Inv_preloadImages color)
                eq_refl Hready) as (pre & post & Heq & _ & Hpost).
    rewrite Heq, elapsed_app in Hshort. unfold GRACE_DELAY in Hpost. lia.
  - intros Hlater. apply split_ready; assumption.
  - apply Inv_ready_settled, run_Inv, Inv_preloadImages.
  - split; [apply settled_frames|]. split; [apply settled_frames|].
    rewrite Hsplit. split.
    + intros (pre & post & Heq & Hpre & Hpost).
      exists pre, post. split; [exact Heq|]. split; [|exact Hpost].
      intros i Hi. apply (resolved_delivered decodeSupported color i pre).
      apply (settled_frames decodeSupported color pre); assumption.
    + intros (pre & post & Heq & Hpre & Hpost).
      exists pre, post. split; [exact Heq|]. split; [|exact Hpost].
      apply (settled_frames decodeSupported color pre). intros i Hi.
      destruct (Hpre i Hi) as [o Ho].
      apply (outcome_resolves decodeSupported i o pre); [|exact Ho].
      cbn [preloadImages imagePromises]. rewrite length_fmap, length_seq.
      exact Hi.
Qed.

Lemma preload_settles_witness :
  let arrivals := Elapse 250 :: deliver true mostly_failing (seq 0 FRAME_COUNT) in
  let loaded := run true arrivals (preloadImages (Some "red")) in
  settled loaded
  /\ imagesPreloaded loaded = false
  /\ imagesPreloaded (run true [Elapse 99] loaded) = false
  /\ imagesPreloaded (run true [Elapse 60; Elapse 40] loaded) = true
  /\ length (imagePromises loaded) = 100%nat
  /\ imagePromises loaded !! 99%nat = Some Resolved.
Proof.
  intros arrivals loaded.
  assert (Hall : delivered true mostly_failing arrivals).
  { intros i o Ho. apply sublist_cons.
    apply deliver_delivered; [|exact Ho].
    intros j Hj. apply elem_of_seq. cbn in Hj. unfold FRAME_COUNT. lia. }
  destruct (preload_settles true (Some "red") mostly_failing arrivals
              [Elapse 60; Elapse 40] arrivals eq_refl Hall)
    as (_ & Hsettled & _ & Hup & _ & _ & Hlen & Hframes & _).
  split; [exact Hsettled|].
  split; [reflexivity|]. split; [reflexivity|].
  split; [unfold loaded; rewrite <- run_app; apply Hup; vm_compute; discriminate|].
  split; [exact Hlen|].
  apply Hframes; [exact Hsettled|lia].
Defined.

End PreloadSpec.

(** ** More on the colour rotation *)

Module ColorMore.

Import Color ColorFacts.

Lemma randomIndex_hits (k : nat) (pool : list string) :
  (k < length pool)%nat ->
  let random := (Z.of_nat k # Pos.of_nat (length pool))%Q in
  unit_interval random /\ randomIndex random pool = Z.of_nat k.
Proof.
  intros Hk random.
  assert (Hpos : Zpos (Pos.of_nat (length pool)) = Z.of_nat (length pool)).
  { rewrite <- positive_nat_Z, Nat2Pos.id by lia. reflexivity. }
  split.
  - split.
    + unfold random, Qle. cbn [Qnum Qden]. lia.
    + unfold random, Qlt. cbn [Qnum Qden]. rewrite Hpos. lia.
  - unfold randomIndex.
    assert (Heq : (random * inject_Z (Z.of_nat (length pool))
                   == inject_Z (Z.of_nat k))%Q).
    { unfold random, Qeq, Qmult, inject_Z. cbn [Qnum Qden].
      rewrite Pos.mul_1_r, Hpos. ring. }
    rewrite Heq. apply Qfloor_Z.
Qed.

(** X1. Every theme other than the stored one can be drawn: for each such
    theme some value of [Math.random()] makes [getNextColor] return it. *)
Theorem getNextColor_reaches (currentColor : option string) (c : string)
    (localStorage : gmap string string) :
  c ∈ COLORS -> Some c <> localStorage !! lastFeedbackColor ->
  exists random,
    unit_interval random
    /\ fst (getNextColor currentColor random localStorage) = Some c.
Proof.
  intros Hin Hne.
  set (last := localStorage !! lastFeedbackColor) in *.
  assert (Hpool : c ∈ colorPool last).
  { rewrite colorPool_available. unfold availableColors.
    apply list_elem_of_filter. split; assumption. }
  apply list_elem_of_lookup in Hpool. destruct Hpool as [k Hk].
  destruct (randomIndex_hits k (colorPool last)) as [Hunit Hidx].
  { eapply lookup_lt_Some. exact Hk. }
  eexists. split; [exact Hunit|].
  unfold getNextColor. cbn [fst]. fold last. rewrite Hidx.
  unfold Js.index.
  destruct (Z.ltb_spec (Z.of_nat k) 0) as [Hneg|_]; [lia|].
  rewrite Nat2Z.id. exact Hk.
Qed.

Lemma getNextColor_reaches_witness :
  exists random,
    unit_interval random
    /\ fst (getNextColor None random {[ lastFeedbackColor := "red" ]})
       = Some "orange".
Proof.
  apply (getNextColor_reaches None "orange" {[ lastFeedbackColor := "red" ]}).
  - vm_compute. repeat constructor.
  - discriminate.
Defined.

End ColorMore.


(** ** More on the animation engine and the rendered background *)

Module AnimationMore.

Import App AppSpec.

Lemma progress_lt_1 e : (e < 5000)%Q <-> (progress e < 1)%Q.
Proof.
  unfold progress, ANIMATION_DURATION. rewrite Q.min_lt_iff.
  split.
  - intros H. left. apply Qlt_shift_div_r; [reflexivity|lra].
  - intros [H|H]; [|lra].
    destruct (Qlt_le_dec e 5000) as [Hlt|Hge]; [exact Hlt|exfalso].
    assert (1 <= e / 5000)%Q by (apply Qle_shift_div_l; [reflexivity|lra]).
    lra.
Qed.

Lemma frameNumber_range e :
  (0 <= e)%Q -> (1 <= frameNumber e <= 100)%Z.
Proof.
  intros He. split.
  - rewrite <- frameNumber_start. apply frameNumber_mono, He.
  - destruct (Qlt_le_dec e 5000) as [Hlt|Hge].
    + rewrite <- (frameNumber_end 5000) by lra. apply frameNumber_mono. lra.
    + rewrite (frameNumber_end e Hge). lia.
Qed.

Lemma frameNumber_below e : (e < 5000)%Q -> (frameNumber e <= 99)%Z.
Proof.
  intros He. unfold frameNumber, TOTAL_FRAMES.
  apply progress_lt_1 in He.
  assert (Hlt : (progress e * 99 < 99)%Q) by lra.
  pose proof (Qfloor_le (progress e * 99)) as Hfl.
  assert (Hz : (inject_Z (Qfloor (progress e * 99)) < inject_Z 99)%Q).
  { change (inject_Z 99) with 99%Q. lra. }
  rewrite <- Zlt_Qlt in Hz. lia.
Qed.

Lemma animate_continue st timestamp :
  is_Some (backgroundRef st) ->
  (timestamp - startTime timestamp st < 5000)%Q ->
  frameRequested (animate timestamp st) = true
  /\ stage (animate timestamp st) = stage st
  /\ currentImage (animate timestamp st) = currentImage st.
Proof.
  intros [style Hs] He.
  assert (Hp : Js.ltb (progress (timestamp - startTime timestamp st)) 1 = true)
    by (apply JsFacts.ltb_lt, progress_lt_1, He).
  unfold animate. rewrite Hp. cbn. rewrite Hs.
  destruct (negb _); repeat split; reflexivity.
Qed.

Lemma animate_end st timestamp :
  is_Some (backgroundRef st) ->
  (5000 <= timestamp - startTime timestamp st)%Q ->
  frameRequested (animate timestamp st) = false
  /\ stage (animate timestamp st) = floating
  /\ currentImage (animate timestamp st) = 100%Z
  /\ currentFrameRef (animate timestamp st) = 100%Z
  /\ willChange <$> backgroundRef (animate timestamp st) = Some "auto".
Proof.
  intros [style Hs] He.
  assert (Href : currentFrameRef (animate timestamp st)
                 = frameNumber (timestamp - startTime timestamp st))
    by (apply animate_currentFrameRef; eexists; exact Hs).
  assert (Hp : Js.ltb (progress (timestamp - startTime timestamp st)) 1 = false).
  { apply JsFacts.ltb_ge.
    destruct (Qlt_le_dec (progress (timestamp - startTime timestamp st)) 1)
      as [Hlt|Hge]; [|exact Hge].
    apply progress_lt_1 in Hlt. lra. }
  rewrite Href, (frameNumber_end _ He).
  unfold animate, clearWillChange. rewrite Hp.
  cbn. rewrite Hs.
  destruct (negb _); cbn; rewrite ?Hs; cbn; repeat split; reflexivity.
Qed.

(** X2. A callback either asks for another frame and leaves stage and
    tracked image alone (less than 5000 ms elapsed), or ends the run: stage
    [floating], tracked image and shown frame 100, no further callback, and
    the rendering hint taken back. *)
Theorem animate_continues_or_ends (st : State) (timestamp : Q) :
  is_Some (backgroundRef st) ->
  let elapsed := (timestamp - startTime timestamp st)%Q in
  let st' := animate timestamp st in
  ((elapsed < 5000)%Q ->
     frameRequested st' = true /\ stage st' = stage st
     /\ currentImage st' = currentImage st)
  /\ ((5000 <= elapsed)%Q ->
      frameRequested st' = false /\ stage st' = floating
      /\ currentImage st' = 100%Z /\ currentFrameRef st' = 100%Z
      /\ willChange <$> backgroundRef st' = Some "auto").
Proof.
  intros Hbg elapsed st'. split.
  - apply animate_continue, Hbg.
  - apply animate_end, Hbg.
Qed.

Lemma animate_continues_or_ends_witness :
  stage (animate 3000 (animate 1000 playing)) = folding
  /\ stage (animate 6000 (animate 1000 playing)) = floating.
Proof.
  split.
  - destruct (animate_continues_or_ends (animate 1000 playing) 3000)
      as [Hgo _]; [eexists; reflexivity|].
    destruct Hgo as (_ & Hst & _); [reflexivity|]. exact Hst.
  - destruct (animate_continues_or_ends (animate 1000 playing) 6000)
      as [_ Hend]; [eexists; reflexivity|].
    destruct Hend as (_ & Hst & _); [discriminate|]. exact Hst.
Defined.


Lemma append_assoc (a b c : string) : (a ++ b) ++ c = a ++ (b ++ c).
Proof.
  induction a as [|x a IH]; [reflexivity|].
  change (String x ((a ++ b) ++ c) = String x (a ++ (b ++ c))).
  rewrite IH. reflexivity.
Qed.

Lemma pretty_frame (f : Z) : (0 < f)%Z -> pretty f = pretty (Z.to_nat f).
Proof.
  intros Hf. destruct f as [|p|p]; try lia.
  unfold pretty, pretty_Z, pretty_nat, pretty_positive.
  rewrite Z2Nat.inj_pos, positive_nat_N. reflexivity.
Qed.

Lemma frameUrl_src color (f : Z) :
  (0 < f)%Z ->
  frameUrl color f = "url('" ++ Preload.src color (Z.to_nat f) ++ "')".
Proof.
  intros Hf. unfold frameUrl, Preload.src. rewrite (pretty_frame f Hf).
  rewrite !append_assoc. reflexivity.
Qed.

Lemma frames_in_range timestamps : forall st,
  is_Some (backgroundRef st) ->
  (forall s, startTimeRef st = Some s -> Forall (Qle s) timestamps) ->
  Sorted Qlt timestamps ->
  Forall (fun f => (1 <= f <= 100)%Z) (frames timestamps st).
Proof.
  induction timestamps as [|t rest IH]; intros st Hbg Hstart Hs; [constructor|].
  assert (Hss : StronglySorted Qlt (t :: rest)).
  { apply Sorted_StronglySorted; [|exact Hs]. intros x y z. apply Qlt_trans. }
  apply StronglySorted_inv in Hss. destruct Hss as [_ Hall].
  assert (Hle : (startTime t st <= t)%Q).
  { unfold startTime. destruct (startTimeRef st) as [s|] eqn:Hst; [|lra].
    destruct (Qeq_bool s 0); [lra|].
    specialize (Hstart s eq_refl). apply Forall_inv in Hstart. exact Hstart. }
  cbn [frames]. constructor.
  - rewrite (animate_currentFrameRef t st Hbg). apply frameNumber_range. lra.
  - apply IH.
    + apply animate_backgroundRef, Hbg.
    + intros s Hs'. rewrite animate_startTimeRef in Hs'. injection Hs' as <-.
      apply Forall_forall. intros t' Hin.
      rewrite Forall_forall in Hall. specialize (Hall t' Hin). lra.
    + apply Sorted_inv in Hs. apply Hs.
Qed.

(** X3. Along the callbacks of a run (increasing timestamps, started by the
    effect) every frame shown is one of 1..100, and the image put on the
    element is one of the images the preloader requested for the theme. *)
Theorem run_frames_preloaded (st : State) (timestamps : list Q) (f : Z) :
  is_Some (backgroundRef st) -> startTimeRef st = None ->
  Sorted Qlt timestamps -> f ∈ frames timestamps st ->
  (1 <= f <= 100)%Z
  /\ exists path,
       frameUrl (currentColor st) f = "url('" ++ path ++ "')"
       /\ path ∈ Preload.cachedImages (Preload.preloadImages (currentColor st)).
Proof.
  intros Hbg Hstart Hs Hin.
  assert (Hall : Forall (fun f => (1 <= f <= 100)%Z) (frames timestamps st)).
  { apply frames_in_range; [exact Hbg| |exact Hs].
    intros s Hs'. congruence. }
  rewrite Forall_forall in Hall. specialize (Hall f Hin).
  split; [exact Hall|].
  exists (Preload.src (currentColor st) (Z.to_nat f)).
  split; [apply frameUrl_src; lia|].
  cbn [Preload.preloadImages Preload.cachedImages].
  apply list_elem_of_fmap. exists (Z.to_nat f). split; [reflexivity|].
  apply elem_of_seq. unfold Preload.FRAME_COUNT. lia.
Qed.

Lemma run_frames_preloaded_witness :
  (1 <= 50 <= 100)%Z
  /\ exists path,
       frameUrl (currentColor playing) 50 = "url('" ++ path ++ "')"
       /\ path ∈ Preload.cachedImages (Preload.preloadImages (currentColor playing)).
Proof.
  apply (run_frames_preloaded playing [1000; 1016; 3500; 6000]%Q 50).
  - eexists. reflexivity.
  - reflexivity.
  - repeat constructor.
  - vm_compute. do 2 right. left.
Defined.


(** X4. A submit never changes the background the component renders: frame 1
    of the theme before it, and frame 1 after it whether it was accepted or
    refused. *)
Theorem submit_keeps_background (st : State) :
  stage st = form ->
  Render.getBackgroundImage (handleSubmit st) = Render.getBackgroundImage st
  /\ Render.getBackgroundImage st = frameUrl (currentColor st) 1.
Proof.
  intros Hform. split.
  - destruct (decide (acceptable st)) as [Hok|Hno].
    + rewrite (handleSubmit_accept st Hok).
      unfold Render.getBackgroundImage. cbn. rewrite Hform. reflexivity.
    + rewrite (handleSubmit_refuse st Hno). reflexivity.
  - unfold Render.getBackgroundImage. rewrite Hform. reflexivity.
Qed.

Lemma submit_keeps_background_witness :
  Render.getBackgroundImage (handleSubmit (idle ada true None form (Some "green")))
  = "url('/images/green/1.png')".
Proof.
  destruct (submit_keeps_background (idle ada true None form (Some "green")) eq_refl)
    as [Hsame Hone].
  rewrite Hsame, Hone. reflexivity.
Defined.

(** X5. Whenever a callback changes the frame, the element shows the image
    of the new frame; and when the callback that ends the run does so, the
    background the component renders next is the very image the element
    already shows. *)
Theorem animation_hands_over (st : State) (timestamp : Q) :
  is_Some (backgroundRef st) ->
  let st' := animate timestamp st in
  (currentFrameRef st' <> currentFrameRef st ->
     backgroundImage <$> backgroundRef st'
     = Some (frameUrl (currentColor st) (currentFrameRef st')))
  /\ ((5000 <= timestamp - startTime timestamp st)%Q ->
      currentFrameRef st <> 100%Z ->
      backgroundImage <$> backgroundRef st'
      = Some (Render.getBackgroundImage st')).
Proof.
  intros [style Hs] st'.
  assert (Hbg : is_Some (backgroundRef st)) by (eexists; exact Hs).
  assert (Href : currentFrameRef st' = frameNumber (timestamp - startTime timestamp st))
    by (apply animate_currentFrameRef, Hbg).
  assert (Hchange : currentFrameRef st' <> currentFrameRef st ->
     backgroundImage <$> backgroundRef st'
     = Some (frameUrl (currentColor st) (currentFrameRef st'))).
  { intros Hne. rewrite Href in *. subst st'.
    unfold animate, clearWillChange. cbn. rewrite Hs.
    destruct (Z.eqb_spec (frameNumber (timestamp - startTime timestamp st))
                (currentFrameRef st)) as [Heq|_]; [contradiction|].
    cbn. destruct (Js.ltb _ _); reflexivity. }
  split; [exact Hchange|].
  intros He Hnot.
  destruct (animate_end st timestamp Hbg He) as (_ & Hst & Himg & Hfr & _).
  fold st' in Hst, Himg, Hfr.
  rewrite Hchange by congruence.
  unfold Render.getBackgroundImage. rewrite Hst, Himg, Hfr. cbn.
  subst st'. unfold animate, clearWillChange. cbn. rewrite Hs.
  destruct (negb _); cbn; rewrite ?Hs; destruct (Js.ltb _ _); reflexivity.
Qed.

Lemma animation_hands_over_witness :
  backgroundImage <$> backgroundRef (animate 6000 (animate 1000 playing))
  = Some "url('/images/green/100.png')"
  /\ Render.getBackgroundImage (animate 6000 (animate 1000 playing))
     = "url('/images/green/100.png')".
Proof.
  destruct (animation_hands_over (animate 1000 playing) 6000) as [_ Hend];
    [eexists; reflexivity|].
  split.
  - rewrite Hend; [reflexivity|discriminate|discriminate].
  - reflexivity.
Defined.

Lemma animate_hint t st :
  is_Some (backgroundRef st) ->
  (1 <= currentFrameRef st <= frameNumber (t - startTime t st))%Z ->
  Run.hint st <> Some "background-image" ->
  Run.hint (animate t st) <> Some "background-image".
Proof.
  intros [style Hs] [Hone Hle] Hhint.
  unfold Run.hint in *. rewrite Hs in Hhint. cbn in Hhint.
  unfold animate, clearWillChange. cbn. rewrite Hs.
  destruct (Z.eqb_spec (frameNumber (t - startTime t st)) (currentFrameRef st))
    as [Heq|Hne]; cbn.
  - destruct (Js.ltb _ _); cbn; rewrite ?Hs; cbn; [exact Hhint|discriminate].
  - destruct (Z.eqb_spec (frameNumber (t - startTime t st)) 1) as [H1|_]; [lia|].
    destruct (Js.ltb _ _); cbn; [exact Hhint|discriminate].
Qed.

Lemma callbacks_hint timestamps : forall st,
  is_Some (backgroundRef st) ->
  Run.hint st <> Some "background-image" ->
  (1 <= currentFrameRef st)%Z ->
  (forall t rest, timestamps = t :: rest ->
     (currentFrameRef st <= frameNumber (t - startTime t st))%Z) ->
  Sorted Qlt timestamps ->
  Run.hint (Run.callbacks timestamps st) <> Some "background-image".
Proof.
  induction timestamps as [|t rest IH]; intros st Hbg Hhint Hone Hnext Hs;
    [exact Hhint|].
  cbn [Run.callbacks]. destruct (frameRequested st); [|exact Hhint].
  specialize (Hnext t rest eq_refl).
  apply Sorted_inv in Hs. destruct Hs as [Hrest Hhd].
  apply IH.
  - apply animate_backgroundRef, Hbg.
  - apply animate_hint; [exact Hbg|lia|exact Hhint].
  - rewrite (animate_currentFrameRef t st Hbg). lia.
  - intros t2 rest' ->. apply HdRel_inv in Hhd.
    rewrite (animate_currentFrameRef t st Hbg).
    apply frameNumber_mono, animate_elapsed_mono, Hhd.
  - exact Hrest.
Qed.

(** X6. The branch that sets the [will-change] hint to [background-image] is
    never taken in a run: a callback changes the element only when the frame
    differs from the one shown, the run starts at frame 1 and frames never
    go back, so the frame is never 1 when the element changes. The hint the
    element had before the run stays until the run ends and sets it to
    [auto]. *)
Theorem hint_never_set (st : State) (timestamps : list Q) :
  stage st = folding -> imagesPreloaded st = true ->
  is_Some (backgroundRef st) ->
  Run.hint st <> Some "background-image" ->
  Sorted Qlt timestamps ->
  Run.hint (Run.callbacks timestamps (animationEffect st))
  <> Some "background-image".
Proof.
  intros Hst Hready Hbg Hhint Hs.
  assert (Heff : animationEffect st
                 = set_frameRequested true
                     (set_currentFrameRef 1 (set_startTimeRef None st))).
  { unfold animationEffect.
    rewrite (bool_decide_eq_true_2 _ Hst), (bool_decide_eq_true_2 _ Hbg), Hready.
    reflexivity. }
  rewrite Heff. apply callbacks_hint; try assumption.
  - cbn. lia.
  - intros t rest _. cbn.
    rewrite <- frameNumber_start. apply frameNumber_mono.
    unfold startTime. cbn. lra.
Qed.

Lemma hint_never_set_witness :
  Run.hint (Run.callbacks [1000; 1016; 3500; 6000]%Q playing)
  <> Some "background-image".
Proof.
  apply (hint_never_set (handleSubmit (idle ada true None form (Some "green")))
           [1000; 1016; 3500; 6000]%Q eq_refl eq_refl).
  - eexists. reflexivity.
  - discriminate.
  - repeat constructor.
Defined.

End AnimationMore.


(** ** More on the image preloader *)

Module PreloadMore.

Import Preload PreloadSpec.

Lemma append_length (a b : string) :
  String.length (a ++ b) = (String.length a + String.length b)%nat.
Proof.
  induction a as [|x a IH]; [reflexivity|].
  change (S (String.length (a ++ b)) = S (String.length a + String.length b)).
  rewrite IH. reflexivity.
Qed.

Lemma append_inj_r (c a b : string) : a ++ c = b ++ c -> a = b.
Proof.
  revert b. induction a as [|x a IH]; intros [|y b] H.
  - reflexivity.
  - apply (f_equal String.length) in H.
    rewrite !append_length in H. cbn [String.length] in H. lia.
  - apply (f_equal String.length) in H.
    rewrite !append_length in H. cbn [String.length] in H. lia.
  - change (String x (a ++ c) = String y (b ++ c)) in H.
    injection H as -> H. f_equal. apply IH, H.
Qed.

Lemma src_inj color : Inj (=) (=) (src color).
Proof.
  intros i j H. unfold src in H.
  do 3 apply String.app_inj in H.
  apply append_inj_r in H. apply (inj pretty) in H. exact H.
Qed.

Lemma step_cachedImages dec e st :
  cachedImages (step dec e st) = cachedImages st.
Proof.
  destruct e as [i|i|i ok|ms]; cbn [step].
  - unfold onload, resolve. destruct dec; [reflexivity|].
    destruct (_ && _); reflexivity.
  - unfold resolve. destruct (_ && _); reflexivity.
  - destruct (imagePromises st !! i) as [[| |]|]; try reflexivity.
    unfold resolve. destruct (_ && _); reflexivity.
  - unfold elapse. destruct (graceTimer st); [|reflexivity].
    destruct (_ <=? _)%N; reflexivity.
Qed.

Lemma step_cache_kept dec e st : Cache.cache_kept st -> Cache.cache_kept (step dec e st).
Proof.
  unfold Cache.cache_kept. intros H.
  assert (Hres : forall i, imageCache (resolve i st)
                   = if allSettled (resolve i st) then cachedImages (resolve i st)
                     else []).
  { intros i. unfold resolve.
    destruct (all_resolved _); destruct (allSettled st) eqn:Hs;
      cbn [andb negb]; project; rewrite ?Hs; try exact H; reflexivity. }
  destruct e as [i|i|i ok|ms]; cbn [step].
  - unfold onload. destruct dec; [exact H|apply Hres].
  - apply Hres.
  - destruct (imagePromises st !! i) as [[| |]|]; try exact H. apply Hres.
  - unfold elapse. destruct (graceTimer st); [|exact H].
    destruct (_ <=? _)%N; exact H.
Qed.

Lemma run_cache_kept dec events : forall st,
  Cache.cache_kept st -> Cache.cache_kept (run dec events st).
Proof.
  induction events as [|e events IH]; intros st H; [exact H|].
  rewrite run_cons. apply IH, step_cache_kept, H.
Qed.

Lemma run_cachedImages dec events : forall st,
  cachedImages (run dec events st) = cachedImages st.
Proof.
  induction events as [|e events IH]; intros st; [reflexivity|].
  rewrite run_cons, IH. apply step_cachedImages.
Qed.


Lemma framePaths_NoDup color : NoDup (Cache.framePaths color).
Proof.
  unfold Cache.framePaths. apply NoDup_fmap_2; [apply src_inj|apply NoDup_seq].
Qed.

(** X7. Over any sequence of events the cache is empty as long as a promise
    is unresolved, and from the moment all are resolved it holds the 100
    images of the theme, frame 1 to frame 100, each once. *)
Theorem preload_cache (decodeSupported : bool) (color : option string)
    (events : list Event) :
  let l := run decodeSupported events (preloadImages color) in
  (settled l ->
     imageCache l = src color <$> seq 1 100
     /\ length (imageCache l) = 100%nat /\ NoDup (imageCache l))
  /\ (~ settled l -> imageCache l = []).
Proof.
  intros l.
  assert (Hkept : Cache.cache_kept l)
    by (apply run_cache_kept; reflexivity).
  assert (HI : Inv l) by apply run_Inv, Inv_preloadImages.
  unfold Cache.cache_kept in Hkept.
  assert (Hpaths : cachedImages l = src color <$> seq 1 100)
    by (unfold l; rewrite run_cachedImages; reflexivity).
  split; intros Hs.
  - apply HI in Hs. rewrite Hs, Hpaths in Hkept. rewrite Hkept.
    split; [reflexivity|]. split.
    + rewrite length_fmap, length_seq. reflexivity.
    + apply framePaths_NoDup.
  - destruct (allSettled l) eqn:Ha; [|exact Hkept].
    exfalso. apply Hs, HI, Ha.
Qed.

Lemma preload_cache_witness :
  imageCache (run true [OnError 3; Elapse 500] (preloadImages (Some "blue"))) = []
  /\ length (imageCache
               (run true (deliver true mostly_failing (seq 0 FRAME_COUNT))
                  (preloadImages (Some "blue")))) = 100%nat.
Proof.
  split.
  - apply (proj2 (preload_cache true (Some "blue") [OnError 3; Elapse 500])).
    vm_compute. discriminate.
  - apply (proj1 (preload_cache true (Some "blue")
                    (deliver true mostly_failing (seq 0 FRAME_COUNT)))).
    vm_compute. reflexivity.
Defined.

Lemma ready_quiescent st :
  Inv st -> imagesPreloaded st = true -> Cache.quiescent st.
Proof.
  intros HI Hp. pose proof (Inv_ready_settled st HI Hp) as Hs.
  destruct HI as [HA HT].
  assert (Ha : allSettled st = true) by (apply HA, Hs).
  unfold Cache.quiescent. repeat split; try assumption.
  destruct (graceTimer st) as [r|]; [|reflexivity].
  destruct HT as (_ & Hf & _). congruence.
Qed.

(** Nothing that can still happen changes a preload that is done. *)
Lemma quiescent_inert dec e st : Cache.quiescent st -> step dec e st = st.
Proof.
  intros (Hp & Ha & Ht & Hs). unfold settled in Hs.
  destruct st as [flag slots images done timer cache]. cbn in Hp, Ha, Ht, Hs. subst.
  assert (Hins : forall i, <[i := Resolved]> slots = slots).
  { intros i. apply list_insert_id'. intros Hlt.
    destruct (lookup_lt_is_Some_2 _ _ Hlt) as [slot Hi]. rewrite Hi.
    f_equal. apply (all_resolved_lookup _ _ _ Hs Hi). }
  destruct e as [i|i|i ok|ms]; cbn [step].
  - unfold onload, resolve. project. rewrite Hins, andb_false_r.
    destruct dec; [|reflexivity].
    destruct (slots !! i) as [slot|] eqn:Hi; [|reflexivity].
    rewrite (all_resolved_lookup _ _ _ Hs Hi). reflexivity.
  - unfold resolve. project. rewrite Hins, andb_false_r. reflexivity.
  - project. destruct (slots !! i) as [[| |]|]; try reflexivity.
    unfold resolve. project. rewrite Hins, andb_false_r. reflexivity.
  - reflexivity.
Qed.

(** X8. Once the flag is up, no later event changes anything: late or
    repeated load, error and decode callbacks and the passing of time leave
    the preloader exactly as it is, and the flag stays up. *)
Theorem preload_ready_is_final (decodeSupported : bool) (color : option string)
    (events later : list Event) :
  imagesPreloaded (run decodeSupported events (preloadImages color)) = true ->
  run decodeSupported (events ++ later) (preloadImages color)
  = run decodeSupported events (preloadImages color).
Proof.
  intros Hready. rewrite run_app.
  assert (Hq : Cache.quiescent (run decodeSupported events (preloadImages color))).
  { apply ready_quiescent; [apply run_Inv, Inv_preloadImages|exact Hready]. }
  revert Hq. generalize (run decodeSupported events (preloadImages color)).
  induction later as [|e later IH]; intros st Hq; [reflexivity|].
  rewrite run_cons, (quiescent_inert _ _ _ Hq). apply IH, Hq.
Qed.

Lemma preload_ready_is_final_witness :
  let arrivals := (deliver true mostly_failing (seq 0 FRAME_COUNT) ++ [Elapse 100])%list in
  run true (arrivals ++ [OnLoad 7; DecodeSettled 7 true; OnError 99; Elapse 5000])
    (preloadImages (Some "red"))
  = run true arrivals (preloadImages (Some "red")).
Proof.
  intros arrivals.
  apply (preload_ready_is_final true (Some "red") arrivals).
  vm_compute. reflexivity.
Defined.


Lemma resolve_other i j st :
  i <> j -> imagePromises (resolve i st) !! j = imagePromises st !! j.
Proof.
  intros Hne. rewrite resolve_slots. apply list_lookup_insert_ne. exact Hne.
Qed.

(** The callback that closes frame [i] resolves its promise and leaves the
    other promises alone. *)
Lemma closing_one dec slots i st :
  (forall j s, slots !! j = Some s ->
     imagePromises st !! j = Some s \/ imagePromises st !! j = Some Resolved) ->
  let st' := run dec (Cache.closing slots [i]) st in
  (forall j s, slots !! j = Some s ->
     imagePromises st' !! j = Some s \/ imagePromises st' !! j = Some Resolved)
  /\ ((i < length slots)%nat -> imagePromises st' !! i = Some Resolved).
Proof.
  intros Hkeep. unfold Cache.closing. cbn [mbind list_bind]. rewrite app_nil_r.
  destruct (slots !! i) as [slot|] eqn:Hi.
  2:{ cbn. split; [exact Hkeep|]. intros Hlt.
      apply lookup_lt_is_Some_2 in Hlt. destruct Hlt as [s Hs]. congruence. }
  pose proof (Hkeep i slot Hi) as Hcur.
  assert (Hlt : (i < length (imagePromises st))%nat).
  { destruct Hcur as [H|H]; eapply lookup_lt_Some; exact H. }
  assert (Hres : forall st0,
            imagePromises st0 = imagePromises st ->
            (forall j s, slots !! j = Some s ->
               imagePromises (resolve i st0) !! j = Some s
               \/ imagePromises (resolve i st0) !! j = Some Resolved)
            /\ imagePromises (resolve i st0) !! i = Some Resolved).
  { intros st0 Heq. split.
    - intros j s Hj. destruct (decide (i = j)) as [<-|Hne].
      + right. apply resolve_resolved. rewrite Heq. exact Hlt.
      + rewrite (resolve_other i j st0 Hne), Heq. apply Hkeep, Hj.
    - apply resolve_resolved. rewrite Heq. exact Hlt. }
  destruct slot; cbn [run foldl step].
  - destruct (Hres st eq_refl) as [H1 H2]. split; [exact H1|intros _; exact H2].
  - destruct Hcur as [Hcur|Hcur]; rewrite Hcur.
    + destruct (Hres st eq_refl) as [H1 H2]. split; [exact H1|intros _; exact H2].
    + split; [exact Hkeep|intros _; exact Hcur].
  - split; [exact Hkeep|]. intros _. destruct Hcur as [H|H]; exact H.
Qed.

Lemma closing_cons slots j order :
  Cache.closing slots (j :: order)
  = (Cache.closing slots [j] ++ Cache.closing slots order)%list.
Proof.
  unfold Cache.closing. cbn [mbind list_bind]. rewrite app_nil_r. reflexivity.
Qed.

Lemma closing_all dec slots order : forall st,
  (forall j s, slots !! j = Some s ->
     imagePromises st !! j = Some s \/ imagePromises st !! j = Some Resolved) ->
  forall i, i ∈ order -> (i < length slots)%nat ->
    imagePromises (run dec (Cache.closing slots order) st) !! i = Some Resolved.
Proof.
  induction order as [|j order IH]; intros st Hkeep i Hin Hlt; [inversion Hin|].
  rewrite closing_cons, run_app.
  destruct (closing_one dec slots j st Hkeep) as [Hkeep' Hj].
  apply elem_of_cons in Hin. destruct Hin as [->|Hin].
  - apply run_resolved, Hj, Hlt.
  - apply IH; assumption.
Qed.

(** The callbacks still outstanding bring any preload to its end, whatever
    had happened to it before. *)
Lemma outstanding_ready dec st :
  Inv st -> imagesPreloaded (run dec (Cache.outstanding st) st) = true.
Proof.
  intros HI. unfold Cache.outstanding. rewrite run_app.
  set (events := Cache.closing _ _).
  pose proof (run_Inv dec events st HI) as HI'.
  assert (Hs : settled (run dec events st)).
  { unfold settled. apply all_resolved_Forall, Forall_lookup. intros i slot Hi.
    assert (Hlt : (i < length (imagePromises st))%nat).
    { apply lookup_lt_Some in Hi. rewrite run_length in Hi. exact Hi. }
    unfold events in Hi. rewrite closing_all in Hi.
    - congruence.
    - auto.
    - apply elem_of_seq. lia.
    - exact Hlt. }
  apply elapsed_timer_ready; [exact HI'|apply HI', Hs|].
  destruct HI' as [_ HT].
  destruct (graceTimer (run dec events st)) as [r|]; [|exact I].
  destruct HT as (_ & _ & Hr). cbn. lia.
Qed.

End PreloadMore.


(** ** The form's inputs *)

Module RenderSpec.

Import App AppSpec Render.

Lemma handleChange_field field value st f :
  field_value f (formData (handleChange field value st))
  = if decide (field = f) then value else field_value f (formData st).
Proof. destruct field, f; reflexivity. Qed.

Lemma typing_field edits : forall st f,
  field_value f (formData (typing edits st))
  = typed f edits (field_value f (formData st)).
Proof.
  induction edits as [|[g v] edits IH]; intros st f; [reflexivity|].
  change (typing ((g, v) :: edits) st) with (typing edits (handleChange g v st)).
  rewrite IH, handleChange_field. reflexivity.
Qed.

Lemma typing_rest edits : forall st,
  stage (typing edits st) = stage st
  /\ imagesPreloaded (typing edits st) = imagesPreloaded st.
Proof.
  induction edits as [|[g v] edits IH]; intros st; [split; reflexivity|].
  change (typing ((g, v) :: edits) st) with (typing edits (handleChange g v st)).
  destruct (IH (handleChange g v st)) as [-> ->]. split; reflexivity.
Qed.

(** X9. After any sequence of edits each field holds the last value typed
    into it (its earlier value if it was not edited), however the edits of
    the three fields were interleaved; a submit is then accepted exactly
    when these three values are non-empty and the images are ready. *)
Theorem typing_then_submit (st : State) (edits : list (Field * string)) :
  stage st = form ->
  let st' := typing edits st in
  let value f := typed f edits (field_value f (formData st)) in
  formData st' = {| name := value Name; email := value Email;
                    message := value Message |}
  /\ (stage (handleSubmit st') = folding
      <-> value Name <> "" /\ value Email <> "" /\ value Message <> ""
          /\ imagesPreloaded st = true).
Proof.
  intros Hform st' value.
  assert (Hfd : formData st' = {| name := value Name; email := value Email;
                                  message := value Message |}).
  { pose proof (typing_field edits st Name) as Hn.
    pose proof (typing_field edits st Email) as He.
    pose proof (typing_field edits st Message) as Hm.
    fold st' in Hn, He, Hm. destruct (formData st') as [n e m].
    cbn in Hn, He, Hm. subst value. cbn. congruence. }
  split; [exact Hfd|].
  destruct (typing_rest edits st) as [Hst Hready]. fold st' in Hst, Hready.
  assert (Hacc : acceptable st' <->
                 value Name <> "" /\ value Email <> "" /\ value Message <> ""
                 /\ imagesPreloaded st = true).
  { unfold acceptable. rewrite Hfd, Hready. reflexivity. }
  rewrite <- Hacc. split.
  - intros Hfold. destruct (decide (acceptable st')) as [Hok|Hno]; [exact Hok|].
    rewrite (handleSubmit_refuse _ Hno) in Hfold. congruence.
  - intros Hok. rewrite (handleSubmit_accept _ Hok). reflexivity.
Qed.

Lemma typing_then_submit_witness :
  let edits := [(Message, "Hi"); (Name, "A"); (Email, ""); (Name, "Ada");
                (Email, "ada@example.com")] in
  stage (handleSubmit
           (typing edits (idle no_email true None form (Some "green")))) = folding.
Proof.
  intros edits.
  apply (proj2 (typing_then_submit (idle no_email true None form (Some "green"))
                  edits eq_refl)).
  repeat split; discriminate.
Defined.

End RenderSpec.

(** ** The WebSocket connector *)

Module ConnectorSpec.

Import App AppSpec Connector.

Lemma commits_transmitted forms : forall st ws,
  wsRef st = Some ws -> Ws.readyState ws = Ws.OPEN ->
  exists st' ws',
    commits forms st = Ws.Normal st' /\ wsRef st' = Some ws'
    /\ Ws.transmitted ws'
       = (Ws.transmitted ws
          ++ ((fun fd => feedbackFrame fd (currentColor st)) <$> forms))%list.
Proof.
  induction forms as [|fd forms IH]; intros st ws Hws Hopen.
  - exists st, ws. cbn. rewrite app_nil_r. auto.
  - cbn [commits].
    rewrite (handleSwipeUp_open (set_stage floating (set_formData fd st)) ws Hws Hopen).
    match goal with
    | |- context [commits forms (committed (set_wsRef (Some ?w) ?s))] =>
        destruct (IH (committed (set_wsRef (Some w) s)) w eq_refl eq_refl)
          as (st' & ws' & Hrun & Hws' & Htx)
    end.
    exists st', ws'. split; [exact Hrun|]. split; [exact Hws'|].
    rewrite Htx. cbn. rewrite <- app_assoc. reflexivity.
Qed.

Lemma commits_dropped forms : forall st,
  ~ connectionOpen st ->
  exists st', commits forms st = Ws.Normal st' /\ wsRef st' = wsRef st.
Proof.
  induction forms as [|fd forms IH]; intros st Hno; [eauto|].
  cbn [commits].
  rewrite (handleSwipeUp_not_open (set_stage floating (set_formData fd st))) by exact Hno.
  destruct (IH (committed (set_stage floating (set_formData fd st))) Hno)
    as (st' & Hrun & Hws).
  exists st'. split; [exact Hrun|exact Hws].
Qed.

(** X10. On a connection, the registration frame is the first frame and goes
    out when the socket opens; commits made before that are dropped without
    an exception, and commits made after it follow the registration frame,
    one frame per commit and in their order. *)
Theorem registration_first (url : string) (st : State) (forms : list FormData) :
  (exists st',
     commits forms (connectEffect url st) = Ws.Normal st'
     /\ Ws.transmitted <$> wsRef st' = Some [])
  /\ exists ws,
       opened (newWebSocket url) = Ws.Normal ws
       /\ Ws.transmitted ws = [registerFrame]
       /\ exists st',
            commits forms (set_wsRef (Some ws) st) = Ws.Normal st'
            /\ Ws.transmitted <$> wsRef st'
               = Some (registerFrame
                       :: ((fun fd => feedbackFrame fd (currentColor st)) <$> forms)).
Proof.
  split.
  - destruct (commits_dropped forms (connectEffect url st)) as (st' & Hrun & Hws).
    { intros (ws & [= <-] & H). discriminate H. }
    exists st'. split; [exact Hrun|]. rewrite Hws. reflexivity.
  - eexists. split; [reflexivity|]. split; [reflexivity|].
    match goal with
    | |- context [commits forms (set_wsRef (Some ?w) st)] =>
        destruct (commits_transmitted forms (set_wsRef (Some w) st) w eq_refl eq_refl)
          as (st' & ws' & Hrun & Hws & Htx)
    end.
    exists st'. split; [exact Hrun|]. rewrite Hws. cbn. rewrite Htx. reflexivity.
Qed.

(** X11. The cleanup closes an open socket, and no commit transmits anything
    afterwards; a socket that is still connecting is left as it is, so that
    it can still open and send its registration frame after the cleanup. *)
Theorem disconnect_closes_open_only (st : State) (ws : Ws.WebSocket) :
  wsRef st = Some ws ->
  ~ connectionOpen (disconnect st)
  /\ handleSwipeUp (disconnect st) = Ws.Normal (committed (disconnect st))
  /\ (Ws.readyState ws = Ws.OPEN ->
      exists ws', wsRef (disconnect st) = Some ws'
                  /\ Ws.readyState ws' = Ws.CLOSING
                  /\ Ws.transmitted ws' = Ws.transmitted ws)
  /\ (Ws.readyState ws = Ws.CONNECTING ->
      disconnect st = st
      /\ exists ws', opened ws = Ws.Normal ws'
                     /\ Ws.readyState ws' = Ws.OPEN
                     /\ Ws.transmitted ws'
                        = (Ws.transmitted ws ++ [registerFrame])%list).
Proof.
  intros Hws.
  assert (Hno : ~ connectionOpen (disconnect st)).
  { unfold disconnect, connectionOpen, Ws.isOpen, close. rewrite Hws.
    destruct (Ws.readyState ws) eqn:Hrs; cbn; rewrite ?Hws, ?Hrs;
      intros (ws' & [= <-] & H); cbn in H; congruence. }
  split; [exact Hno|].
  split; [apply handleSwipeUp_not_open, Hno|].
  split.
  - intros Hopen. unfold disconnect, Ws.isOpen, close. rewrite Hws, Hopen.
    eexists. repeat split.
  - intros Hconn. split.
    + unfold disconnect, Ws.isOpen. rewrite Hws, Hconn. reflexivity.
    + unfold opened, onopen, Ws.send. rewrite Hconn. cbn.
      eexists. repeat split.
Qed.

Lemma disconnect_closes_open_only_witness :
  (Ws.readyState <$> wsRef (disconnect (idle ada true (Some collector) form None))
   = Some Ws.CLOSING)
  /\ disconnect (connectEffect "ws://localhost:3001" (idle ada true None form None))
     = connectEffect "ws://localhost:3001" (idle ada true None form None).
Proof.
  split.
  - destruct (disconnect_closes_open_only
                (idle ada true (Some collector) form None) collector eq_refl)
      as (_ & _ & Hopen & _).
    destruct (Hopen eq_refl) as (ws' & Hw & Hr & _).
    rewrite Hw. cbn. rewrite Hr. reflexivity.
  - destruct (disconnect_closes_open_only
                (connectEffect "ws://localhost:3001" (idle ada true None form None))
                (newWebSocket "ws://localhost:3001") eq_refl)
      as (_ & _ & _ & Hconn).
    apply Hconn. reflexivity.
Defined.

End ConnectorSpec.


(** ** The running component *)

Module KioskSpec.

Import App AppSpec Kiosk.

Lemma dispatchAll_cons dec e events s :
  dispatchAll dec (e :: events) s = dispatchAll dec events (dispatch dec e s).
Proof. reflexivity. Qed.

Lemma dispatchAll_app dec pre post s :
  dispatchAll dec (pre ++ post) s = dispatchAll dec post (dispatchAll dec pre s).
Proof. unfold dispatchAll. apply foldl_app. Qed.

Lemma dispatchAll_snoc dec events e s :
  dispatchAll dec (events ++ [e]) s = dispatch dec e (dispatchAll dec events s).
Proof. rewrite dispatchAll_app. reflexivity. Qed.

Lemma Consistent_mount url random localStorage :
  Color.unit_interval random -> Consistent (mount url random localStorage).
Proof.
  intros Hr. unfold mount.
  destruct (ColorFacts.getNextColor_spec None random localStorage Hr)
    as (c & Heq & Hin & _).
  rewrite Heq. cbn [fst snd].
  split; cbn.
  - reflexivity.
  - apply PreloadSpec.Inv_preloadImages.
  - reflexivity.
  - reflexivity.
  - congruence.
  - discriminate.
  - discriminate.
  - exists c. split; [reflexivity|]. split; [apply lookup_insert_eq|exact Hin].
  - eexists. reflexivity.
  - eexists. split; [reflexivity|]. cbn.
    split; [reflexivity|]. split; [left; reflexivity|discriminate].
Qed.

(** What flushing the animation effect can change. *)
Lemma flushAnimation_fields rendered next :
  let st := flushAnimation rendered next in
  formData st = formData next /\ stage st = stage next
  /\ currentImage st = currentImage next /\ currentColor st = currentColor next
  /\ touchStart st = touchStart next /\ imagesPreloaded st = imagesPreloaded next
  /\ wsRef st = wsRef next /\ localStorage st = localStorage next
  /\ timeouts st = timeouts next
  /\ (is_Some (backgroundRef next) -> is_Some (backgroundRef st))
  /\ (frameRequested st = true ->
      stage next = folding \/ frameRequested next = true).
Proof.
  destruct next as [fd stg img col ts pre ws fr start bg cur ls tos].
  unfold flushAnimation, animationEffect, animationCleanup, clearWillChange.
  destruct (animationDepsChanged rendered _); [|cbn; tauto].
  destruct (animationActive rendered); cbn;
    destruct bg as [style|]; cbn;
    destruct (bool_decide (stg = folding)) eqn:Hst; cbn;
    try apply bool_decide_eq_true in Hst;
    try destruct pre; cbn;
    repeat split; eauto; try discriminate; tauto.
Qed.

Lemma Consistent_flush rendered next l :
  Consistent {| app := next; loader := l |} ->
  Consistent {| app := flushAnimation rendered next; loader := l |}.
Proof.
  intros [Hflag Hl Hcache Hpaths Hready Hframe Htimer Hcolor Hbg Hsock].
  cbn in *.
  destruct (flushAnimation_fields rendered next)
    as (Hfd & Hst & Him & Hc & Hts & Hp & Hws & Hls & Hto & Hb & Hfr).
  split; cbn; rewrite ?Hst, ?Hc, ?Hp, ?Hws, ?Hls, ?Hto; try assumption.
  - intros H. destruct (Hfr H); auto.
  - apply Hb, Hbg.
Qed.


(** What a frame callback can change. *)
Lemma animate_fields timestamp st :
  let st' := animate timestamp st in
  formData st' = formData st /\ currentColor st' = currentColor st
  /\ touchStart st' = touchStart st /\ imagesPreloaded st' = imagesPreloaded st
  /\ wsRef st' = wsRef st /\ localStorage st' = localStorage st
  /\ timeouts st' = timeouts st
  /\ (is_Some (backgroundRef st) -> is_Some (backgroundRef st'))
  /\ (stage st' = stage st \/ stage st' = floating)
  /\ (frameRequested st' = true -> stage st' = stage st).
Proof.
  destruct st as [fd stg img col ts pre ws fr start bg cur ls tos].
  unfold animate, clearWillChange. cbn.
  destruct (Js.ltb _ _); destruct bg as [style|]; cbn;
    try destruct (negb _); cbn;
    repeat split; eauto; try discriminate.
Qed.

(** What a commit does. *)
Lemma handleSwipeUp_cases st :
  exists w,
    handleSwipeUp st = Ws.Normal (committed (set_wsRef w st))
    /\ (w = wsRef st
        \/ exists ws,
             wsRef st = Some ws /\ Ws.readyState ws = Ws.OPEN
             /\ w = Some {| Ws.url := Ws.url ws; Ws.readyState := Ws.OPEN;
                            Ws.transmitted :=
                              Ws.transmitted ws
                              ++ [Connector.feedbackFrame (formData st)
                                    (currentColor st)] |}).
Proof.
  destruct (wsRef st) as [ws|] eqn:Hws.
  - destruct (Ws.readyState ws) eqn:Hrs.
    2: { eexists. split; [apply (handleSwipeUp_open st ws Hws Hrs)|].
         right. exists ws. repeat split; assumption. }
    all: exists (Some ws); split; [|left; reflexivity];
      rewrite handleSwipeUp_not_open;
      [destruct st; cbn in Hws; subst; reflexivity
      |intros (ws' & Hw & Ho); congruence].
  - exists None. split; [|left; reflexivity].
    rewrite handleSwipeUp_not_open.
    + destruct st; cbn in Hws; subst; reflexivity.
    + intros (ws' & Hw & Ho). congruence.
Qed.

Lemma handleTouchMove_cases clientY st :
  handleTouchMove clientY st = Ws.Normal st
  \/ (stage st = floating /\ handleTouchMove clientY st = handleSwipeUp st).
Proof.
  unfold handleTouchMove.
  destruct (touchStart st) as [start|]; [|left; reflexivity].
  destruct (bool_decide (stage st = floating)) eqn:Hst; [|left; reflexivity].
  apply bool_decide_eq_true in Hst.
  destruct (Js.ltb _ _); [right; split; [exact Hst|reflexivity]|left; reflexivity].
Qed.

Lemma Consistent_commit st l w :
  Consistent {| app := st; loader := l |} -> stage st = floating ->
  (w = wsRef st
   \/ exists ws,
        wsRef st = Some ws /\ Ws.readyState ws = Ws.OPEN
        /\ w = Some {| Ws.url := Ws.url ws; Ws.readyState := Ws.OPEN;
                       Ws.transmitted :=
                         Ws.transmitted ws
                         ++ [Connector.feedbackFrame (formData st)
                               (currentColor st)] |}) ->
  Consistent {| app := committed (set_wsRef w st); loader := l |}.
Proof.
  intros [Hflag Hl Hcache Hpaths Hready Hframe Htimer Hcolor Hbg Hsock] Hst Hw.
  cbn in *.
  split; cbn; try assumption.
  - intros _. apply Hready. congruence.
  - intros H. apply Hframe in H. congruence.
  - destruct (timeouts st) as [|t [|t' rest]]; cbn; [reflexivity|congruence|contradiction].
  - destruct Hsock as (ws0 & Hws0 & Hconn & Hfirst & Hopen).
    destruct Hw as [->|(ws & Hws & Hrs & ->)].
    + exists ws0. auto.
    + assert (ws = ws0) by congruence. subst ws0.
      eexists. split; [reflexivity|]. cbn.
      split; [discriminate|]. split.
      * right. destruct Hfirst as [Hnil|(rest & Hrest)].
        -- destruct (Hopen Hrs Hnil).
        -- rewrite Hrest. eexists. reflexivity.
      * intros _. destruct (Ws.transmitted ws); discriminate.
Qed.


Lemma Consistent_reset st l t random :
  Consistent {| app := st; loader := l |} -> timeouts st = [t] ->
  Color.unit_interval random ->
  let st' := resetCallback t random (set_timeouts [] st) in
  currentColor st' <> currentColor st
  /\ Consistent (restartPreload st {| app := flushAnimation st st'; loader := l |}).
Proof.
  intros [Hflag Hl Hcache Hpaths Hready Hframe Htimer Hcolor Hbg Hsock] Hto Hr st'.
  cbn in *. rewrite Hto in Htimer.
  destruct Hcolor as (c & Hc & Hls & Hin).
  destruct (ColorFacts.getNextColor_spec (closureColor t) random (localStorage st) Hr)
    as (c' & Heq & Hin' & Hne).
  assert (Hcol' : currentColor st' = Some c').
  { subst st'. unfold resetCallback. cbn -[Color.getNextColor].
    rewrite Heq. reflexivity. }
  assert (Hls' : localStorage st' = <[Color.lastFeedbackColor := c']> (localStorage st)).
  { subst st'. unfold resetCallback. cbn -[Color.getNextColor].
    rewrite Heq. reflexivity. }
  assert (Hchanged : currentColor st' <> currentColor st) by congruence.
  split; [exact Hchanged|].
  destruct (flushAnimation_fields st st')
    as (Hfd & Hst & Him & Hcf & Hts & Hp & Hws & Hlsf & Htof & Hb & Hfr).
  unfold restartPreload. cbn [app loader].
  rewrite bool_decide_eq_false_2 by (rewrite Hcf; exact Hchanged).
  apply Consistent_flush. rewrite Hcf, Hcol'.
  split; cbn; rewrite ?Hst, ?Hcf, ?Hws, ?Hlsf, ?Htof.
  - reflexivity.
  - apply PreloadSpec.Inv_preloadImages.
  - reflexivity.
  - rewrite Hcol'. reflexivity.
  - intros H. exfalso. apply H. reflexivity.
  - intros H. destruct (Hfr H) as [Hf|Hf]; [discriminate Hf|].
    subst st'. cbn in Hf. apply Hframe in Hf. congruence.
  - discriminate.
  - exists c'. rewrite Hls'. split; [exact Hcol'|].
    split; [apply lookup_insert_eq|exact Hin'].
  - apply Hb. exact Hbg.
  - exact Hsock.
Qed.

Lemma Consistent_image dec ev st l :
  Consistent {| app := st; loader := l |} ->
  let l' := Preload.step dec ev l in
  let st' :=
    if negb (Preload.imagesPreloaded l) && Preload.imagesPreloaded l'
    then set_imagesPreloaded true st else st in
  Consistent {| app := st'; loader := l' |}.
Proof.
  intros [Hflag Hl Hcache Hpaths Hready Hframe Htimer Hcolor Hbg Hsock] l' st'.
  cbn in *.
  assert (Hkeep : Preload.imagesPreloaded l = true -> l' = l).
  { intros Hp. apply PreloadMore.quiescent_inert, PreloadMore.ready_quiescent;
      assumption. }
  assert (Hflag' : imagesPreloaded st' = Preload.imagesPreloaded l').
  { subst st'. destruct (Preload.imagesPreloaded l) eqn:Hp; cbn.
    - rewrite (Hkeep eq_refl). congruence.
    - destruct (Preload.imagesPreloaded l'); cbn; [reflexivity|exact Hflag]. }
  assert (Hst : stage st' = stage st /\ currentColor st' = currentColor st
                /\ frameRequested st' = frameRequested st
                /\ timeouts st' = timeouts st /\ localStorage st' = localStorage st
                /\ backgroundRef st' = backgroundRef st /\ wsRef st' = wsRef st).
  { subst st'. destruct (_ && _); cbn; repeat split. }
  destruct Hst as (Hs1 & Hs2 & Hs3 & Hs4 & Hs5 & Hs6 & Hs7).
  split; cbn; rewrite ?Hs1, ?Hs2, ?Hs3, ?Hs4, ?Hs5, ?Hs6, ?Hs7; try assumption.
  - apply PreloadSpec.step_Inv, Hl.
  - apply PreloadMore.step_cache_kept, Hcache.
  - unfold l'. rewrite PreloadMore.step_cachedImages. exact Hpaths.
  - intros H. specialize (Hready H). rewrite Hflag'.
    rewrite Hflag in Hready. rewrite (Hkeep Hready). exact Hready.
Qed.

Lemma Consistent_socket_update st l ws ws' :
  Consistent {| app := st; loader := l |} -> wsRef st = Some ws ->
  (Ws.readyState ws' = Ws.CONNECTING -> Ws.transmitted ws' = []) ->
  (Ws.transmitted ws' = []
   \/ exists rest, Ws.transmitted ws' = Connector.registerFrame :: rest) ->
  (Ws.readyState ws' = Ws.OPEN -> Ws.transmitted ws' <> []) ->
  Consistent {| app := set_wsRef (Some ws') st; loader := l |}.
Proof.
  intros [Hflag Hl Hcache Hpaths Hready Hframe Htimer Hcolor Hbg Hsock] Hws H1 H2 H3.
  cbn in *. split; cbn; try assumption.
  exists ws'. auto.
Qed.

(** Every event keeps the invariant. *)
Lemma dispatch_Consistent dec e s : valid e -> Consistent s -> Consistent (dispatch dec e s).
Proof.
  intros Hv HI. destruct s as [st l].
  destruct e as [field value| |timestamp|clientY|clientY|random|ev| |];
    cbn [dispatch app loader with_app].
  - (* Change *)
    destruct (bool_decide (stage st = form)); [|exact HI].
    destruct HI as [Hflag Hl Hcache Hpaths Hready Hframe Htimer Hcolor Hbg Hsock].
    cbn in *. split; cbn; assumption.
  - (* Submit *)
    destruct (bool_decide (stage st = form)) eqn:Hform; [|exact HI].
    apply bool_decide_eq_true in Hform. apply Consistent_flush.
    destruct (decide (acceptable st)) as [Hok|Hno].
    + rewrite (handleSubmit_accept st Hok).
      destruct HI as [Hflag Hl Hcache Hpaths Hready Hframe Htimer Hcolor Hbg Hsock].
      cbn in *. split; cbn; try assumption.
      * intros _. apply Hok.
      * reflexivity.
      * destruct (timeouts st) as [|t [|t' rest]];
          [discriminate|congruence|contradiction].
    + rewrite (handleSubmit_refuse st Hno). exact HI.
  - (* Frame *)
    destruct (frameRequested st) eqn:Hfr; [|exact HI].
    apply Consistent_flush.
    destruct HI as [Hflag Hl Hcache Hpaths Hready Hframe Htimer Hcolor Hbg Hsock].
    cbn in *. specialize (Hframe Hfr).
    destruct (animate_fields timestamp st)
      as (Hfd & Hc & Hts & Hp & Hws & Hls & Hto & Hb & Hst & Hreq).
    split; cbn; rewrite ?Hc, ?Hp, ?Hws, ?Hls, ?Hto; try assumption.
    + intros _. apply Hready. congruence.
    + intros H. rewrite (Hreq H). exact Hframe.
    + destruct (timeouts st) as [|t [|t' rest]];
        [|congruence|contradiction].
      destruct Hst as [->| ->]; congruence.
    + apply Hb, Hbg.
  - (* TouchStart *)
    unfold handleTouchStart.
    destruct (bool_decide (stage st = floating)); [|exact HI].
    destruct HI as [Hflag Hl Hcache Hpaths Hready Hframe Htimer Hcolor Hbg Hsock].
    cbn in *. split; cbn; assumption.
  - (* TouchMove *)
    destruct (handleTouchMove_cases clientY st) as [->|[Hst ->]].
    + apply Consistent_flush, HI.
    + destruct (handleSwipeUp_cases st) as (w & -> & Hw).
      apply Consistent_flush, Consistent_commit; assumption.
  - (* Timer *)
    destruct (timeouts st) as [|t rest] eqn:Hto; [exact HI|].
    assert (rest = []) as ->.
    { destruct HI as [_ _ _ _ _ _ Htimer _ _ _]. cbn in Htimer.
      rewrite Hto in Htimer. destruct rest; [reflexivity|contradiction]. }
    apply (Consistent_reset st l t random HI Hto Hv).
  - (* Image *)
    apply Consistent_flush. apply (Consistent_image dec ev st l HI).
  - (* SocketOpen *)
    destruct (wsRef st) as [ws|] eqn:Hws; [|exact HI].
    pose proof HI as [_ _ _ _ _ _ _ _ _ Hsock]. cbn in Hsock.
    destruct Hsock as (ws0 & Hws0 & Hconn & Hfirst & Hopen).
    assert (ws0 = ws) by congruence. subst ws0.
    unfold Connector.opened, Connector.onopen, Ws.send.
    destruct (Ws.readyState ws) eqn:Hrs; cbn.
    + apply (Consistent_socket_update st l ws); [exact HI|exact Hws| | |]; cbn.
      * discriminate.
      * right. rewrite (Hconn eq_refl). eexists. reflexivity.
      * intros _. destruct (Ws.transmitted ws); discriminate.
    + apply (Consistent_socket_update st l ws); [exact HI|exact Hws|..];
        rewrite ?Hrs; solve [auto|discriminate].
    + apply (Consistent_socket_update st l ws); [exact HI|exact Hws|..];
        rewrite ?Hrs; solve [auto|discriminate].
    + apply (Consistent_socket_update st l ws); [exact HI|exact Hws|..];
        rewrite ?Hrs; solve [auto|discriminate].
  - (* SocketClose *)
    destruct (wsRef st) as [ws|] eqn:Hws; [|exact HI].
    pose proof HI as [_ _ _ _ _ _ _ _ _ Hsock]. cbn in Hsock.
    destruct Hsock as (ws0 & Hws0 & Hconn & Hfirst & Hopen).
    assert (ws0 = ws) by congruence. subst ws0.
    apply (Consistent_socket_update st l ws); [exact HI|exact Hws| | |]; cbn.
    + discriminate.
    + exact Hfirst.
    + discriminate.
Qed.

Lemma dispatchAll_Consistent dec events : forall s,
  Forall valid events -> Consistent s -> Consistent (dispatchAll dec events s).
Proof.
  induction events as [|e events IH]; intros s Hv HI; [exact HI|].
  rewrite dispatchAll_cons. apply IH.
  - eapply Forall_inv_tail. exact Hv.
  - apply dispatch_Consistent; [eapply Forall_inv; exact Hv|exact HI].
Qed.


Lemma Consistent_reached dec url random localStorage events :
  Color.unit_interval random -> Forall valid events ->
  Consistent (reached dec url random localStorage events).
Proof.
  intros Hr Hv. apply dispatchAll_Consistent; [exact Hv|apply Consistent_mount, Hr].
Qed.

Lemma flushAnimation_stage rendered next :
  stage (flushAnimation rendered next) = stage next.
Proof. apply flushAnimation_fields. Qed.

Lemma flushAnimation_color rendered next :
  currentColor (flushAnimation rendered next) = currentColor next.
Proof. apply flushAnimation_fields. Qed.

Lemma restartPreload_fields rendered s :
  stage (app (restartPreload rendered s)) = stage (app s)
  /\ currentColor (app (restartPreload rendered s)) = currentColor (app s).
Proof.
  unfold restartPreload. destruct (bool_decide _); [split; reflexivity|].
  cbn. rewrite flushAnimation_stage, flushAnimation_color. split; reflexivity.
Qed.

Lemma dispatch_stage dec e s :
  Consistent s ->
  stage (app (dispatch dec e s)) = stage (app s)
  \/ (stage (app (dispatch dec e s)) = next_stage (stage (app s))
      /\ leaves (stage (app s)) e).
Proof.
  intros HI. destruct s as [st l].
  pose proof HI as [_ _ _ _ _ Hframe Htimer _ _ _]. cbn in Hframe, Htimer.
  destruct e as [field value| |timestamp|clientY|clientY|random|ev| |];
    cbn [dispatch app loader with_app].
  - destruct (bool_decide _); left; reflexivity.
  - destruct (bool_decide (stage st = form)) eqn:Hform; [|left; reflexivity].
    apply bool_decide_eq_true in Hform.
    cbn [app with_app]. rewrite flushAnimation_stage.
    destruct (decide (acceptable st)) as [Hok|Hno].
    + rewrite (handleSubmit_accept st Hok). right. rewrite Hform. cbn. auto.
    + rewrite (handleSubmit_refuse st Hno). left. reflexivity.
  - destruct (frameRequested st) eqn:Hfr; [|left; reflexivity].
    specialize (Hframe eq_refl).
    cbn [app with_app]. rewrite flushAnimation_stage.
    destruct (animate_fields timestamp st) as (_ & _ & _ & _ & _ & _ & _ & _ & Hst & _).
    destruct Hst as [->| ->]; [left; reflexivity|].
    right. rewrite Hframe. cbn. auto.
  - unfold handleTouchStart. destruct (bool_decide _); left; reflexivity.
  - destruct (handleTouchMove_cases clientY st) as [->|[Hst ->]].
    + cbn [app with_app]. rewrite flushAnimation_stage. left. reflexivity.
    + destruct (handleSwipeUp_cases st) as (w & -> & _).
      cbn [app with_app]. rewrite flushAnimation_stage.
      right. rewrite Hst. cbn. auto.
  - destruct (timeouts st) as [|t rest] eqn:Hto; [left; reflexivity|].
    destruct rest; [|contradiction].
    cbn [with_app loader].
    match goal with
    | |- context [restartPreload st ?x] =>
        destruct (restartPreload_fields st x) as [-> _]
    end.
    cbn [app with_app]. rewrite flushAnimation_stage.
    right. rewrite Htimer. cbn. auto.
  - cbn [app]. rewrite flushAnimation_stage. left. destruct (_ && _); reflexivity.
  - destruct (wsRef st); [destruct (Connector.opened _)|]; left; reflexivity.
  - destruct (wsRef st); left; reflexivity.
Qed.

(** X12. The stage only ever moves one step along the cycle form, folding,
    floating, sent, form; and each move has a single cause: a submit, an
    animation callback, a touch move and the reset timer. *)
Theorem stage_cycle (decodeSupported : bool) (url : string) (random : Q)
    (localStorage : gmap string string) (events : list Input) (e : Input) :
  Color.unit_interval random -> Forall valid events ->
  let s := reached decodeSupported url random localStorage events in
  let s' := dispatch decodeSupported e s in
  stage (app s') = stage (app s)
  \/ (stage (app s') = next_stage (stage (app s)) /\ leaves (stage (app s)) e).
Proof.
  intros Hr Hv s s'. apply dispatch_stage, Consistent_reached; assumption.
Qed.


Lemma valid_loading : Forall valid loading.
Proof.
  apply Forall_forall. intros e He. unfold loading in He.
  apply list_elem_of_fmap in He. destruct He as (ev & -> & _). exact I.
Qed.

Lemma valid_visit : Forall valid visit.
Proof.
  unfold visit. apply Forall_app. split; [apply valid_loading|].
  repeat constructor.
Qed.

Lemma stage_cycle_witness :
  let s := reached true "ws://localhost:3001" (1 # 2) ∅ visit in
  stage (app s) = sent /\ stage (app (dispatch true (Timer (1 # 3)) s)) = form.
Proof.
  intros s. split; [vm_compute; reflexivity|].
  destruct (stage_cycle true "ws://localhost:3001" (1 # 2) ∅ visit (Timer (1 # 3)))
    as [Hsame|[Hnext _]].
  - split; [discriminate|reflexivity].
  - apply valid_visit.
  - exfalso. revert Hsame. vm_compute. discriminate.
  - exact Hnext.
Defined.

(** With the invariant, outside the form stage or with the submit button
    enabled, the preload has settled and the cache holds its images. *)
Lemma Consistent_images s :
  Consistent s ->
  stage (app s) <> form \/ Render.submitDisabled (app s) = false ->
  Preload.settled (loader s)
  /\ Preload.imageCache (loader s)
     = Preload.src (currentColor (app s)) <$> seq 1 100.
Proof.
  intros [Hflag Hl Hcache Hpaths Hready _ _ _ _ _] Hor.
  assert (Hp : Preload.imagesPreloaded (loader s) = true).
  { rewrite <- Hflag. destruct Hor as [Hst|Hdis]; [apply Hready, Hst|].
    unfold Render.submitDisabled in Hdis. apply negb_false_iff in Hdis. exact Hdis. }
  destruct (PreloadMore.ready_quiescent _ Hl Hp) as (_ & Ha & _ & Hs).
  split; [exact Hs|].
  unfold Cache.cache_kept in Hcache. rewrite Ha, Hpaths in Hcache. exact Hcache.
Qed.

(** The preload of the theme on screen always has 100 promises. *)
Lemma dispatch_promises dec e s :
  length (Preload.imagePromises (loader s)) = 100%nat ->
  length (Preload.imagePromises (loader (dispatch dec e s))) = 100%nat.
Proof.
  intros Hlen. destruct s as [st l]. cbn [loader] in Hlen.
  destruct e as [field value| |timestamp|clientY|clientY|random|ev| |];
    cbn [dispatch app loader with_app].
  - destruct (bool_decide _); exact Hlen.
  - destruct (bool_decide _); exact Hlen.
  - destruct (frameRequested st); exact Hlen.
  - exact Hlen.
  - destruct (handleTouchMove clientY st); exact Hlen.
  - destruct (timeouts st) as [|t rest]; [exact Hlen|].
    unfold restartPreload. cbn [app loader with_app].
    destruct (bool_decide _); cbn [loader]; [exact Hlen|].
    cbn [Preload.preloadImages Preload.imagePromises].
    rewrite length_fmap, length_seq. reflexivity.
  - cbn [loader]. rewrite PreloadSpec.step_length. exact Hlen.
  - destruct (wsRef st); [destruct (Connector.opened _)|]; exact Hlen.
  - destruct (wsRef st); exact Hlen.
Qed.

Lemma dispatchAll_promises dec events : forall s,
  length (Preload.imagePromises (loader s)) = 100%nat ->
  length (Preload.imagePromises (loader (dispatchAll dec events s))) = 100%nat.
Proof.
  induction events as [|e events IH]; intros s Hlen; [exact Hlen|].
  rewrite dispatchAll_cons. apply IH, dispatch_promises, Hlen.
Qed.


Lemma dispatch_color_kept dec e s :
  (forall random, e <> Timer random) ->
  currentColor (app (dispatch dec e s)) = currentColor (app s).
Proof.
  intros He. destruct s as [st l].
  destruct e as [field value| |timestamp|clientY|clientY|random|ev| |];
    cbn [dispatch app loader with_app].
  - destruct (bool_decide _); reflexivity.
  - destruct (bool_decide _); [|reflexivity].
    cbn [app with_app]. rewrite flushAnimation_color.
    unfold handleSubmit. repeat (destruct (Js.truthy _); cbn; try reflexivity).
    destruct (imagesPreloaded st); reflexivity.
  - destruct (frameRequested st); [|reflexivity].
    cbn [app with_app]. rewrite flushAnimation_color. apply animate_fields.
  - unfold handleTouchStart. destruct (bool_decide _); reflexivity.
  - destruct (handleTouchMove_cases clientY st) as [->|[Hst ->]].
    + cbn [app with_app]. apply flushAnimation_color.
    + destruct (handleSwipeUp_cases st) as (w & -> & _).
      cbn [app with_app]. rewrite flushAnimation_color. reflexivity.
  - destruct (He random eq_refl).
  - cbn [app]. rewrite flushAnimation_color. destruct (_ && _); reflexivity.
  - destruct (wsRef st); [destruct (Connector.opened _)|]; reflexivity.
  - destruct (wsRef st); reflexivity.
Qed.

Lemma Consistent_sent_timer s :
  Consistent s -> stage (app s) = sent -> exists t, timeouts (app s) = [t].
Proof.
  intros [_ _ _ _ _ _ Htimer _ _ _] Hst.
  destruct (timeouts (app s)) as [|t [|t' rest]];
    [contradiction|eauto|contradiction].
Qed.

Lemma dispatch_reset dec random s t :
  Consistent s -> timeouts (app s) = [t] -> Color.unit_interval random ->
  let st' := resetCallback t random (set_timeouts [] (app s)) in
  currentColor st' <> currentColor (app s)
  /\ dispatch dec (Timer random) s
     = {| app := flushAnimation (flushAnimation (app s) st')
                   (set_imagesPreloaded false (flushAnimation (app s) st'));
          loader := Preload.preloadImages (currentColor st') |}.
Proof.
  intros HI Hto Hr st'. destruct s as [st l]. cbn [app] in *.
  destruct (Consistent_reset st l t random HI Hto Hr) as [Hne _]. fold st' in Hne.
  split; [exact Hne|].
  cbn [dispatch app]. rewrite Hto. fold st'.
  unfold restartPreload. cbn [app loader with_app].
  rewrite bool_decide_eq_false_2; [|rewrite flushAnimation_color; exact Hne].
  rewrite flushAnimation_color. reflexivity.
Qed.

(** With the invariant, the theme changes exactly when the reset timer
    fires in stage [sent], and then to a different one of the six themes. *)
Lemma Consistent_theme dec e s :
  Consistent s -> valid e ->
  let s' := dispatch dec e s in
  (currentColor (app s') <> currentColor (app s)
   <-> stage (app s) = sent /\ exists r, e = Timer r)
  /\ exists c, currentColor (app s') = Some c /\ c ∈ Color.COLORS.
Proof.
  intros HI He s'.
  split.
  - split.
    + intros Hne.
      destruct (decide (stage (app s) = sent)) as [Hst|Hst].
      * split; [exact Hst|].
        destruct e as [| | | | |r| | |]; eauto;
          exfalso; apply Hne, dispatch_color_kept; intros r; discriminate.
      * exfalso. apply Hne. subst s'.
        destruct e as [| | | | |r| | |];
          try (apply dispatch_color_kept; intros r'; discriminate).
        destruct s as [st l]. cbn [dispatch app]. cbn [app] in Hst.
        destruct (timeouts st) as [|t rest] eqn:Hto; [reflexivity|].
        destruct HI as [_ _ _ _ _ _ Htimer _ _ _]. cbn in Htimer.
        rewrite Hto in Htimer. destruct rest; [contradiction|contradiction].
    + intros (Hst & r & ->).
      destruct (Consistent_sent_timer s HI Hst) as [t Hto].
      destruct (dispatch_reset dec r s t HI Hto He) as [Hne Heq].
      subst s'. rewrite Heq. cbn [app].
      rewrite !flushAnimation_color. cbn. rewrite flushAnimation_color. exact Hne.
  - assert (HI' : Consistent s') by (apply dispatch_Consistent; assumption).
    destruct HI' as [_ _ _ _ _ _ _ (c & Hc & _ & Hin) _ _]. eauto.
Qed.



Lemma dispatch_closed_socket dec e s ws :
  wsRef (app s) = Some ws -> Ws.readyState ws = Ws.CLOSED ->
  wsRef (app (dispatch dec e s)) = Some ws.
Proof.
  intros Hws Hrs. destruct s as [st l]. cbn [app] in Hws.
  destruct e as [field value| |timestamp|clientY|clientY|random|ev| |];
    cbn [dispatch app loader with_app].
  - destruct (bool_decide _); exact Hws.
  - destruct (bool_decide _); [|exact Hws].
    cbn [app with_app].
    destruct (flushAnimation_fields st (handleSubmit st))
      as (_ & _ & _ & _ & _ & _ & -> & _).
    unfold handleSubmit. repeat (destruct (Js.truthy _); cbn; try exact Hws).
    destruct (imagesPreloaded st); exact Hws.
  - destruct (frameRequested st); [|exact Hws].
    cbn [app with_app].
    destruct (flushAnimation_fields st (animate timestamp st))
      as (_ & _ & _ & _ & _ & _ & -> & _).
    destruct (animate_fields timestamp st) as (_ & _ & _ & _ & -> & _). exact Hws.
  - unfold handleTouchStart. destruct (bool_decide _); exact Hws.
  - destruct (handleTouchMove_cases clientY st) as [->|[Hst ->]].
    + cbn [app with_app].
      destruct (flushAnimation_fields st st) as (_ & _ & _ & _ & _ & _ & -> & _).
      exact Hws.
    + rewrite (handleSwipeUp_not_open st).
      2:{ intros (ws' & Hws' & Hopen). unfold Ws.isOpen in Hopen. congruence. }
      cbn [app with_app].
      destruct (flushAnimation_fields st (committed st))
        as (_ & _ & _ & _ & _ & _ & -> & _).
      exact Hws.
  - destruct (timeouts st) as [|t rest]; [exact Hws|].
    unfold restartPreload. cbn [app loader with_app].
    destruct (bool_decide _); cbn [app with_app];
      repeat match goal with
             | |- context [wsRef (flushAnimation ?a ?b)] =>
                 destruct (flushAnimation_fields a b)
                   as (_ & _ & _ & _ & _ & _ & -> & _)
             end;
      change (wsRef (set_imagesPreloaded false ?x)) with (wsRef x);
      repeat match goal with
             | |- context [wsRef (flushAnimation ?a ?b)] =>
                 destruct (flushAnimation_fields a b)
                   as (_ & _ & _ & _ & _ & _ & -> & _)
             end; exact Hws.
  - cbn [app].
    match goal with
    | |- context [wsRef (flushAnimation ?a ?b)] =>
        destruct (flushAnimation_fields a b) as (_ & _ & _ & _ & _ & _ & -> & _)
    end.
    destruct (_ && _); exact Hws.
  - rewrite Hws. unfold Connector.opened. rewrite Hrs. reflexivity.
  - rewrite Hws. cbn. f_equal. destruct ws as [u r tx]. cbn in Hrs. subst r.
    reflexivity.
Qed.

(** X16. Once the connection has closed the component never opens another
    one: whatever happens afterwards, the socket it holds stays the closed
    one and nothing more is transmitted, so that every feedback committed
    from then on is dropped. *)
Theorem closed_socket_is_final (decodeSupported : bool) (s : System)
    (ws : Ws.WebSocket) (events : list Input) :
  wsRef (app s) = Some ws -> Ws.readyState ws = Ws.CLOSED ->
  wsRef (app (dispatchAll decodeSupported events s)) = Some ws.
Proof.
  intros Hws Hrs. revert s Hws.
  induction events as [|e events IH]; intros s Hws; [exact Hws|].
  rewrite dispatchAll_cons. apply IH, dispatch_closed_socket; assumption.
Qed.

Lemma closed_socket_is_final_witness :
  let s := reached true "ws://localhost:3001" (1 # 2) ∅ [SocketOpen; SocketClose] in
  Ws.transmitted <$> wsRef (app (dispatchAll true visit s))
  = Some [Connector.registerFrame].
Proof.
  intros s.
  rewrite (closed_socket_is_final true s
             {| Ws.url := "ws://localhost:3001"; Ws.readyState := Ws.CLOSED;
                Ws.transmitted := [Connector.registerFrame] |} visit
             eq_refl eq_refl).
  reflexivity.
Defined.

(** With the invariant, what is pending matches the stage. *)
Lemma Consistent_pending s :
  Consistent s ->
  let st := app s in
  (stage st = sent <-> exists t, timeouts st = [t])
  /\ (stage st <> sent <-> timeouts st = [])
  /\ (frameRequested st = true -> stage st = folding).
Proof.
  intros [_ _ _ _ _ Hframe Htimer _ _ _] st.
  fold st in Hframe, Htimer.
  split; [|split; [|exact Hframe]].
  - destruct (timeouts st) as [|t [|t' rest]]; [|split; eauto|contradiction].
    split; [contradiction|intros [t [=]]].
  - destruct (timeouts st) as [|t [|t' rest]]; [tauto| |contradiction].
    split; [contradiction|discriminate].
Qed.


Lemma flushAnimation_same st : flushAnimation st st = st.
Proof.
  unfold flushAnimation, animationDepsChanged.
  rewrite !bool_decide_eq_true_2 by reflexivity.
  rewrite Bool.eqb_reflx. reflexivity.
Qed.

Lemma flushAnimation_starts rendered next :
  stage rendered <> folding -> stage next = folding ->
  is_Some (backgroundRef next) -> imagesPreloaded next = true ->
  frameRequested (flushAnimation rendered next) = true.
Proof.
  intros Hr Hn Hbg Hp. unfold flushAnimation, animationDepsChanged.
  rewrite (bool_decide_eq_false_2 (stage rendered = stage next)) by congruence.
  cbn [andb negb]. unfold animationActive.
  rewrite (bool_decide_eq_false_2 _ Hr). cbn [andb].
  unfold animationEffect.
  rewrite (bool_decide_eq_true_2 _ Hn), (bool_decide_eq_true_2 _ Hbg), Hp.
  reflexivity.
Qed.

Lemma flushAnimation_continues rendered next :
  stage next = stage rendered -> currentColor next = currentColor rendered ->
  imagesPreloaded next = imagesPreloaded rendered ->
  flushAnimation rendered next = next.
Proof.
  intros Hs Hc Hp. unfold flushAnimation, animationDepsChanged.
  rewrite Hs, Hc, Hp, !bool_decide_eq_true_2 by reflexivity.
  rewrite Bool.eqb_reflx. reflexivity.
Qed.

Lemma animate_folding_requested t st :
  stage (animate t st) = folding -> frameRequested (animate t st) = true.
Proof.
  unfold animate. destruct (Js.ltb _ _); cbn; [reflexivity|discriminate].
Qed.

(** During the animation a callback is always pending. *)
Lemma dispatch_animating dec e s :
  Consistent s ->
  (stage (app s) = folding -> frameRequested (app s) = true) ->
  stage (app (dispatch dec e s)) = folding ->
  frameRequested (app (dispatch dec e s)) = true.
Proof.
  intros HI Hrun. destruct s as [st l]. cbn [app] in Hrun.
  destruct e as [field value| |timestamp|clientY|clientY|random|ev| |].
  - cbn [dispatch app loader with_app].
    destruct (bool_decide (stage st = form)); [|exact Hrun]. exact Hrun.
  - cbn [dispatch app loader with_app].
    destruct (bool_decide (stage st = form)) eqn:Hform; [|exact Hrun].
    apply bool_decide_eq_true in Hform. cbn [app with_app].
    destruct (decide (acceptable st)) as [Hok|Hno].
    + rewrite (handleSubmit_accept st Hok). intros _.
      apply flushAnimation_starts; [congruence|reflexivity| |apply Hok].
      destruct HI as [_ _ _ _ _ _ _ _ Hbg _]. exact Hbg.
    + rewrite (handleSubmit_refuse st Hno), flushAnimation_same. exact Hrun.
  - cbn [dispatch app loader with_app].
    destruct (frameRequested st) eqn:Hfr; [|cbn [app]; rewrite Hfr; exact Hrun].
    cbn [app with_app]. rewrite flushAnimation_stage. intros Hst'.
    assert (Hst : stage st = folding).
    { destruct HI as [_ _ _ _ _ Hframe _ _ _ _]. apply Hframe, Hfr. }
    destruct (animate_fields timestamp st) as (_ & Hc & _ & Hp & _).
    rewrite flushAnimation_continues by congruence.
    apply animate_folding_requested, Hst'.
  - cbn [dispatch app loader with_app]. unfold handleTouchStart.
    destruct (bool_decide (stage st = floating)); exact Hrun.
  - cbn [dispatch app loader with_app].
    destruct (handleTouchMove_cases clientY st) as [->|[Hst ->]].
    + cbn [app with_app]. rewrite flushAnimation_same. exact Hrun.
    + destruct (handleSwipeUp_cases st) as (w & -> & _).
      cbn [app with_app]. rewrite flushAnimation_stage. discriminate.
  - intros Hf.
    destruct (timeouts st) as [|t rest] eqn:Hto.
    + revert Hf. cbn [dispatch app]. rewrite Hto. exact Hrun.
    + exfalso.
      pose proof (dispatch_stage dec (Timer random) _ HI) as Hcase.
      rewrite Hf in Hcase. cbn [app] in Hcase.
      destruct HI as [_ _ _ _ _ _ Htimer _ _ _]. cbn [app] in Htimer.
      rewrite Hto in Htimer.
      assert (Hst : stage st = sent) by (destruct rest; [exact Htimer|contradiction]).
      rewrite Hst in Hcase. destruct Hcase as [Hs|[Hs _]]; discriminate Hs.
  - cbn [dispatch app loader]. rewrite flushAnimation_stage. intros Hf.
    assert (Hst : stage st = folding)
      by (revert Hf; destruct (_ && _); cbn; auto).
    destruct HI as [Hflag _ _ _ Hready _ _ _ _ _]. cbn [app loader] in Hflag, Hready.
    assert (Hp : Preload.imagesPreloaded l = true)
      by (rewrite <- Hflag; apply Hready; congruence).
    rewrite Hp. cbn [negb andb]. rewrite flushAnimation_same. apply Hrun, Hst.
  - cbn [dispatch app loader with_app].
    destruct (wsRef st); [destruct (Connector.opened _)|]; exact Hrun.
  - cbn [dispatch app loader with_app]. destruct (wsRef st); exact Hrun.
Qed.

Lemma dispatchAll_animating dec events : forall s,
  Forall valid events -> Consistent s ->
  (stage (app s) = folding -> frameRequested (app s) = true) ->
  let s' := dispatchAll dec events s in
  stage (app s') = folding -> frameRequested (app s') = true.
Proof.
  induction events as [|e events IH]; intros s Hv HI Hrun; [exact Hrun|].
  cbn zeta. rewrite dispatchAll_cons. apply IH.
  - eapply Forall_inv_tail. exact Hv.
  - apply dispatch_Consistent; [eapply Forall_inv; exact Hv|exact HI].
  - apply dispatch_animating; assumption.
Qed.

Lemma dispatchAll_images dec events : forall s,
  loader (dispatchAll dec (Image <$> events) s) = Preload.run dec events (loader s)
  /\ stage (app (dispatchAll dec (Image <$> events) s)) = stage (app s).
Proof.
  induction events as [|e events IH]; intros s; [split; reflexivity|].
  rewrite fmap_cons, dispatchAll_cons, PreloadSpec.run_cons.
  destruct (IH (dispatch dec (Image e) s)) as [-> ->].
  cbn [dispatch app loader]. rewrite flushAnimation_stage.
  split; [reflexivity|]. destruct (_ && _); reflexivity.
Qed.

Lemma dispatch_fill_submit dec s :
  stage (app s) = form -> imagesPreloaded (app s) = true ->
  stage (app (dispatchAll dec
                [Change Render.Name "A"; Change Render.Email "a";
                 Change Render.Message "a"; Submit] s)) = folding.
Proof.
  intros Hform Hready. destruct s as [st l].
  destruct st as [fd stg img col ts pre ws fr start bg cur ls tos].
  cbn in Hform, Hready. subst stg pre.
  repeat (cbn -[flushAnimation];
          rewrite (bool_decide_eq_true_2 (form = form)) by reflexivity).
  cbn -[flushAnimation]. rewrite flushAnimation_stage. reflexivity.
Qed.

Lemma advance_form dec s :
  Consistent s -> stage (app s) = form ->
  exists events,
    Forall valid events /\ stage (app (dispatchAll dec events s)) = folding.
Proof.
  intros HI Hform.
  set (finish := Cache.outstanding (loader s)).
  set (s1 := dispatchAll dec (Image <$> finish) s).
  assert (Hv : Forall valid (Image <$> finish))
    by (apply Forall_fmap, Forall_forall; intros e _; exact I).
  assert (HI1 : Consistent s1) by (apply dispatchAll_Consistent; assumption).
  destruct (dispatchAll_images dec finish s) as [Hl Hst]. fold s1 in Hl, Hst.
  assert (Hready : imagesPreloaded (app s1) = true).
  { destruct HI1 as [Hflag _ _ _ _ _ _ _ _ _]. rewrite Hflag, Hl.
    apply PreloadMore.outstanding_ready. apply HI. }
  exists ((Image <$> finish)
          ++ [Change Render.Name "A"; Change Render.Email "a";
              Change Render.Message "a"; Submit])%list.
  split.
  - apply Forall_app. split; [exact Hv|repeat constructor].
  - rewrite dispatchAll_app. fold s1. rewrite Hform in Hst.
    apply dispatch_fill_submit; assumption.
Qed.

Lemma startTime_nonzero t st :
  Qeq_bool t 0 = false -> Qeq_bool (startTime t st) 0 = false.
Proof.
  intros Ht. unfold startTime.
  destruct (startTimeRef st) as [s|]; [|exact Ht].
  destruct (Qeq_bool s 0) eqn:Hs; [exact Ht|exact Hs].
Qed.

Lemma startTime_kept t' t st :
  Qeq_bool t 0 = false -> startTime t' (animate t st) = startTime t st.
Proof.
  intros Ht. unfold startTime at 1.
  rewrite animate_startTimeRef, (startTime_nonzero t st Ht). reflexivity.
Qed.

Lemma startTime_first st : startTime (startTime 1 st) st = startTime 1 st.
Proof.
  unfold startTime. destruct (startTimeRef st) as [s|]; [|reflexivity].
  destruct (Qeq_bool s 0); reflexivity.
Qed.

(** A callback at the start time of the run (the first one, or one with
    the timestamp of the first one) and one 5000 ms later end the run. *)
Lemma advance_folding dec s :
  stage (app s) = folding -> frameRequested (app s) = true ->
  is_Some (backgroundRef (app s)) ->
  let t := startTime 1 (app s) in
  stage (app (dispatchAll dec [Frame t; Frame (t + 5000)] s)) = floating.
Proof.
  intros Hst Hfr Hbg t. destruct s as [st l]. cbn [app] in Hst, Hfr, Hbg, t.
  assert (Hzero : Qeq_bool t 0 = false) by (apply startTime_nonzero; reflexivity).
  assert (Hlt : (t - startTime t st < 5000)%Q).
  { unfold t. rewrite startTime_first. lra. }
  destruct (AnimationMore.animate_continue st t Hbg Hlt) as (Hreq & Hst' & _).
  destruct (animate_fields t st) as (_ & Hc & _ & Hp & _).
  cbn [dispatchAll foldl dispatch app with_app]. rewrite Hfr.
  cbn [app with_app]. rewrite (flushAnimation_continues st) by congruence.
  rewrite Hreq. cbn [app with_app]. rewrite flushAnimation_stage.
  apply AnimationMore.animate_end; [apply animate_backgroundRef, Hbg|].
  rewrite (startTime_kept _ t st Hzero).
  unfold t at 2. rewrite startTime_first. fold t. lra.
Qed.

Lemma advance_floating dec s :
  stage (app s) = floating ->
  stage (app (dispatchAll dec [TouchStart 200; TouchMove 0] s)) = sent.
Proof.
  intros Hst. destruct s as [st l]. cbn [app] in Hst.
  cbn [dispatchAll foldl dispatch app with_app]. unfold handleTouchStart.
  rewrite bool_decide_eq_true_2 by exact Hst.
  rewrite (handleTouchMove_above _ 200 0); [|exact Hst|reflexivity|reflexivity].
  destruct (handleSwipeUp_cases (set_touchStart (Some 200%Q) st)) as (w & -> & _).
  cbn [app with_app]. rewrite flushAnimation_stage. reflexivity.
Qed.

Lemma advance_sent dec s :
  Consistent s -> stage (app s) = sent ->
  stage (app (dispatchAll dec [Timer 0] s)) = form.
Proof.
  intros HI Hst.
  destruct (Consistent_sent_timer s HI Hst) as [t Hto].
  assert (Hr : Color.unit_interval 0) by (split; [discriminate|reflexivity]).
  destruct (dispatch_reset dec 0 s t HI Hto Hr) as [_ Heq].
  cbn [dispatchAll foldl]. rewrite Heq. cbn [app].
  rewrite flushAnimation_stage. cbn. rewrite flushAnimation_stage. reflexivity.
Qed.

Lemma advance dec s :
  Consistent s ->
  (stage (app s) = folding -> frameRequested (app s) = true) ->
  exists events,
    Forall valid events
    /\ stage (app (dispatchAll dec events s)) = next_stage (stage (app s)).
Proof.
  intros HI Hrun. destruct (stage (app s)) eqn:Hst; cbn [next_stage].
  - apply advance_form; assumption.
  - exists [Frame (startTime 1 (app s)); Frame (startTime 1 (app s) + 5000)].
    split; [repeat constructor|].
    apply advance_folding; [exact Hst|auto|].
    destruct HI as [_ _ _ _ _ _ _ _ Hbg _]. exact Hbg.
  - exists [TouchStart 200; TouchMove 0].
    split; [repeat constructor|apply advance_floating, Hst].
  - exists [Timer 0]. split; [|apply advance_sent; assumption].
    constructor; [split; [discriminate|reflexivity]|constructor].
Qed.

Lemma advance_iter dec n : forall s,
  Consistent s ->
  (stage (app s) = folding -> frameRequested (app s) = true) ->
  exists events,
    Forall valid events
    /\ stage (app (dispatchAll dec events s)) = Nat.iter n next_stage (stage (app s)).
Proof.
  induction n as [|n IH]; intros s HI Hrun.
  - exists []. split; [constructor|reflexivity].
  - destruct (IH s HI Hrun) as (pre & Hpre & Hst).
    destruct (advance dec (dispatchAll dec pre s)) as (post & Hpost & Hst').
    + apply dispatchAll_Consistent; assumption.
    + apply dispatchAll_animating; assumption.
    + exists (pre ++ post)%list. split; [apply Forall_app; auto|].
      rewrite dispatchAll_app, Hst', Hst. reflexivity.
Qed.

(** X18. The component never gets stuck: from every state it can reach,
    every stage can be reached again. Whatever happened before (images that
    failed, a closed socket, touches and timers at odd moments), the
    preloader can still finish, a filled-in form can still be submitted, the
    animation can still run to its end, the swipe can still be made and the
    reset can still bring the form back. *)
Theorem never_stuck (decodeSupported : bool) (url : string) (random : Q)
    (localStorage : gmap string string) (events : list Input) (target : Stage) :
  Color.unit_interval random -> Forall valid events ->
  exists more,
    Forall valid more
    /\ stage (app (dispatchAll decodeSupported more
                     (reached decodeSupported url random localStorage events)))
       = target.
Proof.
  intros Hr Hv.
  set (s := reached decodeSupported url random localStorage events).
  assert (HI : Consistent s) by (apply Consistent_reached; assumption).
  assert (Hrun : stage (app s) = folding -> frameRequested (app s) = true).
  { apply (dispatchAll_animating decodeSupported events
             (mount url random localStorage) Hv).
    - apply Consistent_mount, Hr.
    - discriminate. }
  assert (Hn : exists n, Nat.iter n next_stage (stage (app s)) = target).
  { destruct (stage (app s)), target;
      first [exists 0%nat; reflexivity|exists 1%nat; reflexivity
            |exists 2%nat; reflexivity|exists 3%nat; reflexivity]. }
  destruct Hn as [n <-]. apply advance_iter; assumption.
Qed.

Lemma never_stuck_witness :
  exists more,
    Forall valid more
    /\ stage (app (dispatchAll true more
                     (reached true "ws://localhost:3001" (1 # 2) ∅ visit)))
       = folding.
Proof.
  apply (never_stuck true "ws://localhost:3001" (1 # 2) ∅ visit folding).
  - split; [discriminate|reflexivity].
  - apply valid_visit.
Defined.


Lemma flushAnimation_wsRef rendered next :
  wsRef (flushAnimation rendered next) = wsRef next.
Proof. apply flushAnimation_fields. Qed.

Lemma traffic_update st ws' :
  (stage st <> form -> filled (formData st)) ->
  traffic (Ws.transmitted ws') ->
  let st' := set_wsRef (Some ws') st in
  (stage st' <> form -> filled (formData st'))
  /\ exists ws, wsRef st' = Some ws /\ traffic (Ws.transmitted ws).
Proof. intros Hfd Htx. split; [exact Hfd|]. exists ws'. split; [reflexivity|exact Htx]. Qed.

(** Outside the form stage the form is filled in, and the socket has
    transmitted the registration frame and complete feedback frames only. *)
Lemma dispatch_traffic dec e s :
  Consistent s ->
  (stage (app s) <> form -> filled (formData (app s))) ->
  (exists ws, wsRef (app s) = Some ws /\ traffic (Ws.transmitted ws)) ->
  let s' := dispatch dec e s in
  (stage (app s') <> form -> filled (formData (app s')))
  /\ exists ws, wsRef (app s') = Some ws /\ traffic (Ws.transmitted ws).
Proof.
  intros HI Hfd Htx. destruct s as [st l]. cbn [app] in Hfd, Htx.
  destruct e as [field value| |timestamp|clientY|clientY|random|ev| |];
    cbn [dispatch app loader with_app]; cbn zeta.
  - destruct (bool_decide (stage st = form)) eqn:Hform; [|split; assumption].
    apply bool_decide_eq_true in Hform. cbn [app with_app].
    split; [intros H; destruct (H Hform)|exact Htx].
  - destruct (bool_decide (stage st = form)); [|split; assumption].
    cbn [app with_app].
    destruct (flushAnimation_fields st (handleSubmit st))
      as (-> & -> & _ & _ & _ & _ & -> & _).
    destruct (decide (acceptable st)) as [Hok|Hno].
    + rewrite (handleSubmit_accept st Hok). cbn. split; [|exact Htx].
      intros _. destruct Hok as (Hn & He & Hm & _). repeat split; assumption.
    + rewrite (handleSubmit_refuse st Hno). split; assumption.
  - destruct (frameRequested st) eqn:Hfr; [|split; assumption].
    cbn [app with_app].
    destruct (flushAnimation_fields st (animate timestamp st))
      as (-> & -> & _ & _ & _ & _ & -> & _).
    destruct (animate_fields timestamp st)
      as (-> & _ & _ & _ & -> & _ & _ & _ & _ & _).
    split; [|exact Htx]. intros _. apply Hfd.
    destruct HI as [_ _ _ _ _ Hframe _ _ _ _]. cbn [app] in Hframe.
    rewrite (Hframe Hfr). discriminate.
  - unfold handleTouchStart.
    destruct (bool_decide (stage st = floating)); split; assumption.
  - destruct (handleTouchMove_cases clientY st) as [->|[Hst ->]].
    + cbn [app with_app]. rewrite flushAnimation_same. split; assumption.
    + destruct (handleSwipeUp_cases st) as (w & -> & Hw).
      cbn [app with_app].
      destruct (flushAnimation_fields st (committed (set_wsRef w st)))
        as (-> & -> & _ & _ & _ & _ & -> & _).
      cbn. split; [intros _; apply Hfd; congruence|].
      destruct Hw as [->|(ws & Hws & Hopen & ->)]; [exact Htx|].
      destruct Htx as (ws0 & Hws0 & Htx). assert (ws0 = ws) by congruence. subst ws0.
      eexists. split; [reflexivity|]. cbn.
      destruct HI as [_ _ _ _ _ _ _ (c & Hc & _ & Hin) _ Hsock].
      cbn [app] in Hc, Hsock.
      destruct Hsock as (ws1 & Hws1 & _ & _ & Hne).
      assert (ws1 = ws) by congruence. subst ws1.
      destruct Htx as [Hnil|(rest & Hrest & Hall)]; [destruct (Hne Hopen Hnil)|].
      right. exists (rest ++ [Connector.feedbackFrame (formData st) (currentColor st)])%list.
      split; [rewrite Hrest; reflexivity|].
      apply Forall_app. split; [exact Hall|].
      constructor; [|constructor].
      exists (formData st), c. rewrite Hc. split; [reflexivity|].
      split; [apply Hfd; congruence|exact Hin].
  - destruct (timeouts st) as [|t rest] eqn:Hto; [split; assumption|].
    set (st' := resetCallback t random (set_timeouts rest st)).
    assert (Hst' : stage st' = form) by reflexivity.
    assert (Hws' : wsRef st' = wsRef st) by reflexivity.
    unfold restartPreload. cbn [app loader with_app].
    destruct (bool_decide _); cbn [app with_app].
    + rewrite flushAnimation_stage, flushAnimation_wsRef, Hws'.
      split; [intros H; destruct (H Hst')|exact Htx].
    + rewrite flushAnimation_stage, flushAnimation_wsRef.
      change (stage (set_imagesPreloaded false ?x)) with (stage x).
      change (wsRef (set_imagesPreloaded false ?x)) with (wsRef x).
      rewrite flushAnimation_stage, flushAnimation_wsRef, Hws'.
      split; [intros H; destruct (H Hst')|exact Htx].
  - cbn [app].
    match goal with
    | |- context [flushAnimation ?a ?b] =>
        destruct (flushAnimation_fields a b) as (-> & -> & _ & _ & _ & _ & -> & _)
    end.
    destruct (_ && _); split; assumption.
  - destruct Htx as (ws & Hws & Htx). rewrite Hws.
    unfold Connector.opened, Connector.onopen, Ws.send.
    destruct (Ws.readyState ws) eqn:Hrs; cbn [app with_app];
      try (apply traffic_update; [exact Hfd|exact Htx]).
    apply traffic_update; [exact Hfd|]. cbn.
    destruct HI as [_ _ _ _ _ _ _ _ _ (ws1 & Hws1 & Hconn & _)].
    cbn [app] in Hws1. assert (ws1 = ws) by congruence. subst ws1.
    rewrite (Hconn Hrs). right. exists []. split; [reflexivity|constructor].
  - destruct Htx as (ws & Hws & Htx). rewrite Hws. cbn [app with_app].
    apply traffic_update; [exact Hfd|exact Htx].
Qed.

Lemma dispatchAll_traffic dec events : forall s,
  Forall valid events -> Consistent s ->
  (stage (app s) <> form -> filled (formData (app s))) ->
  (exists ws, wsRef (app s) = Some ws /\ traffic (Ws.transmitted ws)) ->
  exists ws,
    wsRef (app (dispatchAll dec events s)) = Some ws
    /\ traffic (Ws.transmitted ws).
Proof.
  induction events as [|e events IH]; intros s Hv HI Hfd Htx; [exact Htx|].
  rewrite dispatchAll_cons.
  destruct (dispatch_traffic dec e s HI Hfd Htx) as [Hfd' Htx'].
  apply IH; [eapply Forall_inv_tail; exact Hv| |exact Hfd'|exact Htx'].
  apply dispatch_Consistent; [eapply Forall_inv; exact Hv|exact HI].
Qed.

(** X19. Whatever the visitors do, the socket transmits nothing before the
    registration frame, and every frame after it is the feedback frame of a
    form whose three fields were filled in, with one of the six themes: no
    empty or partial feedback is ever sent. *)
Theorem only_complete_feedback_sent (decodeSupported : bool) (url : string)
    (random : Q) (localStorage : gmap string string) (events : list Input) :
  Color.unit_interval random -> Forall valid events ->
  exists ws,
    wsRef (app (reached decodeSupported url random localStorage events)) = Some ws
    /\ (Ws.transmitted ws = []
        \/ exists rest,
             Ws.transmitted ws = Connector.registerFrame :: rest
             /\ Forall complete_feedback rest).
Proof.
  intros Hr Hv. apply dispatchAll_traffic.
  - exact Hv.
  - apply Consistent_mount, Hr.
  - intros H. destruct (H eq_refl).
  - eexists. split; [reflexivity|]. left. reflexivity.
Qed.

Lemma only_complete_feedback_sent_witness :
  exists ws,
    wsRef (app (reached true "ws://localhost:3001" (1 # 2) ∅ visit)) = Some ws
    /\ traffic (Ws.transmitted ws).
Proof.
  apply (only_complete_feedback_sent true "ws://localhost:3001" (1 # 2) ∅ visit).
  - split; [discriminate|reflexivity].
  - apply valid_visit.
Defined.


(** No touch reference is held while the form or the animation is shown. *)
Lemma dispatch_touchStart dec e s :
  Consistent s ->
  (stage (app s) = form \/ stage (app s) = folding -> touchStart (app s) = None) ->
  let s' := dispatch dec e s in
  stage (app s') = form \/ stage (app s') = folding -> touchStart (app s') = None.
Proof.
  intros HI Hts. destruct s as [st l]. cbn [app] in Hts.
  destruct e as [field value| |timestamp|clientY|clientY|random|ev| |];
    cbn [dispatch app loader with_app]; cbn zeta.
  - destruct (bool_decide (stage st = form)); exact Hts.
  - destruct (bool_decide (stage st = form)) eqn:Hform; [|exact Hts].
    apply bool_decide_eq_true in Hform. cbn [app with_app].
    destruct (flushAnimation_fields st (handleSubmit st))
      as (_ & _ & _ & _ & -> & _).
    intros _. unfold handleSubmit.
    repeat (destruct (Js.truthy _); cbn; auto).
    destruct (imagesPreloaded st); cbn; auto.
  - destruct (frameRequested st) eqn:Hfr; [|exact Hts].
    cbn [app with_app].
    destruct (flushAnimation_fields st (animate timestamp st))
      as (_ & _ & _ & _ & -> & _).
    destruct (animate_fields timestamp st) as (_ & _ & -> & _).
    intros _. apply Hts. right.
    destruct HI as [_ _ _ _ _ Hframe _ _ _ _]. apply Hframe, Hfr.
  - unfold handleTouchStart.
    destruct (bool_decide (stage st = floating)) eqn:Hst; [|exact Hts].
    apply bool_decide_eq_true in Hst. cbn. rewrite Hst.
    intros [H|H]; discriminate H.
  - destruct (handleTouchMove_cases clientY st) as [->|[Hst ->]].
    + cbn [app with_app]. rewrite flushAnimation_same. exact Hts.
    + destruct (handleSwipeUp_cases st) as (w & -> & _).
      cbn [app with_app]. rewrite flushAnimation_stage. cbn.
      intros [H|H]; discriminate H.
  - destruct (timeouts st) as [|t rest] eqn:Hto; [exact Hts|].
    set (st' := resetCallback t random (set_timeouts rest st)).
    assert (Hnone : touchStart st' = None) by reflexivity.
    intros _. unfold restartPreload. cbn [app loader with_app].
    destruct (bool_decide _); cbn [app with_app].
    + destruct (flushAnimation_fields st st') as (_ & _ & _ & _ & -> & _).
      exact Hnone.
    + match goal with
      | |- context [flushAnimation ?a ?b] =>
          destruct (flushAnimation_fields a b) as (_ & _ & _ & _ & -> & _)
      end.
      change (touchStart (set_imagesPreloaded false ?x)) with (touchStart x).
      destruct (flushAnimation_fields st st') as (_ & _ & _ & _ & -> & _).
      exact Hnone.
  - cbn [app].
    match goal with
    | |- context [flushAnimation ?a ?b] =>
        destruct (flushAnimation_fields a b) as (_ & -> & _ & _ & -> & _)
    end.
    destruct (_ && _); exact Hts.
  - destruct (wsRef st); [destruct (Connector.opened _)|]; exact Hts.
  - destruct (wsRef st); exact Hts.
Qed.

Lemma dispatchAll_touchStart dec events : forall s,
  Forall valid events -> Consistent s ->
  (stage (app s) = form \/ stage (app s) = folding -> touchStart (app s) = None) ->
  let s' := dispatchAll dec events s in
  stage (app s') = form \/ stage (app s') = folding -> touchStart (app s') = None.
Proof.
  induction events as [|e events IH]; intros s Hv HI Hts; [exact Hts|].
  cbn zeta. rewrite dispatchAll_cons. apply IH.
  - eapply Forall_inv_tail. exact Hv.
  - apply dispatch_Consistent; [eapply Forall_inv; exact Hv|exact HI].
  - apply dispatch_touchStart; assumption.
Qed.

(** X20. A touch that began before the swipe prompt appeared cannot commit:
    no touch reference is held while the form or the animation is shown, so
    when the animation ends a move alone, whatever its position, leaves the
    stage as it is and transmits nothing; the finger has to be put down
    again while the prompt is shown. *)
Theorem swipe_needs_touch_in_floating (decodeSupported : bool) (url : string)
    (random : Q) (localStorage : gmap string string) (events : list Input)
    (timestamp clientY : Q) :
  Color.unit_interval random -> Forall valid events ->
  let s := reached decodeSupported url random localStorage events in
  let s' := dispatch decodeSupported (Frame timestamp) s in
  stage (app s) = form \/ stage (app s) = folding ->
  touchStart (app s) = None
  /\ touchStart (app s') = None
  /\ dispatch decodeSupported (TouchMove clientY) s' = s'.
Proof.
  intros Hr Hv s s' Hst.
  assert (HI : Consistent s) by (apply Consistent_reached; assumption).
  assert (Hts : stage (app s) = form \/ stage (app s) = folding ->
                touchStart (app s) = None).
  { apply (dispatchAll_touchStart decodeSupported events
             (mount url random localStorage) Hv).
    - apply Consistent_mount, Hr.
    - reflexivity. }
  split; [apply Hts, Hst|].
  assert (Hnone : touchStart (app s') = None).
  { subst s'. destruct s as [st l]. cbn [dispatch app with_app] in *.
    destruct (frameRequested st); [|apply Hts, Hst].
    cbn [app with_app].
    destruct (flushAnimation_fields st (animate timestamp st))
      as (_ & _ & _ & _ & -> & _).
    destruct (animate_fields timestamp st) as (_ & _ & -> & _).
    apply Hts, Hst. }
  split; [exact Hnone|].
  destruct s' as [st' l']. cbn [app] in Hnone.
  cbn [dispatch app with_app]. unfold handleTouchMove. rewrite Hnone.
  cbn [with_app loader]. rewrite flushAnimation_same. reflexivity.
Qed.

Lemma swipe_needs_touch_in_floating_witness :
  let s := reached true "ws://localhost:3001" (1 # 2) ∅
             (loading ++ [Change Render.Name "Ada"; Change Render.Email "a@b.c";
                          Change Render.Message "Hi"; Submit; Frame 1000])%list in
  let s' := dispatch true (Frame 6000) s in
  stage (app s') = floating /\ dispatch true (TouchMove 0) s' = s'.
Proof.
  intros s s'. split; [vm_compute; reflexivity|].
  apply (swipe_needs_touch_in_floating true "ws://localhost:3001" (1 # 2) ∅
           (loading ++ [Change Render.Name "Ada"; Change Render.Email "a@b.c";
                        Change Render.Message "Hi"; Submit; Frame 1000])%list
           6000 0).
  - split; [discriminate|reflexivity].
  - apply Forall_app. split; [apply valid_loading|repeat constructor].
  - right. vm_compute. reflexivity.
Defined.

End KioskSpec.


(** ** The component with deferred renders and superseded preloads *)

Module DeferredSpec.

Import App AppSpec Deferred.

Lemma world_run_cons dec e events w :
  run dec (e :: events) w = run dec events (step dec e w).
Proof. reflexivity. Qed.

Lemma world_run_app dec pre post w :
  run dec (pre ++ post) w = run dec post (run dec pre w).
Proof. unfold run. apply foldl_app. Qed.

Lemma prompt_fmap inputs : prompt (Prompt <$> inputs).
Proof.
  apply Forall_fmap, Forall_forall. intros e _ H. exact H.
Qed.

Lemma valid_fmap inputs : Forall Kiosk.valid inputs -> Forall valid (Prompt <$> inputs).
Proof. intros H. apply Forall_fmap. exact H. Qed.

Lemma handled_fmap inputs : handled (Prompt <$> inputs) = inputs.
Proof.
  unfold handled. induction inputs as [|e inputs IH]; [reflexivity|].
  cbn. f_equal. exact IH.
Qed.

Lemma handled_cons e events :
  handled (e :: events) = (handled [e] ++ handled events)%list.
Proof. destruct e; reflexivity. Qed.

(** A callback of a preload that has nothing outstanding changes nothing. *)
Lemma late_inert dec k e w :
  Forall Cache.quiescent (superseded w) -> late dec k e w = w.
Proof.
  intros Hq. unfold late.
  destruct (superseded w !! k) as [l|] eqn:Hk; [|reflexivity].
  assert (Hl : Cache.quiescent l).
  { rewrite Forall_lookup in Hq. exact (Hq k l Hk). }
  rewrite (PreloadMore.quiescent_inert dec e l Hl).
  destruct Hl as (Hp & Ha & _). rewrite Hp, Ha. cbn [negb andb].
  rewrite (list_insert_id _ _ _ Hk).
  destruct w as [[st ld] sup cl]. reflexivity.
Qed.

(** As long as no touchmove is handled by a stale handler the invariant of
    [Kiosk] holds, the preloads left behind have nothing outstanding, and
    the component is in the state [Kiosk] gives for the handled events. *)
Lemma step_prompt dec e w :
  valid e -> ~ stale e ->
  Kiosk.Consistent (sys w) -> Forall Cache.quiescent (superseded w) ->
  sys (step dec e w) = Kiosk.dispatchAll dec (handled [e]) (sys w)
  /\ Kiosk.Consistent (sys (step dec e w))
  /\ Forall Cache.quiescent (superseded (step dec e w)).
Proof.
  intros Hv Hs HI Hq. destruct e as [e0|clientY|k e0].
  - cbn [step sys superseded handled omap]. cbn in Hv.
    split; [reflexivity|].
    split; [apply KioskSpec.dispatch_Consistent; assumption|].
    destruct (bool_decide _) eqn:Hc; [exact Hq|].
    apply bool_decide_eq_false in Hc. constructor; [|exact Hq].
    destruct (KioskSpec.Consistent_theme dec e0 (sys w) HI Hv) as [[Hch _] _].
    destruct (Hch Hc) as [Hst _].
    destruct HI as [Hflag Hl _ _ Hready _ _ _ _ _].
    apply PreloadMore.ready_quiescent; [exact Hl|].
    rewrite <- Hflag. apply Hready. congruence.
  - destruct (Hs I).
  - cbn [step]. rewrite (late_inert dec k e0 w Hq).
    split; [reflexivity|]. split; assumption.
Qed.

Lemma run_prompt dec events : forall w,
  Forall valid events -> prompt events ->
  Kiosk.Consistent (sys w) -> Forall Cache.quiescent (superseded w) ->
  sys (run dec events w) = Kiosk.dispatchAll dec (handled events) (sys w)
  /\ Kiosk.Consistent (sys (run dec events w))
  /\ Forall Cache.quiescent (superseded (run dec events w)).
Proof.
  induction events as [|e events IH]; intros w Hv Hp HI Hq.
  - split; [reflexivity|]. split; assumption.
  - apply Forall_cons in Hv. destruct Hv as [Hv Hvs].
    apply Forall_cons in Hp. destruct Hp as [Hp Hps].
    destruct (step_prompt dec e w Hv Hp HI Hq) as (Heq & HI' & Hq').
    rewrite world_run_cons.
    destruct (IH (step dec e w) Hvs Hps HI' Hq') as (Heq' & HI'' & Hq'').
    split; [|split; assumption].
    rewrite Heq', Heq.
    rewrite (handled_cons e events), KioskSpec.dispatchAll_app. reflexivity.
Qed.

Lemma reached_prompt dec url random localStorage events :
  Color.unit_interval random -> Forall valid events -> prompt events ->
  let w := reached dec url random localStorage events in
  sys w = Kiosk.reached dec url random localStorage (handled events)
  /\ Kiosk.Consistent (sys w)
  /\ Forall Cache.quiescent (superseded w).
Proof.
  intros Hr Hv Hp w.
  apply (run_prompt dec events (mount url random localStorage) Hv Hp).
  - apply KioskSpec.Consistent_mount, Hr.
  - constructor.
Qed.

(** The preload of the theme on screen always has 100 promises. *)
Lemma step_promises dec e w :
  length (Preload.imagePromises (Kiosk.loader (sys w))) = 100%nat ->
  length (Preload.imagePromises (Kiosk.loader (sys (step dec e w)))) = 100%nat.
Proof.
  intros Hlen. destruct e as [e0|clientY|k e0]; cbn [step].
  - cbn [sys]. apply KioskSpec.dispatch_promises, Hlen.
  - destruct (closure w); [|exact Hlen]. exact Hlen.
  - unfold late. destruct (superseded w !! k); [|exact Hlen].
    cbn [sys Kiosk.loader]. destruct (_ && _); exact Hlen.
Qed.

Lemma reached_promises dec url random localStorage events :
  length (Preload.imagePromises
            (Kiosk.loader (sys (reached dec url random localStorage events))))
  = 100%nat.
Proof.
  unfold reached.
  assert (H0 : length (Preload.imagePromises
                         (Kiosk.loader (sys (mount url random localStorage))))
               = 100%nat).
  { cbn [mount sys Kiosk.mount Kiosk.loader Preload.preloadImages
         Preload.imagePromises].
    rewrite length_fmap, length_seq. reflexivity. }
  revert H0. generalize (mount url random localStorage).
  induction events as [|e events IH]; intros w Hlen; [exact Hlen|].
  rewrite world_run_cons. apply IH, step_promises, Hlen.
Qed.


Lemma valid_prompted : Forall valid prompted.
Proof.
  unfold prompted. apply valid_fmap, Forall_app.
  split; [apply KioskSpec.valid_loading|repeat constructor].
Qed.

(** X13. As long as no touchmove was handled by a stale handler, the
    animation and all that follows it run, and the submit button is enabled,
    only while the preload of the theme on screen has 100 promises, one for
    each of the frames 1 to 100, all of them resolved, and the cache holds
    the 100 images of that theme; callbacks of the preloads of earlier
    themes, which may arrive at any time, make no difference to this. *)
Theorem images_before_animation (decodeSupported : bool) (url : string)
    (random : Q) (localStorage : gmap string string) (events : list Event) :
  Color.unit_interval random -> Forall valid events -> prompt events ->
  let s := sys (reached decodeSupported url random localStorage events) in
  stage (Kiosk.app s) <> form \/ Render.submitDisabled (Kiosk.app s) = false ->
  length (Preload.imagePromises (Kiosk.loader s)) = 100%nat
  /\ (forall i, (i < 100)%nat ->
        Preload.imagePromises (Kiosk.loader s) !! i = Some Preload.Resolved)
  /\ Preload.imageCache (Kiosk.loader s)
     = Preload.src (currentColor (Kiosk.app s)) <$> seq 1 100.
Proof.
  intros Hr Hv Hp s Hor.
  destruct (reached_prompt decodeSupported url random localStorage events Hr Hv Hp)
    as (_ & HI & _). fold s in HI.
  destruct (KioskSpec.Consistent_images s HI Hor) as [Hs Hcache].
  assert (Hlen : length (Preload.imagePromises (Kiosk.loader s)) = 100%nat)
    by apply reached_promises.
  split; [exact Hlen|]. split; [|exact Hcache].
  intros i Hi.
  destruct (lookup_lt_is_Some_2 (Preload.imagePromises (Kiosk.loader s)) i)
    as [slot Hslot]; [lia|].
  rewrite Hslot. f_equal.
  exact (PreloadSpec.all_resolved_lookup _ i slot Hs Hslot).
Qed.

Lemma images_before_animation_witness :
  let s := sys (reached true "ws://localhost:3001" (1 # 2) ∅ prompted) in
  Preload.imagePromises (Kiosk.loader s) !! 99%nat = Some Preload.Resolved
  /\ length (Preload.imageCache (Kiosk.loader s)) = 100%nat.
Proof.
  intros s.
  destruct (images_before_animation true "ws://localhost:3001" (1 # 2) ∅ prompted)
    as (_ & Hall & Hcache).
  - split; [discriminate|reflexivity].
  - apply valid_prompted.
  - apply prompt_fmap.
  - left. vm_compute. discriminate.
  - fold s in Hall, Hcache. split; [apply Hall; lia|].
    rewrite Hcache, length_fmap, length_seq. reflexivity.
Defined.

(** X14. As long as no touchmove is handled by a stale handler, the theme on
    screen changes exactly when the reset timer fires in stage [sent], and
    then it changes to a different one of the six themes: no two cycles in a
    row show the same theme. *)
Theorem theme_changes_on_reset (decodeSupported : bool) (url : string)
    (random : Q) (localStorage : gmap string string) (events : list Event)
    (e : Event) :
  Color.unit_interval random -> Forall valid events -> prompt events ->
  valid e -> ~ stale e ->
  let w := reached decodeSupported url random localStorage events in
  let w' := step decodeSupported e w in
  (currentColor (Kiosk.app (sys w')) <> currentColor (Kiosk.app (sys w))
   <-> stage (Kiosk.app (sys w)) = sent /\ exists r, e = Prompt (Kiosk.Timer r))
  /\ exists c, currentColor (Kiosk.app (sys w')) = Some c /\ c ∈ Color.COLORS.
Proof.
  intros Hr Hv Hp He Hs w w'.
  destruct (reached_prompt decodeSupported url random localStorage events Hr Hv Hp)
    as (_ & HI & Hq). fold w in HI, Hq.
  destruct e as [e0|clientY|k e0]; [| destruct (Hs I) |].
  - cbn in He.
    destruct (KioskSpec.Consistent_theme decodeSupported e0 (sys w) HI He)
      as [Hiff Hc].
    split; [|exact Hc].
    subst w'. cbn [step sys]. rewrite Hiff. split.
    + intros (Hst & r & ->). eauto.
    + intros (Hst & r & [= ->]). eauto.
  - subst w'. cbn [step]. rewrite (late_inert decodeSupported k e0 w Hq).
    split.
    + split; [intros H; destruct (H eq_refl)|intros (_ & r & [=])].
    + destruct HI as [_ _ _ _ _ _ _ (c & Hc & _ & Hin) _ _]. eauto.
Qed.

Lemma theme_changes_on_reset_witness :
  let w := reached true "ws://localhost:3001" (1 # 2) ∅
             (prompted ++ [Prompt (Kiosk.TouchMove 399)]) in
  currentColor (Kiosk.app (sys (step true (Prompt (Kiosk.Timer (1 # 2))) w)))
  <> currentColor (Kiosk.app (sys w)).
Proof.
  intros w.
  destruct (theme_changes_on_reset true "ws://localhost:3001" (1 # 2) ∅
              (prompted ++ [Prompt (Kiosk.TouchMove 399)])
              (Prompt (Kiosk.Timer (1 # 2)))) as [Hiff _].
  - split; [discriminate|reflexivity].
  - apply Forall_app. split; [apply valid_prompted|repeat constructor].
  - apply Forall_app. split; [apply prompt_fmap|].
    constructor; [intros H; exact H|constructor].
  - split; [discriminate|reflexivity].
  - intros H. exact H.
  - apply Hiff. split; [vm_compute; reflexivity|eauto].
Defined.



(** X17. As long as no touchmove was handled by a stale handler, what is
    pending matches the stage: a reset timer is pending exactly while the
    thank-you is shown, and never more than one; and an animation callback
    is pending only during the animation. *)
Theorem pending_work_matches_stage (decodeSupported : bool) (url : string)
    (random : Q) (localStorage : gmap string string) (events : list Event) :
  Color.unit_interval random -> Forall valid events -> prompt events ->
  let w := reached decodeSupported url random localStorage events in
  let st := Kiosk.app (sys w) in
  (stage st = sent <-> exists t, timeouts st = [t])
  /\ (stage st <> sent <-> timeouts st = [])
  /\ (frameRequested st = true -> stage st = folding).
Proof.
  intros Hr Hv Hp w st.
  destruct (reached_prompt decodeSupported url random localStorage events Hr Hv Hp)
    as (_ & HI & _).
  exact (KioskSpec.Consistent_pending _ HI).
Qed.

Lemma pending_work_matches_stage_witness :
  let st := Kiosk.app (sys (reached true "ws://localhost:3001" (1 # 2) ∅
                              (prompted ++ [Prompt (Kiosk.TouchMove 399)]))) in
  exists t, timeouts st = [t].
Proof.
  intros st.
  destruct (pending_work_matches_stage true "ws://localhost:3001" (1 # 2) ∅
              (prompted ++ [Prompt (Kiosk.TouchMove 399)])) as [Hsent _].
  - split; [discriminate|reflexivity].
  - apply Forall_app. split; [apply valid_prompted|repeat constructor].
  - apply Forall_app. split; [apply prompt_fmap|].
    constructor; [intros H; exact H|constructor].
  - apply Hsent. vm_compute. reflexivity.
Defined.


Lemma flushAnimation_commit st st' :
  stage st = floating -> stage st' = sent ->
  Kiosk.flushAnimation st st' = st'.
Proof.
  intros Hst Hst'.
  unfold Kiosk.flushAnimation, Kiosk.animationDepsChanged, Kiosk.animationActive.
  rewrite Hst, Hst'.
  rewrite (bool_decide_eq_false_2 (floating = sent)) by discriminate.
  rewrite (bool_decide_eq_false_2 (floating = folding)) by discriminate.
  cbn [andb negb]. unfold animationEffect. rewrite Hst'.
  rewrite (bool_decide_eq_false_2 (sent = folding)) by discriminate.
  reflexivity.
Qed.

(** X21. A second touchmove above the threshold that is handled before the
    re-render commits a second time: the same feedback frame is transmitted
    twice and two reset timers are pending, where the same touchmove handled
    after the re-render does nothing. *)
Theorem stale_touchmove_commits_again (decodeSupported : bool) (w : World)
    (ws : Ws.WebSocket) (start y1 y2 : Q) :
  let st := Kiosk.app (sys w) in
  stage st = floating -> touchStart st = Some start ->
  wsRef st = Some ws -> Ws.readyState ws = Ws.OPEN ->
  (100 < start - y1)%Q -> (100 < start - y2)%Q ->
  let frame := Connector.feedbackFrame (formData st) (currentColor st) in
  let again :=
    Kiosk.app (sys (run decodeSupported
                      [Prompt (Kiosk.TouchMove y1); StaleTouchMove y2] w)) in
  let once :=
    Kiosk.app (sys (run decodeSupported
                      [Prompt (Kiosk.TouchMove y1);
                       Prompt (Kiosk.TouchMove y2)] w)) in
  (stage again = sent
   /\ timeouts again = (timeouts st ++ [resetTimeout st; resetTimeout st])%list
   /\ Ws.transmitted <$> wsRef again
      = Some (Ws.transmitted ws ++ [frame; frame])%list)
  /\ (stage once = sent
      /\ timeouts once = (timeouts st ++ [resetTimeout st])%list
      /\ Ws.transmitted <$> wsRef once = Some (Ws.transmitted ws ++ [frame])%list).
Proof.
  intros st Hst Hts Hws Hopen H1 H2 frame.
  destruct w as [[st0 l] sup cl]. cbn [sys Kiosk.app] in st. subst st.
  set (ws1 := {| Ws.url := Ws.url ws; Ws.readyState := Ws.OPEN;
                 Ws.transmitted := (Ws.transmitted ws ++ [frame])%list |}).
  set (st1 := committed (set_wsRef (Some ws1) st0)).
  assert (Hfirst : Kiosk.dispatch decodeSupported (Kiosk.TouchMove y1)
                     {| Kiosk.app := st0; Kiosk.loader := l |}
                   = {| Kiosk.app := st1; Kiosk.loader := l |}).
  { cbn [Kiosk.dispatch Kiosk.app].
    rewrite (handleTouchMove_above st0 start y1 Hst Hts H1).
    rewrite (handleSwipeUp_open st0 ws Hws Hopen).
    unfold Kiosk.with_app. cbn [Kiosk.loader].
    rewrite flushAnimation_commit; [reflexivity|exact Hst|reflexivity]. }
  split.
  - cbn zeta. cbn [run foldl step sys closure superseded]. rewrite Hfirst.
    cbn [Kiosk.app Kiosk.with_app Kiosk.loader]. unfold staleTouchMove.
    rewrite (handleTouchMove_above (seen st0 st1) start y2);
      [|exact Hst|exact Hts|exact H2].
    rewrite (handleSwipeUp_open (seen st0 st1) ws1 eq_refl eq_refl).
    unfold queued. cbn. rewrite Hst.
    rewrite (bool_decide_eq_false_2 (sent = floating)) by discriminate.
    split; [reflexivity|]. split.
    + rewrite <- app_assoc. reflexivity.
    + rewrite <- app_assoc. reflexivity.
  - cbn zeta. cbn [run foldl step sys]. rewrite Hfirst.
    cbn [Kiosk.dispatch Kiosk.app]. unfold handleTouchMove.
    assert (Hts1 : touchStart st1 = Some start) by exact Hts.
    rewrite Hts1.
    rewrite (bool_decide_eq_false_2 (stage st1 = floating)) by discriminate.
    cbn [Kiosk.with_app Kiosk.app]. rewrite KioskSpec.flushAnimation_same.
    split; [reflexivity|]. split; reflexivity.
Qed.

Lemma stale_touchmove_commits_again_witness :
  let w := reached true "ws://localhost:3001" (1 # 2) ∅ prompted in
  let again :=
    Kiosk.app (sys (run true [Prompt (Kiosk.TouchMove 399); StaleTouchMove 380] w)) in
  timeouts again
  = [{| delay := 2000; closureColor := Some "yellow" |};
     {| delay := 2000; closureColor := Some "yellow" |}].
Proof.
  intros w again.
  destruct (stale_touchmove_commits_again true w
              {| Ws.url := "ws://localhost:3001"; Ws.readyState := Ws.OPEN;
                 Ws.transmitted := [Connector.registerFrame] |} 500 399 380)
    as [(_ & Hto & _) _].
  - vm_compute. reflexivity.
  - vm_compute. reflexivity.
  - vm_compute. reflexivity.
  - reflexivity.
  - reflexivity.
  - reflexivity.
  - fold again in Hto. rewrite Hto. vm_compute. reflexivity.
Defined.


Lemma flushAnimation_flag rendered next :
  imagesPreloaded (Kiosk.flushAnimation rendered next) = imagesPreloaded next.
Proof. apply KioskSpec.flushAnimation_fields. Qed.

(** What the callbacks of one superseded preload do to the component: its
    own record moves as in [Preload]; the flag of the component is up once
    its timer fired, the cache holds its images once its then-callback ran,
    and the promises of the current preload are not touched. *)
Lemma late_run dec k events : forall w l,
  superseded w !! k = Some l ->
  let w' := run dec (Late k <$> events) w in
  let l' := Preload.run dec events l in
  superseded w' !! k = Some l'
  /\ Preload.imagePromises (Kiosk.loader (sys w'))
     = Preload.imagePromises (Kiosk.loader (sys w))
  /\ (imagesPreloaded (Kiosk.app (sys w)) = true
      \/ Preload.imagesPreloaded l = false ->
      Preload.imagesPreloaded l' = true ->
      imagesPreloaded (Kiosk.app (sys w')) = true)
  /\ (Preload.imageCache (Kiosk.loader (sys w)) = Preload.cachedImages l
      \/ Preload.allSettled l = false ->
      Preload.allSettled l' = true ->
      Preload.imageCache (Kiosk.loader (sys w')) = Preload.cachedImages l).
Proof.
  induction events as [|e events IH]; intros w l Hk.
  - cbn. split; [exact Hk|]. split; [reflexivity|]. split.
    + intros [H|H] Hp; [exact H|congruence].
    + intros [H|H] Ha; [exact H|congruence].
  - cbn zeta. rewrite fmap_cons, world_run_cons, PreloadSpec.run_cons.
    set (l1 := Preload.step dec e l).
    set (w1 := step dec (Late k e) w).
    assert (Hk1 : superseded w1 !! k = Some l1).
    { unfold w1. cbn [step]. unfold late. rewrite Hk. cbn [superseded].
      apply list_lookup_insert_eq. eapply lookup_lt_Some. exact Hk. }
    assert (Hprom : Preload.imagePromises (Kiosk.loader (sys w1))
                    = Preload.imagePromises (Kiosk.loader (sys w))).
    { unfold w1. cbn [step]. unfold late. rewrite Hk. cbn [sys Kiosk.loader].
      destruct (_ && _); reflexivity. }
    assert (Hflag : imagesPreloaded (Kiosk.app (sys w1))
                    = (imagesPreloaded (Kiosk.app (sys w))
                       || (negb (Preload.imagesPreloaded l)
                           && Preload.imagesPreloaded l1))%bool).
    { unfold w1. cbn [step]. unfold late. rewrite Hk. cbn [sys Kiosk.app].
      fold l1.
      destruct (negb (Preload.imagesPreloaded l) && Preload.imagesPreloaded l1);
        [|rewrite orb_false_r; reflexivity].
      rewrite flushAnimation_flag, orb_true_r. reflexivity. }
    assert (Hcache : Preload.imageCache (Kiosk.loader (sys w1))
                     = if negb (Preload.allSettled l) && Preload.allSettled l1
                       then Preload.cachedImages l
                       else Preload.imageCache (Kiosk.loader (sys w))).
    { unfold w1. cbn [step]. unfold late. rewrite Hk. cbn [sys Kiosk.loader].
      fold l1.
      destruct (negb (Preload.allSettled l) && Preload.allSettled l1);
        [|reflexivity].
      unfold l1. rewrite PreloadMore.step_cachedImages. reflexivity. }
    destruct (IH w1 l1 Hk1) as (Hk' & Hprom' & Hflag' & Hcache').
    split; [exact Hk'|]. split; [rewrite Hprom'; exact Hprom|]. split.
    + intros Hpre Hp. apply Hflag'; [|exact Hp].
      rewrite Hflag.
      destruct (Preload.imagesPreloaded l1) eqn:Hp1; [left|right; reflexivity].
      destruct Hpre as [H|H]; rewrite H; [reflexivity|apply orb_true_r].
    + intros Hpre Ha.
      assert (Hci : Preload.cachedImages l1 = Preload.cachedImages l)
        by apply PreloadMore.step_cachedImages.
      rewrite Hci in Hcache'. apply Hcache'; [|exact Ha].
      rewrite Hcache.
      destruct (Preload.allSettled l1) eqn:Ha1; [left|right; reflexivity].
      destruct Hpre as [H|H]; [|rewrite H; reflexivity].
      destruct (Preload.allSettled l); cbn [negb andb]; [exact H|reflexivity].
Qed.

(** X22. The cleanup does not cancel a preload in flight. When the callbacks
    still outstanding for a superseded preload arrive, the cache of the
    component holds the images of that preload, those of an earlier theme,
    and the flag of the component is up, whatever the state of the preload
    of the theme on screen, whose promises are not touched: the submit
    button is enabled although that preload may not have resolved a single
    promise. *)
Theorem superseded_preload_interferes (decodeSupported : bool) (w : World)
    (k : nat) (l : Preload.Loader) :
  superseded w !! k = Some l -> Preload.Inv l -> Preload.allSettled l = false ->
  let s := sys (run decodeSupported (Late k <$> Cache.outstanding l) w) in
  imagesPreloaded (Kiosk.app s) = true
  /\ Render.submitDisabled (Kiosk.app s) = false
  /\ Preload.imageCache (Kiosk.loader s) = Preload.cachedImages l
  /\ Preload.imagePromises (Kiosk.loader s)
     = Preload.imagePromises (Kiosk.loader (sys w)).
Proof.
  intros Hk HI Ha s.
  destruct (late_run decodeSupported k (Cache.outstanding l) w l Hk)
    as (_ & Hprom & Hflag & Hcache). fold s in Hprom, Hflag, Hcache.
  pose proof (PreloadMore.outstanding_ready decodeSupported l HI) as Hready.
  assert (Hdown : Preload.imagesPreloaded l = false).
  { destruct HI as [_ HT]. destruct (Preload.graceTimer l) as [r|];
      [destruct HT as (H & _); congruence|congruence]. }
  assert (Hup : imagesPreloaded (Kiosk.app s) = true)
    by (apply Hflag; [right; exact Hdown|exact Hready]).
  split; [exact Hup|]. split; [unfold Render.submitDisabled; rewrite Hup; reflexivity|].
  split; [|exact Hprom].
  apply Hcache; [right; exact Ha|].
  assert (HI' : Preload.Inv (Preload.run decodeSupported (Cache.outstanding l) l))
    by (apply PreloadSpec.run_Inv, HI).
  apply HI'. apply PreloadSpec.Inv_ready_settled; assumption.
Qed.

Lemma superseded_preload_interferes_witness :
  let w := reached true "ws://localhost:3001" (1 # 2) ∅ resetTwice in
  let red := Preload.preloadImages (Some "red") in
  let s := sys (run true (Late 0 <$> Cache.outstanding red) w) in
  currentColor (Kiosk.app s) = Some "green"
  /\ Render.submitDisabled (Kiosk.app s) = false
  /\ Preload.imageCache (Kiosk.loader s) = Preload.src (Some "red") <$> seq 1 100
  /\ Preload.imagePromises (Kiosk.loader s) !! 0%nat = Some Preload.Pending.
Proof.
  intros w red s.
  destruct (superseded_preload_interferes true w 0 red)
    as (_ & Hdis & Hcache & Hprom).
  - vm_compute. reflexivity.
  - apply PreloadSpec.Inv_preloadImages.
  - reflexivity.
  - fold s in Hdis, Hcache, Hprom.
    split; [vm_compute; reflexivity|]. split; [exact Hdis|].
    split; [rewrite Hcache; reflexivity|].
    rewrite Hprom. vm_compute. reflexivity.
Defined.

End DeferredSpec.
